(** * stemtranscriber: the worker's job pipeline (src/worker/tasks.py)

    A shallow embedding of the separation and transcription tasks:
    the job-store writes, the progress translator that reads the
    separation tool's output, the search for the stem folder, the
    pitch conversion, the jitter smoothing and the segmentation of
    frames into notes.  Of the API (src/api/main.py) it embeds the
    endpoints that meet the worker: those that queue a job, the one
    that reports the status of a job and the one that serves a stem.

    Conventions of the embedding.
    - Python [int] is [Z]; array indices are [nat].
    - Binary64 numbers are Stdlib's [SpecFloat] ([B64], round to
      nearest even): the progress arithmetic of [separate_with_demucs],
      the pitch conversion and the frame times of the segmentation
      ([segment64]).  [np.log2] is a parameter of [hz_to_midi]: its
      results are the library's.
    - The segmentation is also given on exact rational times
      ([segment], [Q]), for the properties that say which frames make
      which notes; what depends on the rounding of the times is stated
      on [segment64].
    - A [string] is ASCII text.  [is_space] and [is_digit] are the
      classes [\s] and [\d] on such text; the properties that say
      which lines a pattern does not match are stated for lines of
      ASCII characters.
    - An exception is its text; [Raise e] is a raised [Exception].
    - A task is the list of its writes to the job store and its result.
      Writes to the store succeed; so do the calls that a task makes
      outside a [try] block and that its world does not list ([mkdir],
      [rmtree], [print]). *)

From Stdlib Require Import ZArith QArith Qround List String Ascii Bool Lia.
From Stdlib Require Import Sorting.Sorted.
From Stdlib Require Import Floats.SpecFloat.
From Stdlib Require Import Numbers.DecimalString.
From Stdlib Require Numbers.DecimalPos.
Import ListNotations.

(** ** Results of fallible calls *)

Module Outcome.

Inductive outcome (A : Type) : Type :=
| Ok (a : A)
| Raise (e : string).

Arguments Ok {A} a.
Arguments Raise {A} e.

Definition bind {A B} (m : outcome A) (f : A -> outcome B) : outcome B :=
  match m with
  | Ok a => f a
  | Raise e => Raise e
  end.

End Outcome.
Import Outcome.

(** ** The job store (Redis hash per job) *)

Module JobStore.

Inductive job_state := queued | running | succeeded | failed.

(** The [mapping] argument of one [redis_conn.hset] call.  [progress]
    is written as [str(progress)]; the model keeps the integer. *)
Record mapping := Mapping {
  state : job_state;
  progress : Z;
  message : option string
}.

(** One [hset] call: the key and the fields written. *)
Record hset_call := Hset { key : string; fields : mapping }.

Definition job_key (job_id : string) : string :=
  ("stemtranscriber:job:" ++ job_id)%string.

(** [set_progress]: state running, the progress, and the message when
    one is given. *)
Definition set_progress (job_id : string) (progress : Z)
    (message : option string) : hset_call :=
  Hset (job_key job_id) (Mapping running progress message).

(** The record of a job in the store: [hset] merges the written fields
    into the hash, so a call without a message keeps the old one. *)
Definition store := string -> option mapping.

Definition empty_store : store := fun _ => None.

Definition hset (c : hset_call) (st : store) : store :=
  fun k =>
    if String.eqb k (key c) then
      let old_msg := match st k with Some r => message r | None => None end in
      Some (Mapping (state (fields c)) (progress (fields c))
              (match message (fields c) with
               | Some m => Some m
               | None => old_msg
               end))
    else st k.

Definition run_writes (log : list hset_call) (st : store) : store :=
  fold_left (fun s c => hset c s) log st.

(** The invariant of a job record. *)
Definition record_ok (r : mapping) : Prop :=
  (0 <= progress r <= 100)%Z
  /\ (state r = succeeded -> progress r = 100%Z)
  /\ (state r = failed -> progress r = 0%Z).

(** The invariant on the fields of one write, and on a whole store. *)
Definition write_ok (c : hset_call) : Prop := record_ok (fields c).

Definition store_ok (st : store) : Prop :=
  forall k r, st k = Some r -> record_ok r.

End JobStore.
Import JobStore.

(** ** A task: the writes it made and how it ended *)

Module Task.

Definition task (A : Type) : Type := (list hset_call * outcome A)%type.

Definition ret {A} (a : A) : task A := ([], Ok a).

Definition raise {A} (e : string) : task A := ([], Raise e).

Definition write (c : hset_call) : task unit := ([c], Ok tt).

Definition lift {A} (o : outcome A) : task A := ([], o).

Definition bind {A B} (m : task A) (f : A -> task B) : task B :=
  match m with
  | (l1, Ok a) => let '(l2, r) := f a in (l1 ++ l2, r)
  | (l1, Raise e) => (l1, Raise e)
  end.

(** [try: body except Exception as e: handler e] *)
Definition try_except {A} (body : task A) (handler : string -> task A) : task A :=
  match body with
  | (l1, Raise e) => let '(l2, r) := handler e in (l1 ++ l2, r)
  | (l1, Ok a) => (l1, Ok a)
  end.

Definition writes {A} (t : task A) : list hset_call := fst t.
Definition result {A} (t : task A) : outcome A := snd t.

End Task.

Declare Scope task_scope.
Delimit Scope task_scope with task.
Notation "x <- m ;; k" := (Task.bind m (fun x => k))
  (at level 61, m at next level, right associativity) : task_scope.
Notation "m ;;; k" := (Task.bind m (fun _ => k))
  (at level 61, right associativity) : task_scope.

(** ** Binary64 arithmetic *)

Module B64.

Definition prec : Z := 53.
Definition emax : Z := 1024.

Definition float := spec_float.

Definition div : float -> float -> float := SFdiv prec emax.
Definition mul : float -> float -> float := SFmul prec emax.
Definition add : float -> float -> float := SFadd prec emax.
Definition sub : float -> float -> float := SFsub prec emax.
Definition ltb : float -> float -> bool := SFltb.
Definition leb : float -> float -> bool := SFleb.

Definition is_finite (f : float) : bool :=
  match f with
  | S754_zero _ | S754_finite _ _ _ => true
  | _ => false
  end.

(** [float(n)] for a Python int. *)
Definition of_Z (n : Z) : float := binary_normalize prec emax n 0 false.

(** [int(f)]: truncation toward zero; infinities and NaN raise. *)
Definition to_int (f : float) : outcome Z :=
  match f with
  | S754_zero _ => Ok 0%Z
  | S754_finite s m e =>
      let a := match e with
               | Zneg p => Z.shiftr (Zpos m) (Zpos p)
               | _ => Z.shiftl (Zpos m) e
               end in
      Ok (if s then Z.opp a else a)
  | S754_infinity _ => Raise "cannot convert float infinity to integer"
  | S754_nan => Raise "cannot convert float NaN to integer"
  end.

(** [round(f)] with one argument: the nearest integer, ties to even;
    infinities and NaN raise. *)
Definition round_int (f : float) : outcome Z :=
  match f with
  | S754_zero _ => Ok 0%Z
  | S754_finite s m e =>
      let a := match e with
               | Zneg p =>
                   let q := Z.shiftr (Zpos m) (Zpos p) in
                   let r := (Zpos m - Z.shiftl q (Zpos p))%Z in
                   let half := Z.shiftl 1 (Zpos p - 1) in
                   match (r ?= half)%Z with
                   | Lt => q
                   | Gt => (q + 1)%Z
                   | Eq => if Z.even q then q else (q + 1)%Z
                   end
               | _ => Z.shiftl (Zpos m) e
               end in
      Ok (if s then Z.opp a else a)
  | S754_infinity _ => Raise "cannot convert float infinity to integer"
  | S754_nan => Raise "cannot convert float NaN to integer"
  end.

(** The rational value of a finite float. *)
Definition value (f : float) : option Q :=
  match f with
  | S754_zero _ => Some 0%Q
  | S754_finite s m e =>
      let n := if s then Zneg m else Zpos m in
      Some match e with
           | Zneg p => Qmake n (Pos.pow 2 p)
           | _ => inject_Z (n * 2 ^ e)
           end
  | _ => None
  end.

End B64.

(** ** The progress translator (lines 36-40 and 84-101) *)

Module Progress.

Local Open Scope string_scope.
Local Open Scope Z_scope.

(** [\s] on ASCII text: tab, newline, vertical tab, form feed, carriage
    return, the four separators 0x1c-0x1f and space. *)
Definition is_space (c : ascii) : bool :=
  let n := nat_of_ascii c in
  ((9 <=? n) && (n <=? 13) || (28 <=? n) && (n <=? 32))%nat.

(** [\d] on ASCII text. *)
Definition is_digit (c : ascii) : bool :=
  let n := nat_of_ascii c in ((48 <=? n) && (n <=? 57))%nat.

Definition digit_value (c : ascii) : Z := Z.of_nat (nat_of_ascii c) - 48.

(** [int(s)] for a string of decimal digits. *)
Definition int_of_digits (s : string) : Z :=
  fold_left (fun acc c => 10 * acc + digit_value c) (list_ascii_of_string s) 0.

(** [\s*]: the line without its leading white space. *)
Fixpoint skip_spaces (s : string) : string :=
  match s with
  | String c s' => if is_space c then skip_spaces s' else s
  | EmptyString => s
  end.

(** At most [n] leading digits and what follows them ([\d{0,n}], greedy). *)
Fixpoint take_digits (n : nat) (s : string) : string * string :=
  match n, s with
  | S n', String c s' =>
      if is_digit c then
        let '(ds, r) := take_digits n' s' in (String c ds, r)
      else (EmptyString, s)
  | _, _ => (EmptyString, s)
  end.

(** [RE_TQDM_PCT.match(line)]: the text of group 1 when
    [^\s*(\d{1,3})%\|] matches at the start of the line.  The three
    classes that follow one another in the pattern (white space, digits,
    the percent sign) are disjoint, so the greedy choice is the only one
    that can succeed and no backtracking is lost. *)
Definition RE_TQDM_PCT_match (line : string) : option string :=
  let '(ds, r) := take_digits 3 (skip_spaces line) in
  match ds, r with
  | String _ _, String "%" (String "|" _) => Some ds
  | _, _ => None
  end.

(** All leading digits and what follows them ([\d*], greedy). *)
Fixpoint span_digits (s : string) : string * string :=
  match s with
  | String c s' =>
      if is_digit c then
        let '(ds, r) := span_digits s' in (String c ds, r)
      else (EmptyString, s)
  | EmptyString => (EmptyString, s)
  end.

(** [\d+(?:\.\d+)?] at the head of [s]: the integer digits, the
    fraction digits (empty when the optional part does not match) and
    what follows. *)
Definition number_prefix (s : string) : option (string * string * string) :=
  match span_digits s with
  | (EmptyString, _) => None
  | (ip, r) =>
      match r with
      | String "." r' =>
          match span_digits r' with
          | (EmptyString, _) => Some (ip, EmptyString, r)
          | (fp, r'') => Some (ip, fp, r'')
          end
      | _ => Some (ip, EmptyString, r)
      end
  end.

(** A decimal numeral matched by one group: integer and fraction digits. *)
Definition numeral := (string * string)%type.

(** The pattern [(\d+(?:\.\d+)?)/(\d+(?:\.\d+)?)] at the head of [s]. *)
Definition frac_at (s : string) : option (numeral * numeral) :=
  match number_prefix s with
  | Some (ip1, fp1, String "/" r) =>
      match number_prefix r with
      | Some (ip2, fp2, _) => Some ((ip1, fp1), (ip2, fp2))
      | None => None
      end
  | _ => None
  end.

(** [RE_TQDM_FRAC.search(line)]: the leftmost match. *)
Fixpoint RE_TQDM_FRAC_search (line : string) : option (numeral * numeral) :=
  match frac_at line with
  | Some g => Some g
  | None =>
      match line with
      | String _ rest => RE_TQDM_FRAC_search rest
      | EmptyString => None
      end
  end.

(** [float(text)] of a matched numeral: the binary64 nearest to
    [digits / 10^k], [k] the number of fraction digits. *)
Definition float_of_numeral (n : numeral) : B64.float :=
  let '(ip, fp) := n in
  let num := int_of_digits (ip ++ fp) in
  let k := Z.of_nat (String.length fp) in
  match num with
  | Zpos p => SFdiv B64.prec B64.emax (S754_finite false p 0)
                (S754_finite false (Z.to_pos (10 ^ k)) 0)
  | _ => S754_zero false
  end.

Definition clamp (n lo hi : Z) : Z := Z.max lo (Z.min hi n).

(** Lines 91-94: the percentage of the fractional pattern,
    [int((x / total) * 100)] when [total > 0].  [None]: no update. *)
Definition frac_pct (x total : B64.float) : outcome (option Z) :=
  if B64.ltb (S754_zero false) total then
    Outcome.bind (B64.to_int (B64.mul (B64.div x total) (B64.of_Z 100)))
      (fun pct => Ok (Some pct))
  else Ok None.

(** Lines 84-94: the percentage read from one line. *)
Definition line_pct (line : string) : outcome (option Z) :=
  match RE_TQDM_PCT_match line with
  | Some g1 => Ok (Some (int_of_digits g1))
  | None =>
      match RE_TQDM_FRAC_search line with
      | Some (g1, g2) => frac_pct (float_of_numeral g1) (float_of_numeral g2)
      | None => Ok None
      end
  end.

(** Line 98: [5 + int((pct / 100) * 80)]. *)
Definition scale (pct : Z) : outcome Z :=
  Outcome.bind
    (B64.to_int (B64.mul (B64.div (B64.of_Z pct) (B64.of_Z 100)) (B64.of_Z 80)))
    (fun n => Ok (5 + n)).

(** Lines 96-98: clamp, then scale. *)
Definition scaled_of_pct (pct : Z) : outcome (Z * Z) :=
  let pct := clamp pct 0 100 in
  Outcome.bind (scale pct) (fun scaled => Ok (pct, scaled)).

(** The fractional path from the two matched numbers to the scaled
    value: lines 91-98. *)
Definition frac_scaled (x total : B64.float) : outcome (option Z) :=
  Outcome.bind (frac_pct x total) (fun o =>
    match o with
    | Some pct => Outcome.bind (scaled_of_pct pct) (fun ps => Ok (Some (snd ps)))
    | None => Ok None
    end).

Definition str (n : Z) : string := NilZero.string_of_int (Z.to_int n).

(** The body of the [for raw in proc.stdout] loop (lines 81-101) for one
    line, from the last value written: the new last value and the write
    made, if any. *)
Definition translate_line (job_id : string) (last_scaled : Z) (line : string)
  : Task.task Z :=
  (o <- Task.lift (line_pct line) ;;
   match o with
   | None => Task.ret last_scaled
   | Some pct =>
       ps <- Task.lift (scaled_of_pct pct) ;;
       let '(pct, scaled) := ps in
       if negb (scaled =? last_scaled) then
         Task.write (set_progress job_id scaled
                       (Some ("Separating… " ++ str pct ++ "%"))) ;;;
         Task.ret scaled
       else Task.ret last_scaled
   end)%task.

(** The whole loop over the lines read from the tool. *)
Fixpoint translate_lines (job_id : string) (last_scaled : Z)
    (lines : list string) : Task.task Z :=
  match lines with
  | [] => Task.ret last_scaled
  | line :: rest =>
      (s <- translate_line job_id last_scaled line ;;
       translate_lines job_id s rest)%task
  end.

(** *** Reference descriptions used by the properties *)

(** The check, over every percentage of [0, 100], that the scaled value
    computed in binary64 is the integer [5 + floor(80 * pct / 100)]. *)
Definition scale_table_ok : bool :=
  forallb (fun n => match scale (Z.of_nat n) with
                    | Ok s => s =? 5 + (80 * Z.of_nat n) / 100
                    | Raise _ => false
                    end) (seq 0 101).

Definition all_chars (p : ascii -> bool) (s : string) : bool :=
  forallb p (list_ascii_of_string s).

(** A character of ASCII text.  On such text the classes [\s] and [\d]
    of Python's patterns are [is_space] and [is_digit]; on other text
    they also hold white space and digits of other scripts, which the
    embedding does not represent. *)
Definition is_ascii (c : ascii) : bool := (nat_of_ascii c <? 128)%nat.

(** A progress update of the translator: state running, a value of
    [5, 85]. *)
Definition progress_update (job_id : string) (c : hset_call) : Prop :=
  exists s msg, c = set_progress job_id s msg /\ 5 <= s <= 85.

(** The translator as section 4.2 of the specification words it:
    rounding to nearest in both places, for a sub-range [lo, hi]. *)
Definition spec_frac_pct (x total : B64.float) : outcome (option Z) :=
  if B64.ltb (S754_zero false) total then
    Outcome.bind (B64.round_int (B64.mul (B64.div x total) (B64.of_Z 100)))
      (fun pct => Ok (Some pct))
  else Ok None.

Definition spec_scale (lo hi pct : Z) : outcome Z :=
  Outcome.bind
    (B64.round_int
       (B64.mul (B64.div (B64.of_Z pct) (B64.of_Z 100)) (B64.of_Z (hi - lo))))
    (fun n => Ok (lo + n)).

End Progress.

Import Progress.

(** ** The scratch tree and the stem folder (lines 23-34, 125-131) *)

Module Stems.

Local Open Scope string_scope.

(** A file-system tree: a regular file, or a directory with its entries
    in the order the file system lists them. *)
Inductive node :=
| File
| Dir (entries : list entry)
with entry :=
| Entry (name : string) (n : node).

Definition ename (e : entry) : string := let '(Entry nm _) := e in nm.
Definition enode (e : entry) : node := let '(Entry _ n) := e in n.

(** A directory as the code holds it: its path and its listing. *)
Definition folder := (list string * list entry)%type.

Definition expected : list string :=
  ["bass.wav"; "drums.wav"; "other.wav"; "vocals.wav"].

Definition named (name : string) (e : entry) : bool :=
  String.eqb (ename e) name.

(** [(d / name).exists()] *)
Definition exists_in (d : folder) (name : string) : bool :=
  existsb (named name) (snd d).

Definition lookup (d : folder) (name : string) : option node :=
  option_map enode (find (named name) (snd d)).

(** [root.rglob(name)], as the parents of the paths it yields: the
    directory itself for each of its entries called [name], then the
    same for every sub-directory, in listing order. *)
Fixpoint rglob_parents (name : string) (path : list string) (n : node)
  : list folder :=
  match n with
  | File => []
  | Dir es =>
      (map (fun _ => (path, es)) (filter (named name) es)
       ++ (fix sub (l : list entry) : list folder :=
             match l with
             | [] => []
             | Entry nm child :: l' =>
                 rglob_parents name (path ++ [nm]) child ++ sub l'
             end) es)%list
  end.

Definition ends_with (suffix s : string) : bool :=
  let n := String.length s in
  let k := String.length suffix in
  (k <=? n)%nat && String.eqb (substring (n - k) k s) suffix.

(** [{x.name for x in d.glob("*.wav")}] *)
Definition present (d : folder) : list string :=
  map ename (filter (fun e => ends_with ".wav" (ename e)) (snd d)).

(** [len(expected.intersection(present))] *)
Definition score (d : folder) : nat :=
  List.length
    (filter (fun n => existsb (String.eqb n) (present d)) expected).

(** [candidates.sort(key=lambda t: t[0], reverse=True)]: a stable sort,
    highest score first; candidates of equal score keep their order.
    [insert_desc] puts a candidate in front of a list of later ones. *)
Fixpoint insert_desc (c : nat * folder) (l : list (nat * folder))
  : list (nat * folder) :=
  match l with
  | [] => [c]
  | c' :: l' =>
      if (fst c' <=? fst c)%nat then c :: l else c' :: insert_desc c l'
  end.

Definition sort_desc (l : list (nat * folder)) : list (nat * folder) :=
  fold_right insert_desc [] l.

Definition find_stem_folder (tmp_out : node) : option folder :=
  let candidates :=
    map (fun d => (score d, d)) (rglob_parents "bass.wav" [] tmp_out) in
  match sort_desc candidates with
  | [] => None
  | c :: _ => Some (snd c)
  end.

(** [shutil.copyfile(src_stem, sdir / name)]: a directory cannot be
    copied as a file. *)
Definition copyfile (n : node) : outcome unit :=
  match n with
  | File => Ok tt
  | Dir _ => Raise "[Errno 21] Is a directory"
  end.

(** Lines 126-131: the number of stems copied. *)
Fixpoint copy_loop (d : folder) (names : list string) (copied : nat)
  : outcome nat :=
  match names with
  | [] => Ok copied
  | name :: rest =>
      match lookup d name with
      | Some n =>
          Outcome.bind (copyfile n) (fun _ => copy_loop d rest (copied + 1))
      | None => copy_loop d rest copied
      end
  end.

Definition copy_stems (d : folder) : outcome nat := copy_loop d expected 0.

Section TreeInduction.

Variable P : node -> Prop.
Hypothesis P_file : P File.
Hypothesis P_dir : forall es, Forall (fun e => P (enode e)) es -> P (Dir es).

(** Induction on a tree, with the property known of every entry of a
    directory. *)
Fixpoint node_tree_ind (n : node) : P n :=
  match n with
  | File => P_file
  | Dir es =>
      P_dir es
        ((fix all (l : list entry) : Forall (fun e => P (enode e)) l :=
            match l with
            | [] => Forall_nil _
            | e :: l' =>
                Forall_cons e
                  (match e as e0 return P (enode e0) with
                   | Entry _ child => node_tree_ind child
                   end)
                  (all l')
            end) es)
  end.

End TreeInduction.

End Stems.
Import Stems.

(** ** The separation task (lines 48-138) *)

Module Separation.

Local Open Scope string_scope.
Local Open Scope Z_scope.

(** What the task meets outside itself. *)
Record world := World {
  demucs_model : string;        (* DEMUCS_MODEL *)
  originals : list string;      (* udir.glob("original.*") *)
  popen : outcome unit;         (* subprocess.Popen *)
  lines : list string;          (* the lines read from proc.stdout *)
  wait : outcome Z;             (* the end of the stream and proc.wait() *)
  tmp_tree : node               (* the scratch tree after the run *)
}.

Definition fail (job_id : string) (msg : string) : hset_call :=
  Hset (job_key job_id) (Mapping failed 0 (Some msg)).

Definition succeed (job_id : string) (msg : string) : hset_call :=
  Hset (job_key job_id) (Mapping succeeded 100 (Some msg)).

(** Lines 75-107: [Some rc] when the tool ran, [None] after the
    exception handler has written the failure and returned. *)
Definition run_tool (w : world) (job_id : string) : Task.task (option Z) :=
  Task.try_except
    (_ <- Task.lift (popen w) ;;
     _ <- translate_lines job_id (-1) (lines w) ;;
     rc <- Task.lift (wait w) ;;
     Task.ret (Some rc))%task
    (fun e =>
       (Task.write (fail job_id ("Demucs exception: " ++ e)) ;;;
        Task.ret None)%task).

(** Lines 113-138. *)
Definition collect (w : world) (job_id : string) : Task.task unit :=
  (Task.write (set_progress job_id 90 (Some "Collecting stems...")) ;;;
   match find_stem_folder (tmp_tree w) with
   | None => Task.write (fail job_id "No demucs output found")
   | Some stem_folder =>
       copied <- Task.lift (copy_stems stem_folder) ;;
       if (copied =? 0)%nat then Task.write (fail job_id "No stems copied")
       else Task.write (succeed job_id "Stems ready (Demucs).")
   end)%task.

Definition separate_with_demucs (w : world) (job_id : string)
  : Task.task unit :=
  (Task.write (set_progress job_id 1 (Some "Preparing Demucs...")) ;;;
   match originals w with
   | [] => Task.write (fail job_id "No uploaded audio")
   | src :: _ =>
       Task.write (set_progress job_id 5
                     (Some ("Running Demucs (" ++ demucs_model w ++ ")..."))) ;;;
       r <- run_tool w job_id ;;
       match r with
       | None => Task.ret tt
       | Some rc =>
           if negb (rc =? 0) then
             Task.write (fail job_id "Demucs failed. Check worker logs.")
           else collect w job_id
       end
   end)%task.

End Separation.

(** ** Pitch conversion (lines 149-150) *)

Module Pitch.

(** [int(round(69 + 12 * np.log2(hz / 440.0)))] in binary64.  [log2]
    is [np.log2] on binary64 numbers: its result is the library's, so
    the embedding takes the function as given and the properties say
    what they assume of it.  [round] raises on an infinite or undefined
    value. *)
Definition hz_to_midi (log2 : B64.float -> B64.float) (hz : B64.float)
  : outcome Z :=
  B64.round_int
    (B64.add (B64.of_Z 69)
       (B64.mul (B64.of_Z 12) (log2 (B64.div hz (B64.of_Z 440))))).

(** The binary64 value that [hz_to_midi] rounds. *)
Definition semitone_value (log2 : B64.float -> B64.float) (hz : B64.float)
  : B64.float :=
  B64.add (B64.of_Z 69)
    (B64.mul (B64.of_Z 12) (log2 (B64.div hz (B64.of_Z 440)))).

(** [hz * 2] *)
Definition octave_up (hz : B64.float) : B64.float := B64.mul hz (B64.of_Z 2).

(** The octave law as section 8 of the specification words it: for
    every representable positive frequency, the note of the doubled
    frequency is twelve above the note of the frequency. *)
Definition spec_octave_law (log2 : B64.float -> B64.float) : Prop :=
  forall hz,
    B64.ltb (S754_zero false) hz = true ->
    B64.is_finite hz = true ->
    exists n, hz_to_midi log2 hz = Ok n
              /\ hz_to_midi log2 (octave_up hz) = Ok (n + 12)%Z.

End Pitch.

(** ** Smoothing and segmentation (lines 202-229) *)

Module Transcriber.

Local Open Scope Z_scope.

(** [a[i] = v] on an array; the loops below only write inside it. *)
Fixpoint set_nth (i : nat) (v : Z) (a : list Z) : list Z :=
  match a, i with
  | [], _ => []
  | _ :: a', O => v :: a'
  | x :: a', S i' => x :: set_nth i' v a'
  end.

(** [a[lo:hi]] *)
Definition slice (a : list Z) (lo hi : nat) : list Z :=
  firstn (hi - lo) (skipn lo a).

Fixpoint insert_sorted (x : Z) (l : list Z) : list Z :=
  match l with
  | [] => [x]
  | y :: l' => if x <=? y then x :: l else y :: insert_sorted x l'
  end.

Definition sort (l : list Z) : list Z := fold_right insert_sorted [] l.

(** [int(np.median(vals))]: the middle value, or the mean of the two
    middle values cut to an integer. *)
Definition median (vals : list Z) : Z :=
  let s := sort vals in
  let n := List.length s in
  if Nat.even n then Z.quot (nth (n / 2 - 1) s 0 + nth (n / 2) s 0) 2
  else nth (n / 2) s 0.

(** The body of the smoothing loop for one [i] (lines 205-209); the
    window is read from the array as it is at that moment. *)
Definition smooth_step (midi_frame : list Z) (i : nat) : list Z :=
  let window := slice midi_frame (i - 2) (i + 3) in
  let vals := filter (fun v => 0 <=? v) window in
  if (3 <=? List.length vals)%nat then set_nth i (median vals) midi_frame
  else midi_frame.

(** [for i in range(2, len(midi_frame) - 2)] *)
Definition smooth (midi_frame : list Z) : list Z :=
  fold_left smooth_step (seq 2 (List.length midi_frame - 4)) midi_frame.

(** A note: pitch, start time, end time. *)
Definition note := (Z * Q * Q)%type.

Definition start_time (n : note) : Q := snd (fst n).
Definition end_time (n : note) : Q := snd n.

Definition time_at (times : list Q) (i : nat) : Q := nth i times 0%Q.

(** [times[1] - times[0] if len(times) > 1 else 0.01] *)
Definition hop (times : list Q) : Q :=
  if (1 <? List.length times)%nat then (time_at times 1 - time_at times 0)%Q
  else (1 # 100)%Q.

(** The inner loop (lines 224-225): the first index from [j] on that is
    outside the array or holds another value. *)
Fixpoint run_end (midi_frame : list Z) (note : Z) (j fuel : nat) : nat :=
  match fuel with
  | O => j
  | S fuel' =>
      if (j <? List.length midi_frame)%nat && (nth j midi_frame 0 =? note)
      then run_end midi_frame note (j + 1) fuel'
      else j
  end.

(** The outer loop (lines 217-229), one iteration per unit of fuel. *)
Fixpoint segment_loop (times : list Q) (min_note_len_s : Q)
    (midi_frame : list Z) (fuel i : nat) (notes : list note) : list note :=
  match fuel with
  | O => notes
  | S fuel' =>
      if (List.length midi_frame <=? i)%nat then notes
      else if nth i midi_frame 0 <? 0 then
        segment_loop times min_note_len_s midi_frame fuel' (i + 1) notes
      else
        let note := nth i midi_frame 0 in
        let start_t := time_at times i in
        let j := run_end midi_frame note (i + 1) (List.length midi_frame) in
        let end_t := (time_at times (j - 1) + hop times)%Q in
        let notes' :=
          if Qle_bool min_note_len_s (end_t - start_t)%Q
          then (notes ++ [(note, start_t, end_t)])%list
          else notes in
        segment_loop times min_note_len_s midi_frame fuel' j notes'
  end.

(** Every iteration advances [i], so one unit of fuel per frame lets
    the loop reach the end of the array. *)
Definition segment (times : list Q) (min_note_len_s : Q)
    (midi_frame : list Z) : list note :=
  segment_loop times min_note_len_s midi_frame (List.length midi_frame) 0 [].

(** [librosa.times_like(f0, sr=22050, hop_length=256)]: frame [i] is at
    [i * 256 / 22050] seconds. *)
Definition times_like (n : nat) : list Q :=
  map (fun i => (Z.of_nat i * 256) # 22050) (seq 0 n).

Definition min_note_len_s : Q := 6 # 100.

(** Lines 214-229 on the smoothed frames. *)
Definition build_notes (midi_frame : list Z) : list note :=
  segment (times_like (List.length midi_frame)) min_note_len_s midi_frame.

(** Lines 202-229. *)
Definition notes_of_frames (midi_frame : list Z) : list note :=
  build_notes (smooth midi_frame).

(** *** The segmentation on binary64 times

    The times that [librosa.times_like] returns are binary64 numbers,
    and the loop adds the hop and compares the duration in binary64.
    The definitions above take the times as exact rationals; the ones
    below are the same loop on the numbers the code has. *)











(** *** Reference descriptions used by the properties *)

(** What one smoothing step stores at a frame, from the five values of
    its window and the value it held. *)
Definition window_value (window : list Z) (old : Z) : Z :=
  let vals := filter (fun v => 0 <=? v) window in
  if (3 <=? List.length vals)%nat then median vals else old.

(** The smoothing as section 4.4 of the specification words it: every
    interior frame is recomputed from the window of the given sequence,
    the first two and last two frames are kept. *)
Definition spec_smooth (midi_frame : list Z) : list Z :=
  map (fun i =>
         if (2 <=? i)%nat && (i + 2 <? List.length midi_frame)%nat
         then window_value (slice midi_frame (i - 2) (i + 3))
                (nth i midi_frame 0)
         else nth i midi_frame 0)
      (seq 0 (List.length midi_frame)).

(** The array [a] after the smoothing loop has handled the indices
    below [k] of [midi_frame]: outside [2, k) it is the given sequence,
    inside each frame is the window value of the two frames before it
    as smoothed and of itself and the two frames after it as given. *)
Definition smoothed_upto (midi_frame a : list Z) (k : nat) : Prop :=
  List.length a = List.length midi_frame
  /\ (forall j, (j < 2 \/ k <= j)%nat -> nth j a 0 = nth j midi_frame 0)
  /\ (forall j, (2 <= j < k)%nat ->
        nth j a 0
        = window_value
            [nth (j - 2) a 0; nth (j - 1) a 0; nth j midi_frame 0;
             nth (j + 1) midi_frame 0; nth (j + 2) midi_frame 0]
            (nth j midi_frame 0)).

(** A run: a value and the number of consecutive frames that hold it. *)
Definition run := (Z * nat)%type.

Fixpoint expand (rs : list run) : list Z :=
  match rs with
  | [] => []
  | (v, n) :: rs' => (repeat v n ++ expand rs')%list
  end.

(** Runs are maximal when none is empty and neighbours hold different
    values. *)
Fixpoint maximal_runs (rs : list run) : bool :=
  match rs with
  | [] => true
  | (v, n) :: rs' =>
      (0 <? n)%nat
      && match rs' with
         | (v', _) :: _ => negb (v =? v')
         | [] => true
         end
      && maximal_runs rs'
  end.

(** The maximal runs of a frame sequence. *)
Fixpoint runs_of (l : list Z) : list run :=
  match l with
  | [] => []
  | v :: l' =>
      match runs_of l' with
      | (v', n) :: rs => if v =? v' then (v, S n) :: rs
                         else (v, 1%nat) :: (v', n) :: rs
      | [] => [(v, 1%nat)]
      end
  end.

(** A span: the value of a run, its first and its last frame. *)
Definition span := (Z * nat * nat)%type.

Fixpoint run_spans (start : nat) (rs : list run) : list span :=
  match rs with
  | [] => []
  | (v, n) :: rs' => (v, start, (start + n - 1)%nat) :: run_spans (start + n) rs'
  end.

Definition voiced (s : span) : bool := negb (fst (fst s) <? 0).

Definition first_frame (s : span) : nat := snd (fst s).
Definition last_frame (s : span) : nat := snd s.


(** What follows a maximal run does not start with the run's value. *)
Definition stops (v : Z) (rest : list Z) : Prop :=
  match rest with
  | [] => True
  | x :: _ => x <> v
  end.

(** The candidate note of a span: from the time of its first frame to
    the time of its last frame plus one hop. *)
Definition candidate (times : list Q) (s : span) : note :=
  let '(v, first, last) := s in
  (v, time_at times first, (time_at times last + hop times)%Q).

Definition candidates (times : list Q) (midi_frame : list Z) : list note :=
  map (candidate times) (filter voiced (run_spans 0 (runs_of midi_frame))).

Definition long_enough (min_note_len_s : Q) (n : note) : bool :=
  Qle_bool min_note_len_s (end_time n - start_time n)%Q.












Local Open Scope string_scope.

(** What the transcription meets outside itself; every call below is
    inside the [try] block. *)
Record world := World {
  stem_exists : outcome bool;    (* sfile.exists() *)
  mkdir : outcome unit;          (* out_dir.mkdir *)
  load : outcome unit;           (* the imports, librosa.load, trim *)
  frames : outcome (list Z);     (* pyin, times_like, lines 197-200 *)
  write_midi : outcome unit;     (* lines 237-246 *)
  write_musicxml : outcome unit  (* lines 251-253 *)
}.

Definition fail (job_id : string) (msg : string) : hset_call :=
  Hset (job_key job_id) (Mapping failed 0 (Some msg)).

Definition succeed (job_id : string) (msg : string) : hset_call :=
  Hset (job_key job_id) (Mapping succeeded 100 (Some msg)).

(** The [try] block, lines 161-256. *)
Definition body (w : world) (job_id stem_name : string) : Task.task unit :=
  (Task.write (set_progress job_id 1 (Some "Preparing transcription...")) ;;;
   present <- Task.lift (stem_exists w) ;;
   if negb present then
     Task.write (fail job_id ("Stem not found: " ++ stem_name))
   else
     Task.lift (mkdir w) ;;;
     Task.write (set_progress job_id 5 (Some "Loading audio...")) ;;;
     Task.lift (load w) ;;;
     Task.write (set_progress job_id 15 (Some "Detecting pitch (pyin)...")) ;;;
     midi_frame <- Task.lift (frames w) ;;
     let midi_frame := smooth midi_frame in
     Task.write (set_progress job_id 35 (Some "Building notes...")) ;;;
     let notes := build_notes midi_frame in
     match notes with
     | [] =>
         Task.write
           (fail job_id "No notes detected (try bass stem, or cleaner audio).")
     | _ :: _ =>
         Task.write (set_progress job_id 55 (Some "Writing MIDI...")) ;;;
         Task.lift (write_midi w) ;;;
         Task.write (set_progress job_id 75 (Some "Converting to MusicXML...")) ;;;
         Task.lift (write_musicxml w) ;;;
         Task.write (succeed job_id "Transcription ready (MIDI + MusicXML).")
     end)%task.

(** Lines 160-260: the [try] block and its handler, which records the
    failure and raises the exception again. *)
Definition transcribe_monophonic (w : world) (job_id stem_name : string)
  : Task.task unit :=
  Task.try_except (body w job_id stem_name)
    (fun e =>
       (Task.write (fail job_id ("Transcription exception: " ++ e)) ;;;
        Task.raise e)%task).

(** The exception of the first step of the [try] block that raises, in
    the order the block runs its steps; [None] when every step that is
    run returns. *)
Definition first_exception (w : world) : option string :=
  match stem_exists w with
  | Raise e => Some e
  | Ok false => None
  | Ok true =>
      match mkdir w, load w, frames w with
      | Raise e, _, _ => Some e
      | Ok _, Raise e, _ => Some e
      | Ok _, Ok _, Raise e => Some e
      | Ok _, Ok _, Ok midi_frame =>
          match build_notes (smooth midi_frame) with
          | [] => None
          | _ :: _ =>
              match write_midi w, write_musicxml w with
              | Raise e, _ => Some e
              | Ok _, Raise e => Some e
              | Ok _, Ok _ => None
              end
          end
      end
  end.

End Transcriber.

(** ** Sample inputs *)

Module Examples.

Local Open Scope string_scope.

Definition four_stems : node :=
  Dir [Entry "bass.wav" File; Entry "drums.wav" File;
       Entry "other.wav" File; Entry "vocals.wav" File].

Definition two_stems : node :=
  Dir [Entry "bass.wav" File; Entry "drums.wav" File].

Definition scratch : node :=
  Dir [Entry "htdemucs" (Dir [Entry "partial" two_stems;
                              Entry "original" four_stems])].

Definition stem_dir : folder :=
  (["htdemucs"; "original"],
   [Entry "bass.wav" File; Entry "drums.wav" File;
    Entry "other.wav" File; Entry "vocals.wav" File]).

Definition separation_run : Separation.world :=
  Separation.World "htdemucs" ["original.mp3"] (Ok tt)
    [" 10%|#"; "152.1/234.0"; "100%|####"] (Ok 0%Z) scratch.

Definition transcription_run : Transcriber.world :=
  Transcriber.World (Ok true) (Ok tt) (Ok tt)
    (Ok [60; 60; 60; 60; 60; 60; 60; -1; 62; 62; 62; 62; 62; 62; 62; 62]%Z)
    (Raise "disk full") (Ok tt).



(** Frames on which smoothing in place and smoothing from the given
    sequence differ. *)
Definition jitter_frames : list Z := [60; 60; 72; 72; 60; 72; 72]%Z.


(** 26.717128381724166 Hz, a quarter tone below the note 21, and the
    binary64 numbers nearest to the logarithms to base 2 of that
    frequency and of its double, each divided by 440:
    -4.041666666666666 and -3.0416666666666665. *)
Definition quarter_tone : B64.float :=
  S754_finite false 7520203089021416 (-48).

Definition log2_quarter_tone : B64.float :=
  S754_finite true 4550512123488938 (-50).

Definition log2_quarter_tone_up : B64.float :=
  S754_finite true 6849224433292629 (-51).

(** The largest binary64 number, 1.7976931348623157e308, and the
    smallest above zero, 5e-324. *)
Definition largest : B64.float := S754_finite false 9007199254740991 971.

Definition smallest : B64.float := S754_finite false 1 (-1074).

(** A coarse logarithm to base 2, exact on the powers of two: the
    exponent of the number. *)
Definition exponent_log2 (x : B64.float) : B64.float :=
  match x with
  | S754_finite false m e => B64.of_Z (Z.log2 (Zpos m) + e)
  | S754_zero _ => S754_infinity true
  | S754_infinity false => S754_infinity false
  | _ => S754_nan
  end.

End Examples.

(** ** The API's side of a job (src/api/main.py, lines 141-208) *)

Module Api.

Local Open Scope string_scope.
Local Open Scope Z_scope.

(** A Redis hash: its fields and their values, each field once.  A
    value is the bytes stored, which are the UTF-8 bytes of the text
    written; [decode] gives the text back. *)
Definition hash := list (string * string).

Fixpoint hget (field : string) (h : hash) : option string :=
  match h with
  | [] => None
  | (f, v) :: h' => if String.eqb field f then Some v else hget field h'
  end.

(** [HSET key field value]: the field is replaced, or added. *)
Fixpoint hset_field (field value : string) (h : hash) : hash :=
  match h with
  | [] => [(field, value)]
  | (f, v) :: h' =>
      if String.eqb field f then (field, value) :: h'
      else (f, v) :: hset_field field value h'
  end.

(** The hashes of the server by key; a key that does not exist has the
    empty hash. *)
Definition redis := string -> hash.

Definition no_keys : redis := fun _ => [].

(** [redis_conn.hset(key, mapping=...)]: every field of the mapping is
    set, the other fields of the hash stay. *)
Definition hset (key : string) (mapping : list (string * string))
    (db : redis) : redis :=
  fun k =>
    if String.eqb k key then
      fold_left (fun h fv => hset_field (fst fv) (snd fv) h) mapping (db k)
    else db k.

Definition hgetall (key : string) (db : redis) : hash := db key.

(** *** What the worker sends (tasks.py) *)

Definition state_name (s : job_state) : string :=
  match s with
  | queued => "queued"
  | running => "running"
  | succeeded => "succeeded"
  | failed => "failed"
  end.

(** The dict of a write: the state, the progress as text
    ([str(progress)] in [set_progress], the literals ["0"] and ["100"]
    in the terminal writes) and the message when there is one. *)
Definition mapping_dict (m : mapping) : list (string * string) :=
  ([("state", state_name (state m)); ("progress", str (progress m))]
   ++ match message m with
      | Some msg => [("message", msg)]
      | None => []
      end)%list.

Definition send (c : hset_call) (db : redis) : redis :=
  hset (key c) (mapping_dict (fields c)) db.

Definition send_all (log : list hset_call) (db : redis) : redis :=
  fold_left (fun d c => send c d) log db.

(** *** [int] of a string *)

(** White space for [int()] on ASCII text: tab, newline, vertical tab,
    form feed, carriage return and space. *)
Definition is_int_space (c : ascii) : bool :=
  let n := nat_of_ascii c in ((9 <=? n) && (n <=? 13) || (n =? 32))%nat.

Fixpoint skip_int_spaces (s : string) : string :=
  match s with
  | String c s' => if is_int_space c then skip_int_spaces s' else s
  | EmptyString => s
  end.

(** The digits at the head of [s], single underscores allowed between
    them: their value, their number and what follows; nothing when an
    underscore follows another or comes last.  [after_underscore] tells
    that the character before was an underscore. *)
Fixpoint scan_digits (s : string) (after_underscore : bool) (acc digits : Z)
  : option (Z * Z * string) :=
  match s with
  | String c s' =>
      if is_digit c then
        scan_digits s' false (10 * acc + digit_value c) (digits + 1)
      else if Ascii.eqb c "_" then
        if after_underscore then None else scan_digits s' true acc digits
      else if after_underscore then None else Some (acc, digits, s)
  | EmptyString => if after_underscore then None else Some (acc, digits, s)
  end.

(** [int(s)] on ASCII text: white space around the number is dropped;
    the number is an optional sign and decimal digits, which single
    underscores may separate.  [None] stands for [ValueError].
    [max_str_digits] is the interpreter's limit on the number of digits
    ([sys.get_int_max_str_digits()], 4300 unless set otherwise, 0 for
    none); it applies above 640 digits. *)
Definition int_of_string (max_str_digits : Z) (s : string) : option Z :=
  let s := skip_int_spaces s in
  let '(negative, s) :=
    match s with
    | String "+" s' => (false, s')
    | String "-" s' => (true, s')
    | _ => (false, s)
    end in
  match s with
  | String "_" _ => None
  | _ =>
      match scan_digits s false 0 0 with
      | Some (n, digits, rest) =>
          if digits =? 0 then None
          else if negb (String.eqb (skip_int_spaces rest) "") then None
          else if (640 <? digits) && (0 <? max_str_digits)
                  && (max_str_digits <? digits)
          then None
          else Some (if negative then - n else n)
      | None => None
      end
  end.

(** *** The endpoints (main.py) *)

Inductive response (A : Type) :=
  | Served (a : A)
  | HttpError (status : Z) (detail : string).

Arguments Served {A} a.
Arguments HttpError {A} status detail.

(** One call of [q.enqueue]. *)
Record enqueued := Enqueue {
  func : string;
  args : list string;
  rq_job_id : string;
  job_timeout : Z
}.

(** [separate], lines 141-166.  [udir_exists] is [udir.exists()],
    [originals] is [udir.glob("original.*")] and [uuid] is the
    [str(uuid.uuid4())] drawn.  The result is the response, the store
    and the calls put on the queue. *)
Definition separate (udir_exists : bool) (originals : list string)
    (uuid : string) (project_id : string) (db : redis)
  : response string * redis * list enqueued :=
  if negb udir_exists then (HttpError 404 "Project not found", db, [])
  else
    match originals with
    | [] => (HttpError 400 "No uploaded audio found", db, [])
    | _ :: _ =>
        let job_id := uuid in
        (Served job_id,
         hset (job_key job_id)
           [("state", "queued"); ("progress", "0");
            ("message", "Separation queued"); ("project_id", project_id)] db,
         [Enqueue "tasks.separate_with_demucs" [project_id; job_id]
            job_id 3600])
    end.

(** [transcribe], lines 169-194.  [sdir_exists] is [sdir.exists()] and
    [stem_exists] is [stem_path.exists()]. *)
Definition transcribe (sdir_exists stem_exists : bool) (uuid : string)
    (project_id stem_name instrument : string) (db : redis)
  : response string * redis * list enqueued :=
  if negb sdir_exists then (HttpError 404 "Project not found", db, [])
  else if negb stem_exists then
    (HttpError 400 ("Stem not found: " ++ stem_name), db, [])
  else
    let job_id := uuid in
    (Served job_id,
     hset (job_key job_id)
       [("state", "queued"); ("progress", "0");
        ("message", "Transcription queued (" ++ stem_name ++ ")");
        ("project_id", project_id)] db,
     [Enqueue "tasks.transcribe_monophonic"
        [project_id; job_id; stem_name; instrument] job_id 3600]).

(** [JobStatusResponse]. *)
Record job_status := JobStatus {
  status_job_id : string;
  status_state : string;
  status_progress : Z;
  status_message : option string
}.

Definition get_default (field default : string) (h : hash) : string :=
  match hget field h with
  | Some v => v
  | None => default
  end.

(** [get_job_status], lines 197-208.  [None] stands for the
    [ValueError] of [int], which the server answers with status 500. *)
Definition get_job_status (max_str_digits : Z) (db : redis)
    (job_id : string) : option job_status :=
  let data := hgetall (job_key job_id) db in
  match data with
  | [] => Some (JobStatus job_id "not_found" 0 (Some "Job not found"))
  | _ :: _ =>
      match int_of_string max_str_digits (get_default "progress" "0" data) with
      | Some progress =>
          Some (JobStatus job_id (get_default "state" "unknown" data)
                  progress (hget "message" data))
      | None => None
      end
  end.

(** What the endpoint reports for a record of the worker. *)
Definition report (job_id : string) (m : mapping) : job_status :=
  JobStatus job_id (state_name (state m)) (progress m) (message m).

(** *** Serving a stem (main.py, lines 244-279) *)

(** What follows the prefix [p] in [s], when [s] starts with it. *)
Fixpoint strip_prefix (p s : string) : option string :=
  match p, s with
  | EmptyString, _ => Some s
  | String a p', String b s' =>
      if Ascii.eqb a b then strip_prefix p' s' else None
  | String _ _, EmptyString => None
  end.

(** [re.match] of the range pattern on the header: the prefix
    [bytes=], a group of digits, a dash and a second group of digits;
    the result is the texts of the two groups.  The pattern is anchored
    at the start only; a group takes all the digits there are (it may
    be empty), and a digit is never the dash, so the greedy choice is
    the only one that can match. *)
Definition range_groups (header : string) : option (string * string) :=
  match strip_prefix "bytes=" header with
  | Some s =>
      let '(start_s, r) := span_digits s in
      match r with
      | String "-" r' => Some (start_s, fst (span_digits r'))
      | _ => None
      end
  | None => None
  end.

(** What [get_stem_file] returns: the whole file ([FileResponse]), or
    a part of it with status 206, of which the model keeps the numbers
    of the headers [Content-Range] ([start], [stop], [file_size]) and
    [Content-Length], and the body. *)
Inductive stem_response :=
  | FileResponse
  | PartialContent (start stop file_size content_length : Z)
      (data : list Byte.byte).

(** [get_stem_file], lines 244-279.  [file] is the content of the
    regular file at the path, [None] when nothing exists there (the
    size of the file is the length of its content); [range_header] is
    [request.headers.get("range")].  [None] as a result stands for the
    [ValueError] of [int]. *)
Definition get_stem_file (max_str_digits : Z) (file : option (list Byte.byte))
    (range_header : option string) : option (response stem_response) :=
  match file with
  | None => Some (HttpError 404 "File not found")
  | Some content =>
      let file_size := Z.of_nat (List.length content) in
      match range_header with
      | None | Some EmptyString => Some (Served FileResponse)
      | Some header =>
          match range_groups header with
          | None => Some (Served FileResponse)
          | Some (start_s, end_s) =>
              match (if String.eqb start_s "" then Some 0
                     else int_of_string max_str_digits start_s) with
              | None => None
              | Some start =>
                  match (if String.eqb end_s "" then
                           Some (Z.min (start + 1024 * 1024 - 1) (file_size - 1))
                         else int_of_string max_str_digits end_s) with
                  | None => None
                  | Some stop =>
                      let start := Z.max 0 (Z.min start (file_size - 1)) in
                      let stop := Z.max start (Z.min stop (file_size - 1)) in
                      let chunk_size := stop - start + 1 in
                      let data :=
                        firstn (Z.to_nat chunk_size)
                          (skipn (Z.to_nat start) content) in
                      Some (Served (PartialContent start stop file_size
                                      chunk_size data))
                  end
              end
          end
      end
  end.

(** The part of a file from the byte [start] to the byte [stop], as
    [get_stem_file] answers it. *)
Definition part (content : list Byte.byte) (start stop : Z) : stem_response :=
  PartialContent start stop (Z.of_nat (List.length content))
    (stop - start + 1)
    (firstn (Z.to_nat (stop - start + 1)) (skipn (Z.to_nat start) content)).

(** A bound of a range as the header gives it: a number, or nothing. *)
Definition bound_ok (o : option Z) : Prop :=
  match o with
  | Some n => 0 <= n /\ (String.length (str n) <= 640)%nat
  | None => True
  end.

Definition bound_text (o : option Z) : string :=
  match o with
  | Some n => str n
  | None => ""
  end.

End Api.

(** ** Descriptions used by the further properties *)

Module Stream.

Local Open Scope Z_scope.

(** The progress values of a list of writes, in order. *)
Definition progresses (l : list hset_call) : list Z :=
  map (fun c => progress (fields c)) l.

(** No value of the list equals the one before it, [last] being the
    value before the first. *)
Fixpoint changes (last : Z) (l : list Z) : Prop :=
  match l with
  | [] => True
  | x :: l' => x <> last /\ changes x l'
  end.

(** Every value of the list is above the one before it, [last] being
    the value before the first. *)
Fixpoint increasing (last : Z) (l : list Z) : Prop :=
  match l with
  | [] => True
  | x :: l' => last < x /\ increasing x l'
  end.

(** The percentages read from the lines, up to the first line on which
    the conversion raises. *)
Fixpoint percentages (lines : list string) : list Z :=
  match lines with
  | [] => []
  | line :: rest =>
      match line_pct line with
      | Ok (Some pct) => pct :: percentages rest
      | Ok None => percentages rest
      | Raise _ => []
      end
  end.

Definition no_digit (c : ascii) : bool := negb (is_digit c).

(** The message written with a progress update. *)
Definition separating (pct : Z) : string :=
  ("Separating… " ++ str pct ++ "%")%string.

End Stream.

(** The shape of a task's writes. *)
Module Runs.

Local Open Scope string_scope.

Definition is_running (c : hset_call) : bool :=
  match state (fields c) with
  | running => true
  | _ => false
  end.

Definition is_terminal (c : hset_call) : bool :=
  match state (fields c) with
  | succeeded | failed => true
  | _ => false
  end.

(** The fields of the last write of a run. *)
Definition final (l : list hset_call) : option mapping :=
  match rev l with
  | [] => None
  | c :: _ => Some (fields c)
  end.

(** The progress values that [transcribe_monophonic] reports while it
    runs, in the order of its steps. *)
Definition transcription_steps : list Z := [1; 5; 15; 35; 55; 75]%Z.

(** The exception raised inside the [try] block of
    [separate_with_demucs] (lines 75-103), if any: by [Popen], by the
    loop over the lines, or by the end of the stream and [wait]. *)
Definition tool_exception (w : Separation.world) (job_id : string)
  : option string :=
  match Separation.popen w with
  | Raise e => Some e
  | Ok _ =>
      match Task.result (translate_lines job_id (-1) (Separation.lines w)) with
      | Raise e => Some e
      | Ok _ =>
          match Separation.wait w with
          | Raise e => Some e
          | Ok _ => None
          end
      end
  end.

(** The separation has what it needs to succeed: an upload, a tool that
    runs to the exit code 0, a stem folder and stems that can be
    copied. *)
Definition separation_can_succeed (w : Separation.world) (job_id : string)
  : Prop :=
  Separation.originals w <> []
  /\ tool_exception w job_id = None
  /\ Separation.wait w = Ok 0%Z
  /\ exists d k, find_stem_folder (Separation.tmp_tree w) = Some d
                 /\ copy_stems d = Ok k.

(** The transcription has what it needs to succeed: the stem, every
    step returning, and at least one note. *)
Definition transcription_can_succeed (w : Transcriber.world) : Prop :=
  Transcriber.stem_exists w = Ok true
  /\ Transcriber.mkdir w = Ok tt
  /\ Transcriber.load w = Ok tt
  /\ (exists midi_frame,
        Transcriber.frames w = Ok midi_frame
        /\ Transcriber.build_notes (Transcriber.smooth midi_frame) <> [])
  /\ Transcriber.write_midi w = Ok tt
  /\ Transcriber.write_musicxml w = Ok tt.

(** A write of the worker to the record of a job: under the job's key,
    with a progress from 0 to 100 and with a message. *)
Definition complete_write (job_id : string) (c : hset_call) : Prop :=
  key c = job_key job_id
  /\ (0 <= progress (fields c) <= 100)%Z
  /\ message (fields c) <> None.

End Runs.

(** Descriptions of the search for the stem folder. *)
Module StemSearch.

(** Some path below the node, at any depth, has this name. *)
Fixpoint has_named (name : string) (n : node) : bool :=
  match n with
  | File => false
  | Dir es =>
      existsb (named name) es
      || (fix any (l : list entry) : bool :=
            match l with
            | [] => false
            | Entry _ child :: l' => has_named name child || any l'
            end) es
  end.

(** [d] is the first of the folders of [l] with the highest score. *)
Definition first_best (l : list folder) (d : folder) : Prop :=
  exists l1 l2,
    l = (l1 ++ d :: l2)%list
    /\ Forall (fun d' => (score d' < score d)%nat) l1
    /\ Forall (fun d' => (score d' <= score d)%nat) l2.

(** The stems of the folder are regular files. *)
Definition regular_stems (d : folder) : Prop :=
  forall name n, In name expected -> lookup d name = Some n -> n = File.

End StemSearch.

(** Descriptions of frame sequences. *)
Module Frames.

Local Open Scope Z_scope.

(** A frame is unvoiced, or its note lies between two bounds. *)
Definition within (lo hi v : Z) : Prop := v < 0 \/ lo <= v <= hi.

(** A steady note [v] with one frame [x] in it, [a] frames from the
    start and [b] frames from the end. *)
Definition spike (v x : Z) (a b : nat) : list Z :=
  (repeat v a ++ x :: repeat v b)%list.

(** The number of frames of a span. *)
Definition frames_of (s : Transcriber.span) : nat :=
  (Transcriber.last_frame s - Transcriber.first_frame s + 1)%nat.

(** Spans that make a note on the frame grid of the transcriber:
    voiced, and six frames or more. *)
Definition makes_note (s : Transcriber.span) : bool :=
  Transcriber.voiced s && (6 <=? frames_of s)%nat.

End Frames.

(** * Properties *)

(** ** The progress translator *)

Section ProgressFacts.

Local Open Scope string_scope.
Local Open Scope Z_scope.

Lemma clamp_range n lo hi : lo <= hi -> lo <= clamp n lo hi <= hi.
Proof. unfold clamp. lia. Qed.

Lemma scale_table : scale_table_ok = true.
Proof. vm_compute. reflexivity. Qed.

Lemma scale_exact pct :
  0 <= pct <= 100 -> scale pct = Ok (5 + (80 * pct) / 100).
Proof.
  intros H.
  pose proof scale_table as T. unfold scale_table_ok in T.
  rewrite forallb_forall in T.
  specialize (T (Z.to_nat pct)).
  rewrite Z2Nat.id in T by lia.
  assert (I : In (Z.to_nat pct) (seq 0 101)) by (apply in_seq; lia).
  specialize (T I).
  destruct (scale pct) as [s|e]; [|discriminate].
  apply Z.eqb_eq in T. now subst.
Qed.

Lemma scaled_of_pct_exact pct :
  scaled_of_pct pct
  = Ok (clamp pct 0 100, 5 + (80 * clamp pct 0 100) / 100).
Proof.
  unfold scaled_of_pct.
  rewrite scale_exact by (apply clamp_range; lia).
  reflexivity.
Qed.

Lemma scaled_of_pct_range pct p s :
  scaled_of_pct pct = Ok (p, s) -> 0 <= p <= 100 /\ 5 <= s <= 85.
Proof.
  intros E. rewrite scaled_of_pct_exact in E.
  assert (Hp : clamp pct 0 100 = p) by congruence.
  assert (Hs : 5 + (80 * clamp pct 0 100) / 100 = s) by congruence.
  clear E. subst p s.
  pose proof (clamp_range pct 0 100 ltac:(lia)) as C.
  set (c := clamp pct 0 100) in *.
  split; [exact C|].
  pose proof (Z.div_pos (80 * c) 100 ltac:(lia) ltac:(lia)).
  pose proof (Z.div_le_upper_bound (80 * c) 100 80 ltac:(lia) ltac:(lia)).
  lia.
Qed.

Lemma Qle_bool_0_make n d : Qle_bool 0 (n # d) = (0 <=? n).
Proof. unfold Qle_bool. simpl. now rewrite Z.mul_1_r. Qed.

(** [int(f)] is the integer part of the value of [f], cut toward zero. *)
Lemma to_int_truncates f t :
  B64.to_int f = Ok t ->
  exists v, B64.value f = Some v
            /\ t = (if Qle_bool 0 v then Qfloor v else Qceiling v).
Proof.
  destruct f as [s|s| |s m e]; try discriminate.
  - intros [= <-]. exists 0%Q. split; reflexivity.
  - unfold B64.to_int, B64.value. intros [= <-].
    eexists. split; [reflexivity|].
    assert (P : forall k, 0 <= k -> 0 < 2 ^ k)
      by (intros; apply Z.pow_pos_nonneg; lia).
    destruct e as [|p|p].
    + rewrite Z.shiftl_0_r. change (2 ^ 0) with 1. rewrite Z.mul_1_r.
      unfold inject_Z. rewrite Qle_bool_0_make.
      destruct s; cbn [Z.leb Z.compare]; unfold Qceiling, Qfloor;
        cbn [Qopp Qnum Qden Z.opp]; rewrite Z.div_1_r; reflexivity.
    + rewrite Z.shiftl_mul_pow2 by lia.
      unfold inject_Z. rewrite Qle_bool_0_make.
      specialize (P (Z.pos p) ltac:(lia)).
      destruct s.
      * replace (0 <=? Z.neg m * 2 ^ Z.pos p) with false
          by (symmetry; apply Z.leb_gt; lia).
        unfold Qceiling, Qfloor. cbn [Qopp Qnum Qden].
        rewrite Z.div_1_r. lia.
      * replace (0 <=? Z.pos m * 2 ^ Z.pos p) with true
          by (symmetry; apply Z.leb_le; lia).
        unfold Qfloor. rewrite Z.div_1_r. reflexivity.
    + rewrite Z.shiftr_div_pow2 by lia.
      rewrite Qle_bool_0_make.
      destruct s; cbn [Z.leb Z.compare]; unfold Qceiling, Qfloor;
        cbn [Qopp Qnum Qden Z.opp]; rewrite Pos2Z.inj_pow; reflexivity.
Qed.

(** C5. For every numerator and every denominator greater than zero
    matched by the fractional pattern, the value scaled into the
    sub-range lies in [5, 85]; the only other way the path can end is
    the exception of [int()] on an infinite or undefined product, and
    then no value is produced. *)
Theorem frac_scaled_in_range (x total : B64.float) :
  B64.ltb (S754_zero false) total = true ->
  (exists s, frac_scaled x total = Ok (Some s) /\ 5 <= s <= 85)
  \/ (exists e,
        B64.to_int (B64.mul (B64.div x total) (B64.of_Z 100)) = Raise e
        /\ frac_scaled x total = Raise e).
Proof.
  intros Hpos. unfold frac_scaled, frac_pct. rewrite Hpos.
  destruct (B64.to_int (B64.mul (B64.div x total) (B64.of_Z 100)))
    as [pct|e]; cbn [Outcome.bind].
  - left. rewrite scaled_of_pct_exact. cbn [Outcome.bind snd].
    eexists. split; [reflexivity|].
    pose proof (scaled_of_pct_range pct _ _ (scaled_of_pct_exact pct)). lia.
  - right. exists e. split; reflexivity.
Qed.

Lemma frac_scaled_in_range_witness :
  B64.ltb (S754_zero false) (B64.of_Z 3) = true
  /\ ((exists s, frac_scaled (B64.of_Z 2) (B64.of_Z 3) = Ok (Some s)
                 /\ 5 <= s <= 85)
      \/ (exists e,
            B64.to_int (B64.mul (B64.div (B64.of_Z 2) (B64.of_Z 3))
                          (B64.of_Z 100)) = Raise e
            /\ frac_scaled (B64.of_Z 2) (B64.of_Z 3) = Raise e)).
Proof.
  split; [reflexivity|].
  apply (frac_scaled_in_range (B64.of_Z 2) (B64.of_Z 3)). reflexivity.
Defined.

(** C6, as stated, fails: for the matched text [2/3] the code computes
    66 where rounding to nearest gives 67, and for the percentage 66 it
    emits 57 where [lo + round(pct/100 * (hi-lo))] is 58. *)
Lemma frac_pct_not_rounded :
  frac_pct (B64.of_Z 2) (B64.of_Z 3) = Ok (Some 66)
  /\ spec_frac_pct (B64.of_Z 2) (B64.of_Z 3) = Ok (Some 67)
  /\ scale 66 = Ok 57
  /\ spec_scale 5 85 66 = Ok 58
  /\ frac_pct (B64.of_Z 2) (B64.of_Z 3)
     <> spec_frac_pct (B64.of_Z 2) (B64.of_Z 3)
  /\ scale 66 <> spec_scale 5 85 66.
Proof. repeat split; try reflexivity; vm_compute; discriminate. Qed.

(** C6, amended. On the fractional path the percentage is the binary64
    product [(current / total) * 100] cut toward zero, and the value
    emitted for the clamped percentage [p] is [5 + floor(80 * p / 100)]:
    both conversions truncate, and the sub-range is fixed at [5, 85]. *)
Theorem frac_path_truncates (x total : B64.float) (pct : Z) :
  frac_pct x total = Ok (Some pct) ->
  (exists v,
      B64.value (B64.mul (B64.div x total) (B64.of_Z 100)) = Some v
      /\ pct = (if Qle_bool 0 v then Qfloor v else Qceiling v))
  /\ scaled_of_pct pct
     = Ok (clamp pct 0 100, 5 + (80 * clamp pct 0 100) / 100).
Proof.
  unfold frac_pct. intros H. split; [|apply scaled_of_pct_exact].
  destruct (B64.ltb (S754_zero false) total); [|discriminate].
  destruct (B64.to_int (B64.mul (B64.div x total) (B64.of_Z 100)))
    as [t|e] eqn:E; cbn [Outcome.bind] in H; [|discriminate].
  assert (t = pct) by congruence. subst t.
  apply to_int_truncates. exact E.
Qed.

Lemma frac_path_truncates_witness :
  frac_pct (B64.of_Z 2) (B64.of_Z 3) = Ok (Some 66)
  /\ ((exists v,
          B64.value (B64.mul (B64.div (B64.of_Z 2) (B64.of_Z 3))
                       (B64.of_Z 100)) = Some v
          /\ 66 = (if Qle_bool 0 v then Qfloor v else Qceiling v))
      /\ scaled_of_pct 66
         = Ok (clamp 66 0 100, 5 + (80 * clamp 66 0 100) / 100)).
Proof.
  split; [reflexivity|].
  apply (frac_path_truncates (B64.of_Z 2) (B64.of_Z 3) 66). reflexivity.
Defined.

(** *** The leading percentage pattern *)

Lemma digit_not_space c : is_digit c = true -> is_space c = false.
Proof.
  unfold is_digit, is_space. intros H.
  apply andb_true_iff in H. destruct H as [H1 H2].
  apply Nat.leb_le in H1.
  apply orb_false_iff. split; apply andb_false_iff.
  - right. apply Nat.leb_gt. lia.
  - right. apply Nat.leb_gt. lia.
Qed.

Lemma skip_spaces_app ws s :
  all_chars is_space ws = true ->
  skip_spaces s = s ->
  skip_spaces (ws ++ s) = s.
Proof.
  intros Hws Hs. induction ws as [|c ws IH]; [exact Hs|].
  unfold all_chars in Hws. cbn in Hws. apply andb_true_iff in Hws.
  destruct Hws as [Hc Hws]. cbn. rewrite Hc. apply IH. exact Hws.
Qed.

Lemma skip_spaces_digit c s : is_digit c = true -> skip_spaces (String c s) = String c s.
Proof. intros H. cbn. now rewrite (digit_not_space c H). Qed.

Lemma take_digits_app n ds s :
  all_chars is_digit ds = true ->
  (String.length ds <= n)%nat ->
  (forall c s', s = String c s' -> is_digit c = false) ->
  take_digits n (ds ++ s) = (ds, s).
Proof.
  revert ds. induction n as [|n IH]; intros ds Hd Hl Hs.
  - destruct ds; [|cbn in Hl; lia]. reflexivity.
  - destruct ds as [|c ds].
    + cbn. destruct s as [|c s']; [reflexivity|].
      now rewrite (Hs c s' eq_refl).
    + unfold all_chars in Hd. cbn in Hd. apply andb_true_iff in Hd.
      destruct Hd as [Hc Hd]. cbn. rewrite Hc.
      rewrite IH; [reflexivity|exact Hd|cbn in Hl; lia|exact Hs].
Qed.

(** C7, as stated, fails: a line that is just a number and a percent
    sign is not matched by the leading pattern (the pattern also wants
    the bar that follows the percent sign), and gives no percentage. *)
Lemma pct_needs_bar :
  RE_TQDM_PCT_match "65%" = None /\ line_pct "65%" = Ok None
  /\ RE_TQDM_PCT_match " 65%" = None /\ line_pct " 65%" = Ok None.
Proof. repeat split; reflexivity. Qed.

Lemma all_chars_cons p c s :
  all_chars p (String c s) = p c && all_chars p s.
Proof. reflexivity. Qed.

Lemma skip_spaces_split line :
  exists ws, line = ws ++ skip_spaces line /\ all_chars is_space ws = true.
Proof.
  induction line as [|c line [ws [E H]]].
  - now exists "".
  - cbn [skip_spaces]. destruct (is_space c) eqn:Hc.
    + exists (String c ws). split.
      * cbn. now rewrite <- E.
      * rewrite all_chars_cons, Hc, H. reflexivity.
    + now exists "".
Qed.

Lemma take_digits_split n s ds r :
  take_digits n s = (ds, r) ->
  s = ds ++ r /\ all_chars is_digit ds = true /\ (String.length ds <= n)%nat.
Proof.
  revert s ds r. induction n as [|n IH]; intros s ds r.
  - cbn. intros [= <- <-]. repeat split. cbn. lia.
  - destruct s as [|c s]; cbn [take_digits].
    + intros [= <- <-]. repeat split. cbn. lia.
    + destruct (is_digit c) eqn:Hc.
      * destruct (take_digits n s) as [ds' r'] eqn:E.
        intros [= <- <-]. destruct (IH _ _ _ E) as [-> [Hd Hl]].
        split; [reflexivity|]. split.
        -- rewrite all_chars_cons, Hc, Hd. reflexivity.
        -- cbn. lia.
      * intros [= <- <-]. repeat split. cbn. lia.
Qed.

(** C7, amended. For every line that starts with optional ASCII white
    space, one to three ASCII digits, a percent sign and a vertical
    bar, whatever follows, the leading pattern matches and the digits,
    read as an integer, are the percentage; and among the lines of
    ASCII text the pattern matches no other line. *)
Theorem pct_marker_matches :
  (forall ws ds rest,
      all_chars is_space ws = true ->
      all_chars is_digit ds = true ->
      (1 <= String.length ds <= 3)%nat ->
      RE_TQDM_PCT_match (ws ++ ds ++ "%|" ++ rest) = Some ds
      /\ line_pct (ws ++ ds ++ "%|" ++ rest) = Ok (Some (int_of_digits ds)))
  /\ (forall line ds,
        all_chars is_ascii line = true ->
        RE_TQDM_PCT_match line = Some ds ->
        exists ws rest,
          line = ws ++ ds ++ "%|" ++ rest
          /\ all_chars is_space ws = true
          /\ all_chars is_digit ds = true
          /\ (1 <= String.length ds <= 3)%nat).
Proof.
  split.
  - intros ws ds rest Hws Hds Hlen.
    assert (M : RE_TQDM_PCT_match (ws ++ ds ++ "%|" ++ rest) = Some ds).
    { unfold RE_TQDM_PCT_match.
      rewrite skip_spaces_app; [|exact Hws|].
      - rewrite take_digits_app; [|exact Hds|lia|].
        + destruct ds as [|c ds]; [cbn in Hlen; lia|]. reflexivity.
        + intros c s' E. cbn in E. injection E as <- _. reflexivity.
      - destruct ds as [|c ds]; [cbn in Hlen; lia|].
        rewrite all_chars_cons in Hds. apply andb_true_iff in Hds.
        apply skip_spaces_digit. tauto. }
    split; [exact M|]. unfold line_pct. now rewrite M.
  - intros line ds _. unfold RE_TQDM_PCT_match.
    destruct (skip_spaces_split line) as [ws [E Hws]].
    destruct (take_digits 3 (skip_spaces line)) as [ds' r] eqn:T.
    destruct (take_digits_split _ _ _ _ T) as [E' [Hd Hl]].
    destruct ds' as [|c ds']; [discriminate|].
    destruct r as [|c1 [|c2 rest]]; try discriminate;
      try (destruct c1 as [[] [] [] [] [] [] [] []]; discriminate).
    destruct (ascii_dec c1 "%") as [->|N1];
      [|destruct c1 as [[] [] [] [] [] [] [] []]; try discriminate;
        now contradiction N1].
    destruct (ascii_dec c2 "|") as [->|N2];
      [|destruct c2 as [[] [] [] [] [] [] [] []]; try discriminate;
        now contradiction N2].
    intros [= <-]. exists ws, rest.
    split; [rewrite E at 1; now rewrite E'|].
    split; [exact Hws|]. split; [exact Hd|]. cbn in *. lia.
Qed.

Lemma pct_marker_matches_witness :
  all_chars is_space " " = true
  /\ all_chars is_digit "65" = true
  /\ (1 <= String.length "65" <= 3)%nat
  /\ RE_TQDM_PCT_match (" " ++ "65" ++ "%|" ++ "####") = Some "65"
  /\ line_pct (" " ++ "65" ++ "%|" ++ "####") = Ok (Some (int_of_digits "65")).
Proof.
  split; [reflexivity|]. split; [reflexivity|]. split; [cbn; lia|].
  apply (proj1 pct_marker_matches " " "65" "####");
    [reflexivity|reflexivity|cbn; lia].
Defined.

End ProgressFacts.

(** ** The stem folder *)


Section StemFolder.

Local Open Scope string_scope.

(** Every directory that [rglob] reports has an entry of that name. *)
Lemma rglob_parents_named name n :
  forall path d, In d (rglob_parents name path n) -> exists_in d name = true.
Proof.
  induction n as [|es IH] using node_tree_ind; intros path d Hin.
  - destruct Hin.
  - cbn [rglob_parents] in Hin. apply in_app_or in Hin.
    destruct Hin as [Hin|Hin].
    + apply in_map_iff in Hin. destruct Hin as [e [<- He]].
      apply filter_In in He. destruct He as [He Hn].
      unfold exists_in. cbn [snd]. apply existsb_exists. eauto.
    + induction es as [|[nm child] es IHes]; [destruct Hin|].
      apply in_app_or in Hin. inversion IH as [|? ? Hc Hes]; subst.
      destruct Hin as [Hin|Hin].
      * exact (Hc _ _ Hin).
      * exact (IHes Hes Hin).
Qed.

Lemma insert_desc_In c x l : In x (insert_desc c l) -> x = c \/ In x l.
Proof.
  induction l as [|c' l IH]; simpl.
  - intros H. destruct H as [H|H]; [now left|destruct H].
  - destruct (fst c' <=? fst c)%nat; simpl.
    + intros H. destruct H as [H|H]; [now left|now right].
    + intros H. destruct H as [H|H]; [right; now left|].
      destruct (IH H); [now left|right; now right].
Qed.

Lemma sort_desc_In x l : In x (sort_desc l) -> In x l.
Proof.
  induction l as [|c l IH]; simpl; [tauto|].
  intros H. destruct (insert_desc_In _ _ _ H); [now left|right; auto].
Qed.

Lemma find_stem_folder_In tmp_out d :
  find_stem_folder tmp_out = Some d ->
  In d (rglob_parents "bass.wav" [] tmp_out).
Proof.
  unfold find_stem_folder.
  destruct (sort_desc _) as [|c l] eqn:E; [discriminate|].
  intros [= <-].
  assert (H : In c (sort_desc (map (fun d => (score d, d))
                                 (rglob_parents "bass.wav" [] tmp_out))))
    by (rewrite E; now left).
  apply sort_desc_In in H. apply in_map_iff in H.
  destruct H as [d [<- H]]. exact H.
Qed.

Lemma exists_in_lookup d name :
  exists_in d name = true -> exists n, lookup d name = Some n.
Proof.
  unfold exists_in, lookup. intros H.
  destruct (find (named name) (snd d)) as [e|] eqn:E.
  - now exists (enode e).
  - apply existsb_exists in H. destruct H as [e [He Hn]].
    pose proof (find_none _ _ E e He). congruence.
Qed.

Lemma copy_loop_mono d names copied k :
  copy_loop d names copied = Ok k -> (copied <= k)%nat.
Proof.
  revert copied. induction names as [|name rest IH]; intros copied; cbn.
  - intros [= <-]. lia.
  - destruct (lookup d name) as [[|es]|]; cbn.
    + intros H. apply IH in H. lia.
    + discriminate.
    + apply IH.
Qed.

Lemma copy_loop_cons d name rest copied :
  copy_loop d (name :: rest) copied
  = match lookup d name with
    | Some n =>
        Outcome.bind (copyfile n) (fun _ => copy_loop d rest (copied + 1))
    | None => copy_loop d rest copied
    end.
Proof. reflexivity. Qed.

Lemma copy_stems_positive d k :
  exists_in d "bass.wav" = true -> copy_stems d = Ok k -> (1 <= k)%nat.
Proof.
  intros H. apply exists_in_lookup in H. destruct H as [n Hn].
  unfold copy_stems, expected. rewrite copy_loop_cons, Hn.
  destruct n; unfold copyfile, Outcome.bind; [|discriminate].
  intros E. apply copy_loop_mono in E. lia.
Qed.


Lemma task_bind_writes {A B} (m : Task.task A) (f : A -> Task.task B)
    (Q : hset_call -> Prop) :
  Forall Q (Task.writes m) ->
  (forall a, Task.result m = Ok a -> Forall Q (Task.writes (f a))) ->
  Forall Q (Task.writes (Task.bind m f)).
Proof.
  destruct m as [l [a|e]]; unfold Task.bind, Task.writes, Task.result;
    cbn [fst snd]; intros Hm Hf; [|exact Hm].
  specialize (Hf a eq_refl). destruct (f a) as [l2 r]. cbn [fst] in *.
  apply Forall_app. now split.
Qed.

Lemma task_lift_writes {A} (o : outcome A) (Q : hset_call -> Prop) :
  Forall Q (Task.writes (Task.lift o)).
Proof. constructor. Qed.

Lemma task_ret_writes {A} (a : A) (Q : hset_call -> Prop) :
  Forall Q (Task.writes (Task.ret a)).
Proof. constructor. Qed.

Lemma task_write_writes (c : hset_call) (Q : hset_call -> Prop) :
  Q c -> Forall Q (Task.writes (Task.write c)).
Proof. intros H. constructor; [exact H|constructor]. Qed.

Lemma task_try_writes {A} (m : Task.task A) (h : string -> Task.task A)
    (Q : hset_call -> Prop) :
  Forall Q (Task.writes m) ->
  (forall e, Task.result m = Raise e -> Forall Q (Task.writes (h e))) ->
  Forall Q (Task.writes (Task.try_except m h)).
Proof.
  destruct m as [l [a|e]]; unfold Task.try_except, Task.writes, Task.result;
    cbn [fst snd]; intros Hm Hh; [exact Hm|].
  specialize (Hh e eq_refl). destruct (h e) as [l2 r]. cbn [fst] in *.
  apply Forall_app. now split.
Qed.

Lemma translate_line_writes job_id last line :
  Forall (progress_update job_id)
    (Task.writes (translate_line job_id last line)).
Proof.
  unfold translate_line.
  apply task_bind_writes; [apply task_lift_writes|].
  intros [pct|] _; [|apply task_ret_writes].
  apply task_bind_writes; [apply task_lift_writes|].
  intros [p s] E. cbn [Task.result Task.lift snd] in E.
  destruct (negb _); [|apply task_ret_writes].
  apply task_bind_writes; [|intros; apply task_ret_writes].
  apply task_write_writes.
  eexists _, _. split; [reflexivity|].
  apply (scaled_of_pct_range pct p s E).
Qed.

Lemma translate_lines_writes job_id last lines :
  Forall (progress_update job_id)
    (Task.writes (translate_lines job_id last lines)).
Proof.
  revert last. induction lines as [|line rest IH]; intros last; cbn.
  - constructor.
  - apply task_bind_writes; [apply translate_line_writes|].
    intros s _. apply IH.
Qed.





End StemFolder.

(** ** The job record *)

Section JobFacts.

Local Open Scope string_scope.
Local Open Scope Z_scope.

Lemma set_progress_ok job_id p m :
  0 <= p <= 100 -> write_ok (set_progress job_id p m).
Proof.
  intros H. unfold write_ok, set_progress. cbn.
  split; [exact H|]. split; discriminate.
Qed.

Lemma progress_update_ok job_id c : progress_update job_id c -> write_ok c.
Proof. intros [s [m [-> H]]]. apply set_progress_ok. lia. Qed.

Lemma separation_fail_ok job_id m : write_ok (Separation.fail job_id m).
Proof. unfold write_ok. cbn. repeat split; try lia; discriminate. Qed.

Lemma separation_succeed_ok job_id m : write_ok (Separation.succeed job_id m).
Proof. unfold write_ok. cbn. repeat split; try lia; discriminate. Qed.

Lemma transcriber_fail_ok job_id m : write_ok (Transcriber.fail job_id m).
Proof. unfold write_ok. cbn. repeat split; try lia; discriminate. Qed.

Lemma transcriber_succeed_ok job_id m :
  write_ok (Transcriber.succeed job_id m).
Proof. unfold write_ok. cbn. repeat split; try lia; discriminate. Qed.

Lemma separation_writes_ok (w : Separation.world) job_id :
  Forall write_ok (Task.writes (Separation.separate_with_demucs w job_id)).
Proof.
  unfold Separation.separate_with_demucs.
  apply task_bind_writes;
    [apply task_write_writes, set_progress_ok; lia|]. intros _ _.
  destruct (Separation.originals w);
    [apply task_write_writes, separation_fail_ok|].
  apply task_bind_writes;
    [apply task_write_writes, set_progress_ok; lia|]. intros _ _.
  apply task_bind_writes.
  - unfold Separation.run_tool. apply task_try_writes.
    + apply task_bind_writes; [apply task_lift_writes|]. intros _ _.
      apply task_bind_writes.
      * eapply Forall_impl; [|apply translate_lines_writes].
        apply progress_update_ok.
      * intros _ _.
        apply task_bind_writes; [apply task_lift_writes|]. intros rc _.
        apply task_ret_writes.
    + intros e _.
      apply task_bind_writes; [|intros; apply task_ret_writes].
      apply task_write_writes, separation_fail_ok.
  - intros [rc|] _; [|apply task_ret_writes].
    destruct (negb _); [apply task_write_writes, separation_fail_ok|].
    unfold Separation.collect.
    apply task_bind_writes;
      [apply task_write_writes, set_progress_ok; lia|]. intros _ _.
    destruct (find_stem_folder (Separation.tmp_tree w)) as [d|];
      [|apply task_write_writes, separation_fail_ok].
    apply task_bind_writes; [apply task_lift_writes|]. intros k _.
    destruct (k =? 0)%nat;
      [apply task_write_writes, separation_fail_ok
      |apply task_write_writes, separation_succeed_ok].
Qed.

Lemma transcription_writes_ok (w : Transcriber.world) job_id stem_name :
  Forall write_ok
    (Task.writes (Transcriber.transcribe_monophonic w job_id stem_name)).
Proof.
  unfold Transcriber.transcribe_monophonic. apply task_try_writes.
  - unfold Transcriber.body.
    apply task_bind_writes;
      [apply task_write_writes, set_progress_ok; lia|]. intros _ _.
    apply task_bind_writes; [apply task_lift_writes|]. intros present _.
    destruct (negb present);
      [apply task_write_writes, transcriber_fail_ok|].
    apply task_bind_writes; [apply task_lift_writes|]. intros _ _.
    apply task_bind_writes;
      [apply task_write_writes, set_progress_ok; lia|]. intros _ _.
    apply task_bind_writes; [apply task_lift_writes|]. intros _ _.
    apply task_bind_writes;
      [apply task_write_writes, set_progress_ok; lia|]. intros _ _.
    apply task_bind_writes; [apply task_lift_writes|]. intros fr _.
    apply task_bind_writes;
      [apply task_write_writes, set_progress_ok; lia|]. intros _ _.
    destruct (Transcriber.build_notes _);
      [apply task_write_writes, transcriber_fail_ok|].
    apply task_bind_writes;
      [apply task_write_writes, set_progress_ok; lia|]. intros _ _.
    apply task_bind_writes; [apply task_lift_writes|]. intros _ _.
    apply task_bind_writes;
      [apply task_write_writes, set_progress_ok; lia|]. intros _ _.
    apply task_bind_writes; [apply task_lift_writes|]. intros _ _.
    apply task_write_writes, transcriber_succeed_ok.
  - intros e _.
    apply task_bind_writes; [|intros; constructor].
    apply task_write_writes, transcriber_fail_ok.
Qed.

Lemma hset_ok c st : write_ok c -> store_ok st -> store_ok (hset c st).
Proof.
  intros Hc Hst k r. unfold hset.
  destruct (String.eqb k (key c)); [|apply Hst].
  intros [= <-]. exact Hc.
Qed.

Lemma run_writes_ok log st :
  Forall write_ok log -> store_ok st -> store_ok (run_writes log st).
Proof.
  unfold run_writes. revert st.
  induction log as [|c log IH]; intros st Hl Hst; [exact Hst|].
  inversion Hl; subst. cbn [fold_left]. apply IH; [assumption|].
  now apply hset_ok.
Qed.

Lemma Forall_firstn {A} (Q : A -> Prop) n l :
  Forall Q l -> Forall Q (firstn n l).
Proof.
  intros H. rewrite <- (firstn_skipn n l) in H.
  apply Forall_app in H. tauto.
Qed.

(** C8. Every write of [separate_with_demucs] and of
    [transcribe_monophonic] to the job record keeps the progress within
    [0, 100], writes 100 with the state succeeded and 0 with the state
    failed; so after any number of these writes every record of the
    store satisfies the invariant, if it did before. *)
Theorem job_writes_keep_invariant :
  (forall (w : Separation.world) job_id,
      Forall write_ok
        (Task.writes (Separation.separate_with_demucs w job_id)))
  /\ (forall (w : Transcriber.world) job_id stem_name,
        Forall write_ok
          (Task.writes
             (Transcriber.transcribe_monophonic w job_id stem_name)))
  /\ (forall (w : Separation.world) job_id n st,
        store_ok st ->
        store_ok
          (run_writes
             (firstn n (Task.writes
                          (Separation.separate_with_demucs w job_id))) st))
  /\ (forall (w : Transcriber.world) job_id stem_name n st,
        store_ok st ->
        store_ok
          (run_writes
             (firstn n (Task.writes
                          (Transcriber.transcribe_monophonic w job_id
                             stem_name))) st)).
Proof.
  split; [apply separation_writes_ok|].
  split; [apply transcription_writes_ok|].
  split.
  - intros w job_id n st Hst. apply run_writes_ok; [|exact Hst].
    apply Forall_firstn, separation_writes_ok.
  - intros w job_id stem_name n st Hst. apply run_writes_ok; [|exact Hst].
    apply Forall_firstn, transcription_writes_ok.
Qed.

Lemma job_writes_keep_invariant_witness :
  store_ok empty_store
  /\ store_ok
       (run_writes
          (firstn 3 (Task.writes
                       (Separation.separate_with_demucs
                          Examples.separation_run "job-1"))) empty_store).
Proof.
  assert (E : store_ok empty_store) by (intros k r; discriminate).
  split; [exact E|].
  apply (proj1 (proj2 (proj2 job_writes_keep_invariant))
           Examples.separation_run "job-1" 3%nat empty_store E).
Defined.

Lemma run_writes_last l k st s p m :
  run_writes (l ++ [Hset k (Mapping s p (Some m))]) st k
  = Some (Mapping s p (Some m)).
Proof.
  unfold run_writes. rewrite fold_left_app. cbn [fold_left].
  unfold hset. cbn [key fields state progress message].
  now rewrite String.eqb_refl.
Qed.

(** C9. When a step of the [try] block raises an exception [e], the
    task writes the record failed, progress 0, with the message
    "Transcription exception: e" as its last write, and ends by raising
    the same [e]; when no step raises, the task returns normally. *)
Theorem transcribe_reports_and_reraises (w : Transcriber.world)
    (job_id stem_name : string) (st : store) :
  let t := Transcriber.transcribe_monophonic w job_id stem_name in
  match Transcriber.first_exception w with
  | Some e =>
      let record :=
        Mapping failed 0 (Some ("Transcription exception: " ++ e)) in
      Task.result t = Raise e
      /\ (exists l, Task.writes t = app l [Hset (job_key job_id) record])
      /\ run_writes (Task.writes t) st (job_key job_id) = Some record
  | None => Task.result t = Ok tt
  end.
Proof.
  assert (L : forall (t : Task.task unit) e l,
             t = (app l [Transcriber.fail job_id
                           ("Transcription exception: " ++ e)],
                  Raise e) ->
             let record :=
               Mapping failed 0 (Some ("Transcription exception: " ++ e)) in
             Task.result t = Raise e
             /\ (exists l', Task.writes t
                            = app l' [Hset (job_key job_id) record])
             /\ run_writes (Task.writes t) st (job_key job_id) = Some record).
  { intros t e l ->. split; [reflexivity|]. split; [now exists l|].
    apply run_writes_last. }
  unfold Transcriber.first_exception, Transcriber.transcribe_monophonic,
    Transcriber.body.
  destruct w as [se mk ld fr wm wx]. cbn [Transcriber.stem_exists
    Transcriber.mkdir Transcriber.load Transcriber.frames
    Transcriber.write_midi Transcriber.write_musicxml].
  destruct se as [[|]|e]; [| reflexivity | eapply (L _ e [_]); reflexivity].
  destruct mk as [[]|e]; [| eapply (L _ e [_]); reflexivity].
  destruct ld as [[]|e]; [| eapply (L _ e [_; _]); reflexivity].
  destruct fr as [fr|e]; [| eapply (L _ e [_; _; _]); reflexivity].
  cbn [Task.bind Task.lift Task.write Task.try_except negb app].
  destruct (Transcriber.build_notes (Transcriber.smooth fr)) as [|n ns];
    [reflexivity|].
  destruct wm as [[]|e]; [| eapply (L _ e [_; _; _; _; _]); reflexivity].
  destruct wx as [[]|e]; [| eapply (L _ e [_; _; _; _; _; _]); reflexivity].
  reflexivity.
Qed.

(** Two sample runs: a separation that succeeds, and a transcription
    whose MIDI export raises. *)
Example separation_run_progress :
  map (fun c => (state (fields c), progress (fields c)))
    (Task.writes
       (Separation.separate_with_demucs Examples.separation_run "job-1"))
  = [(running, 1); (running, 5); (running, 13); (running, 57);
     (running, 85); (running, 90); (succeeded, 100)].
Proof. reflexivity. Qed.

Example transcription_run_reports :
  Task.result
    (Transcriber.transcribe_monophonic Examples.transcription_run "job-2"
       "bass.wav")
  = Raise "disk full"
  /\ run_writes
       (Task.writes
          (Transcriber.transcribe_monophonic Examples.transcription_run
             "job-2" "bass.wav"))
       empty_store (job_key "job-2")
     = Some (Mapping failed 0 (Some "Transcription exception: disk full")).
Proof. split; reflexivity. Qed.

End JobFacts.

(** ** Jitter smoothing *)

Section SmoothFacts.

Local Open Scope Z_scope.

Lemma length_set_nth i v a : List.length (Transcriber.set_nth i v a) = List.length a.
Proof.
  revert i. induction a as [|x a IH]; intros [|i]; cbn; try reflexivity.
  now rewrite IH.
Qed.

Lemma nth_set_nth_eq i v a :
  (i < List.length a)%nat -> nth i (Transcriber.set_nth i v a) 0 = v.
Proof.
  revert i. induction a as [|x a IH]; intros [|i] H; cbn in *; try lia.
  apply IH. lia.
Qed.

Lemma nth_set_nth_neq i j v a :
  i <> j -> nth j (Transcriber.set_nth i v a) 0 = nth j a 0.
Proof.
  revert i j. induction a as [|x a IH]; intros [|i] [|j] H; cbn;
    try reflexivity; try lia.
  apply IH. lia.
Qed.

Lemma slice_five a lo :
  (lo + 5 <= List.length a)%nat ->
  Transcriber.slice a lo (lo + 5)
  = [nth lo a 0; nth (lo + 1) a 0; nth (lo + 2) a 0; nth (lo + 3) a 0;
     nth (lo + 4) a 0].
Proof.
  unfold Transcriber.slice. replace (lo + 5 - lo)%nat with 5%nat by lia.
  revert a. induction lo as [|lo IH]; intros a H.
  - destruct a as [|x0 [|x1 [|x2 [|x3 [|x4 a]]]]]; cbn in H; try lia.
    reflexivity.
  - destruct a as [|x a]; cbn in H; [lia|].
    cbn [skipn Nat.add nth]. apply IH. lia.
Qed.

Lemma smooth_step_spec a i :
  (2 <= i)%nat -> (i + 3 <= List.length a)%nat ->
  List.length (Transcriber.smooth_step a i) = List.length a
  /\ nth i (Transcriber.smooth_step a i) 0
     = Transcriber.window_value
         [nth (i - 2) a 0; nth (i - 1) a 0; nth i a 0; nth (i + 1) a 0;
          nth (i + 2) a 0] (nth i a 0)
  /\ (forall j, j <> i -> nth j (Transcriber.smooth_step a i) 0 = nth j a 0).
Proof.
  intros H2 Hl. unfold Transcriber.smooth_step, Transcriber.window_value.
  replace (i + 3)%nat with (i - 2 + 5)%nat by lia.
  rewrite slice_five by lia.
  replace (i - 2 + 1)%nat with (i - 1)%nat by lia.
  replace (i - 2 + 2)%nat with i by lia.
  replace (i - 2 + 3)%nat with (i + 1)%nat by lia.
  replace (i - 2 + 4)%nat with (i + 2)%nat by lia.
  destruct (3 <=? _)%nat.
  - split; [apply length_set_nth|].
    split; [apply nth_set_nth_eq; lia|].
    intros j Hj. apply nth_set_nth_neq. lia.
  - repeat split; reflexivity.
Qed.

Lemma smooth_prefix midi_frame m :
  (m <= List.length midi_frame - 4)%nat ->
  Transcriber.smoothed_upto midi_frame
    (fold_left Transcriber.smooth_step (seq 2 m) midi_frame) (2 + m).
Proof.
  induction m as [|m IH]; intros Hm.
  - cbn [seq fold_left]. split; [reflexivity|].
    split; [reflexivity|]. intros j Hj. lia.
  - rewrite seq_S, fold_left_app. cbn [fold_left].
    destruct (IH ltac:(lia)) as [Hlen [Hout Hin]].
    set (a := fold_left Transcriber.smooth_step (seq 2 m) midi_frame) in *.
    destruct (smooth_step_spec a (2 + m) ltac:(lia) ltac:(lia))
      as [Slen [Sat Sother]].
    split; [congruence|]. split.
    + intros j Hj. rewrite Sother by lia. apply Hout. lia.
    + intros j Hj.
      destruct (Nat.eq_dec j (2 + m)) as [->|Hne].
      * rewrite Sat. rewrite !Sother by lia.
        rewrite (Hout (2 + m)%nat) by lia.
        rewrite (Hout (2 + m + 1)%nat) by lia.
        rewrite (Hout (2 + m + 2)%nat) by lia.
        reflexivity.
      * rewrite !Sother by lia. apply Hin. lia.
Qed.

(** C3, as stated, fails: on the frames 60 60 72 72 60 72 72 the loop
    stores 60 at frame 3, because frame 2 has been smoothed to 60 before
    frame 3 is read, where the median of the window 60 72 72 60 72 of
    the given sequence is 72. *)
Lemma smooth_reads_smoothed_frames :
  Transcriber.smooth Examples.jitter_frames = [60; 60; 60; 60; 60; 72; 72]
  /\ Transcriber.spec_smooth Examples.jitter_frames
     = [60; 60; 60; 72; 72; 72; 72]
  /\ nth 3 (Transcriber.smooth Examples.jitter_frames) 0
     <> nth 3 (Transcriber.spec_smooth Examples.jitter_frames) 0.
Proof. repeat split; try reflexivity. vm_compute. discriminate. Qed.

(** The median of an even number of values is cut to an integer: the
    window 60 61 -1 61 60 stores 60 where the median is 60.5. *)
Lemma smooth_cuts_even_median :
  Transcriber.smooth [60; 61; -1; 61; 60] = [60; 61; 60; 61; 60].
Proof. reflexivity. Qed.

(** C3, amended. The smoothing keeps the length and the first two and
    last two frames; every interior frame [i] becomes the window value
    of frames [i-2] and [i-1] as already smoothed and of frames [i],
    [i+1], [i+2] as given: the median of the non-negative values among
    the five, cut to an integer, when at least three are non-negative,
    and the given value of frame [i] otherwise. *)
Theorem smooth_in_place (midi_frame : list Z) (i : nat) :
  let out := Transcriber.smooth midi_frame in
  List.length out = List.length midi_frame
  /\ ((i < 2 \/ List.length midi_frame - 2 <= i)%nat ->
      nth i out 0 = nth i midi_frame 0)
  /\ ((2 <= i < List.length midi_frame - 2)%nat ->
      nth i out 0
      = Transcriber.window_value
          [nth (i - 2) out 0; nth (i - 1) out 0; nth i midi_frame 0;
           nth (i + 1) midi_frame 0; nth (i + 2) midi_frame 0]
          (nth i midi_frame 0)).
Proof.
  cbv zeta. unfold Transcriber.smooth.
  destruct (smooth_prefix midi_frame (List.length midi_frame - 4)
              (Nat.le_refl _)) as [Hlen [Hout Hin]].
  split; [exact Hlen|]. split.
  - intros Hi. apply Hout. lia.
  - intros Hi. apply Hin. lia.
Qed.

Lemma smooth_in_place_witness :
  let out := Transcriber.smooth Examples.jitter_frames in
  (2 <= 3 < List.length Examples.jitter_frames - 2)%nat
  /\ nth 3 out 0
     = Transcriber.window_value
         [nth (3 - 2) out 0; nth (3 - 1) out 0;
          nth 3 Examples.jitter_frames 0;
          nth (3 + 1) Examples.jitter_frames 0;
          nth (3 + 2) Examples.jitter_frames 0]
         (nth 3 Examples.jitter_frames 0).
Proof.
  cbv zeta. split; [cbn; lia|].
  apply (smooth_in_place Examples.jitter_frames 3). cbn. lia.
Defined.

Lemma length_smooth_step a k :
  List.length (Transcriber.smooth_step a k) = List.length a.
Proof.
  unfold Transcriber.smooth_step.
  destruct (_ <=? _)%nat; [apply length_set_nth|reflexivity].
Qed.

Lemma length_smooth midi_frame :
  List.length (Transcriber.smooth midi_frame) = List.length midi_frame.
Proof.
  unfold Transcriber.smooth.
  generalize (seq 2 (List.length midi_frame - 4)).
  intros ks. revert midi_frame.
  induction ks as [|k ks IH]; intros a; [reflexivity|].
  cbn [fold_left]. now rewrite IH, length_smooth_step.
Qed.

End SmoothFacts.

(** ** Segmentation *)

Section SegmentFacts.

Local Open Scope Z_scope.

Import Transcriber.

Lemma nth_repeat_app (v : Z) n rest k :
  (k < n)%nat -> nth k (repeat v n ++ rest) 0 = v.
Proof.
  revert k. induction n as [|n IH]; intros k H; [lia|].
  destruct k as [|k]; cbn; [reflexivity|]. apply IH. lia.
Qed.

Lemma nth_in_run pre (v : Z) n rest k :
  (k < n)%nat -> nth (List.length pre + k) (pre ++ repeat v n ++ rest) 0 = v.
Proof. intros H. rewrite app_nth2_plus. now apply nth_repeat_app. Qed.

Lemma nth_run_start pre (v : Z) n rest :
  (0 < n)%nat -> nth (List.length pre) (pre ++ repeat v n ++ rest) 0 = v.
Proof.
  intros H. rewrite <- (Nat.add_0_r (List.length pre)).
  now apply nth_in_run.
Qed.

Lemma nth_after_run pre (v : Z) n rest :
  nth (List.length pre + n) (pre ++ repeat v n ++ rest) 0 = nth 0 rest 0.
Proof.
  rewrite app_nth2_plus.
  rewrite <- (repeat_length v n) at 1. rewrite <- (Nat.add_0_r (List.length (repeat v n))).
  apply app_nth2_plus.
Qed.

Lemma length_run pre (v : Z) n rest :
  List.length (pre ++ repeat v n ++ rest)
  = (List.length pre + n + List.length rest)%nat.
Proof. rewrite !length_app, repeat_length. lia. Qed.

Lemma run_end_scan pre v n rest :
  stops v rest ->
  forall fuel k,
    (1 <= k <= n)%nat -> (n - k <= fuel)%nat ->
    run_end (pre ++ repeat v n ++ rest) v (List.length pre + k) fuel
    = (List.length pre + n)%nat.
Proof.
  intros Hstop. induction fuel as [|fuel IH]; intros k Hk Hf.
  - cbn. lia.
  - cbn [run_end]. rewrite length_run.
    destruct (Nat.eq_dec k n) as [->|Hne].
    + rewrite nth_after_run.
      destruct rest as [|x rest].
      * replace (_ <? _)%nat with false
          by (symmetry; apply Nat.ltb_ge; cbn; lia).
        reflexivity.
      * cbn [nth]. cbn in Hstop.
        replace (x =? v) with false by (symmetry; now apply Z.eqb_neq).
        now rewrite andb_false_r.
    + rewrite nth_in_run by lia.
      replace (_ <? _)%nat with true by (symmetry; apply Nat.ltb_lt; lia).
      rewrite Z.eqb_refl. cbn [andb].
      replace (List.length pre + k + 1)%nat with (List.length pre + (k + 1))%nat
        by lia.
      apply IH; lia.
Qed.

Lemma segment_loop_skip times min pre v n rest :
  v < 0 ->
  forall d k fuel acc,
    (k + d = n)%nat -> (d <= fuel)%nat ->
    segment_loop times min (pre ++ repeat v n ++ rest) fuel
      (List.length pre + k) acc
    = segment_loop times min (pre ++ repeat v n ++ rest) (fuel - d)
        (List.length pre + n) acc.
Proof.
  intros Hv. induction d as [|d IH]; intros k fuel acc Hk Hf.
  - replace k with n by lia. now rewrite Nat.sub_0_r.
  - destruct fuel as [|fuel]; [lia|].
    cbn [segment_loop]. rewrite length_run.
    replace (_ <=? _)%nat with false by (symmetry; apply Nat.leb_gt; lia).
    rewrite nth_in_run by lia.
    replace (v <? 0) with true by (symmetry; now apply Z.ltb_lt).
    replace (List.length pre + k + 1)%nat with (List.length pre + (k + 1))%nat
      by lia.
    rewrite IH by lia. reflexivity.
Qed.

Lemma stops_expand v n rs :
  maximal_runs ((v, n) :: rs) = true -> stops v (expand rs).
Proof.
  cbn [maximal_runs]. intros H.
  apply andb_true_iff in H. destruct H as [H Hrs].
  apply andb_true_iff in H. destruct H as [_ H].
  destruct rs as [|[v' n'] rs]; [exact I|].
  cbn [maximal_runs] in Hrs.
  apply andb_true_iff in Hrs. destruct Hrs as [Hrs _].
  apply andb_true_iff in Hrs. destruct Hrs as [Hn' _].
  apply Nat.ltb_lt in Hn'.
  destruct n' as [|n']; [lia|]. cbn.
  apply negb_true_iff, Z.eqb_neq in H. congruence.
Qed.

Lemma segment_loop_runs times min rs :
  forall pre fuel acc,
    maximal_runs rs = true ->
    (List.length (expand rs) <= fuel)%nat ->
    segment_loop times min (pre ++ expand rs) fuel (List.length pre) acc
    = (acc ++ filter (long_enough min)
               (map (candidate times)
                  (filter voiced (run_spans (List.length pre) rs))))%list.
Proof.
  induction rs as [|[v n] rs IH]; intros pre fuel acc Hmax Hfuel.
  - cbn [expand run_spans filter map]. rewrite !app_nil_r.
    destruct fuel; cbn [segment_loop]; [reflexivity|].
    now rewrite Nat.leb_refl.
  - pose proof (stops_expand v n rs Hmax) as Hstop.
    cbn [maximal_runs] in Hmax.
    apply andb_true_iff in Hmax. destruct Hmax as [Hmax Hrs].
    apply andb_true_iff in Hmax. destruct Hmax as [Hn _].
    apply Nat.ltb_lt in Hn.
    cbn [expand] in *. rewrite length_app, repeat_length in Hfuel.
    assert (Hpre : List.length (pre ++ repeat v n) = (List.length pre + n)%nat)
      by (rewrite length_app, repeat_length; reflexivity).
    cbn [run_spans filter]. unfold voiced at 1. cbn [fst].
    destruct (v <? 0) eqn:Hv.
    + apply Z.ltb_lt in Hv. cbn [negb].
      rewrite <- (Nat.add_0_r (List.length pre)) at 1.
      rewrite (segment_loop_skip times min pre v n (expand rs) Hv n 0)
        by lia.
      rewrite app_assoc, <- Hpre. rewrite IH by (auto; lia).
      reflexivity.
    + apply Z.ltb_ge in Hv. cbn [negb map filter].
      destruct fuel as [|fuel]; [lia|].
      cbn [segment_loop]. rewrite length_run.
      replace (_ <=? _)%nat with false by (symmetry; apply Nat.leb_gt; lia).
      rewrite !nth_run_start by lia.
      replace (v <? 0) with false by (symmetry; now apply Z.ltb_ge).
      rewrite (run_end_scan pre v n (expand rs) Hstop _ 1) by lia.
      unfold candidate, long_enough at 1. cbn [end_time start_time fst snd].
      rewrite app_assoc, <- Hpre.
      destruct (Qle_bool min _).
      * rewrite IH by (auto; lia). now rewrite <- app_assoc.
      * rewrite IH by (auto; lia). reflexivity.
Qed.

Lemma expand_runs_of l : expand (runs_of l) = l.
Proof.
  induction l as [|v l IH]; [reflexivity|].
  cbn [runs_of]. destruct (runs_of l) as [|[v' n] rs].
  - cbn in *. now rewrite <- IH.
  - destruct (v =? v') eqn:E.
    + apply Z.eqb_eq in E. subst v'. cbn in *. now rewrite IH.
    + cbn in *. now rewrite IH.
Qed.

Lemma maximal_runs_of l : maximal_runs (runs_of l) = true.
Proof.
  induction l as [|v l IH]; [reflexivity|].
  cbn [runs_of]. destruct (runs_of l) as [|[v' n] rs]; [reflexivity|].
  destruct (v =? v') eqn:E.
  - apply Z.eqb_eq in E. subst v'. cbn [maximal_runs] in *.
    apply andb_true_iff in IH. destruct IH as [IH Hrs].
    apply andb_true_iff in IH. destruct IH as [_ IH].
    rewrite IH, Hrs. reflexivity.
  - cbn [maximal_runs] in *. rewrite E. cbn [negb andb Nat.ltb Nat.leb].
    exact IH.
Qed.

Lemma segment_candidates times min midi_frame :
  segment times min midi_frame
  = filter (long_enough min) (candidates times midi_frame).
Proof.
  unfold segment, candidates.
  pose proof (segment_loop_runs times min (runs_of midi_frame) []
                (List.length midi_frame) [] (maximal_runs_of midi_frame)) as H.
  rewrite expand_runs_of in H. cbn [app List.length] in H.
  apply H. lia.
Qed.


(** *** Order of the notes *)



Lemma positive_runs v n rs :
  maximal_runs ((v, n) :: rs) = true -> (0 < n)%nat /\ maximal_runs rs = true.
Proof.
  cbn [maximal_runs]. intros H.
  apply andb_true_iff in H. destruct H as [H Hrs].
  apply andb_true_iff in H. destruct H as [Hn _].
  apply Nat.ltb_lt in Hn. now split.
Qed.



Lemma nth_map_seq {A} (f : nat -> A) n i d :
  (i < n)%nat -> nth i (map f (seq 0 n)) d = f i.
Proof.
  intros H.
  rewrite (nth_indep _ d (f 0%nat)) by (rewrite length_map, length_seq; lia).
  rewrite map_nth, seq_nth by lia. reflexivity.
Qed.

Lemma time_at_times_like n i :
  (i < n)%nat -> time_at (times_like n) i = Z.of_nat i * 256 # 22050.
Proof. intros H. unfold time_at, times_like. now rewrite nth_map_seq. Qed.

Lemma hop_times_like n :
  (1 < n)%nat ->
  hop (times_like n) = (5644800 # 486202500)%Q.
Proof.
  intros H. unfold hop.
  replace (_ <? _)%nat with true
    by (symmetry; apply Nat.ltb_lt;
        unfold times_like; rewrite length_map, length_seq; exact H).
  rewrite !time_at_times_like by lia. reflexivity.
Qed.

(** *** The loop on binary64 times *)




Lemma run_spans_last rs :
  forall start,
    maximal_runs rs = true ->
    Forall (fun s => (first_frame s <= last_frame s)%nat
                     /\ (last_frame s < start + List.length (expand rs))%nat)
      (run_spans start rs).
Proof.
  induction rs as [|[v n] rs IH]; intros start Hmax; [constructor|].
  destruct (positive_runs v n rs Hmax) as [Hn Hrs].
  cbn [run_spans expand]. rewrite length_app, repeat_length.
  constructor.
  - unfold first_frame, last_frame. cbn. lia.
  - eapply Forall_impl; [|apply (IH (start + n)%nat Hrs)].
    cbn beta. intros s [H1 H2]. lia.
Qed.



(** *** The frame times rise *)










End SegmentFacts.

(** ** Pitch conversion *)

Section PitchFacts.

Local Open Scope Z_scope.

Import Pitch.

Lemma Ok_inj {A} (a b : A) : Ok a = Ok b -> a = b.
Proof. congruence. Qed.

(** [round] gives an integer nearest to the value, the even one of the
    two when the value lies halfway. *)
Lemma round_int_nearest f n :
  B64.round_int f = Ok n ->
  exists v, B64.value f = Some v
            /\ (v - (1 # 2) <= inject_Z n <= v + (1 # 2))%Q
            /\ ((inject_Z n - v == 1 # 2 \/ v - inject_Z n == 1 # 2)%Q ->
                Z.even n = true).
Proof.
  destruct f as [s|s| |s m e]; try discriminate.
  - intros [= <-]. exists 0%Q. split; [reflexivity|].
    split; [split; discriminate|]. intros [H|H]; discriminate H.
  - unfold B64.round_int, B64.value. intros H.
    apply Ok_inj in H. subst n.
    eexists. split; [reflexivity|].
    destruct e as [|p|p].
    + rewrite Z.shiftl_0_r. change (2 ^ 0) with 1. rewrite Z.mul_1_r.
      unfold Qle, Qeq, Qminus, Qplus, Qopp, inject_Z. cbn [Qnum Qden].
      destruct s; (split; [lia|]); intros [H|H]; exfalso; cbn in H; lia.
    + rewrite Z.shiftl_mul_pow2 by lia.
      assert (P : 0 < 2 ^ Z.pos p) by (apply Z.pow_pos_nonneg; lia).
      set (k := 2 ^ Z.pos p) in *. clearbody k.
      unfold Qle, Qeq, Qminus, Qplus, Qopp, inject_Z. cbn [Qnum Qden].
      destruct s; split; lia.
    + cbv zeta.
      rewrite Z.shiftr_div_pow2 by lia.
      rewrite (Z.shiftl_mul_pow2 _ (Z.pos p)) by lia.
      rewrite (Z.shiftl_mul_pow2 1 (Z.pos p - 1)) by lia.
      rewrite Z.mul_1_l.
      assert (P : 2 ^ Z.pos p = 2 * 2 ^ (Z.pos p - 1)).
      { rewrite <- Z.pow_succ_r by lia. f_equal. lia. }
      assert (H0 : 0 < 2 ^ (Z.pos p - 1)) by (apply Z.pow_pos_nonneg; lia).
      pose proof (Z.div_mod (Z.pos m) (2 ^ Z.pos p) ltac:(lia)) as D.
      pose proof (Z.mod_pos_bound (Z.pos m) (2 ^ Z.pos p) ltac:(lia)) as B.
      unfold Qle, Qeq, Qminus, Qplus, Qopp, inject_Z. cbn [Qnum Qden].
      rewrite ?Pos2Z.inj_mul, ?Pos2Z.inj_pow.
      change (Z.pos 2) with 2. change (Z.pos 1) with 1.
      set (h := 2 ^ (Z.pos p - 1)) in *.
      set (q := Z.pos m / 2 ^ Z.pos p) in *.
      set (r := Z.pos m mod 2 ^ Z.pos p) in *.
      replace (Z.pos m - q * 2 ^ Z.pos p) with r by lia.
      rewrite P in *. clearbody h q r.
      change (Z.neg m) with (- Z.pos m).
      set (M := Z.pos m) in *. clearbody M.
      destruct (Z.compare_spec r h) as [C|C|C].
      * subst r.
        destruct (Z.even q) eqn:E.
        -- destruct s; (split; [nia|]); intros _;
             rewrite ?Z.even_opp; exact E.
        -- assert (E' : Z.even (q + 1) = true).
           { rewrite Z.add_1_r, Z.even_succ, <- Z.negb_even, E.
             reflexivity. }
           destruct s; (split; [nia|]); intros _;
             rewrite ?Z.even_opp; exact E'.
      * destruct s; (split; [nia|]); intros [H|H]; exfalso; nia.
      * destruct s; (split; [nia|]); intros [H|H]; exfalso; nia.
Qed.

(** C4, as stated, fails: the octave law does not hold for every
    representable positive frequency.  When [log2] returns the binary64
    numbers nearest to the exact logarithms, the frequency
    26.717128381724166 Hz gets the note 21 and its double the note 32,
    because 69 + 12 * log2(f / 440) comes out just above 20.5 for the
    one and as exactly 32.5, which rounds to the even 32, for the
    other.  The double of the largest binary64 number is infinite, and
    the smallest divided by 440 is zero: there [hz_to_midi] raises. *)
Lemma octave_law_fails :
  (forall log2,
      log2 (B64.div Examples.quarter_tone (B64.of_Z 440))
      = Examples.log2_quarter_tone ->
      log2 (B64.div (octave_up Examples.quarter_tone) (B64.of_Z 440))
      = Examples.log2_quarter_tone_up ->
      hz_to_midi log2 Examples.quarter_tone = Ok 21
      /\ hz_to_midi log2 (octave_up Examples.quarter_tone) = Ok 32
      /\ ~ spec_octave_law log2)
  /\ (forall log2,
        log2 (S754_infinity false) = S754_infinity false ->
        hz_to_midi log2 (octave_up Examples.largest)
        = Raise "cannot convert float infinity to integer"
        /\ ~ spec_octave_law log2)
  /\ (forall log2,
        log2 (S754_zero false) = S754_infinity true ->
        hz_to_midi log2 Examples.smallest
        = Raise "cannot convert float infinity to integer"
        /\ ~ spec_octave_law log2).
Proof.
  split; [|split].
  - intros log2 H1 H2.
    assert (A : hz_to_midi log2 Examples.quarter_tone = Ok 21)
      by (unfold hz_to_midi; rewrite H1; vm_compute; reflexivity).
    assert (B : hz_to_midi log2 (octave_up Examples.quarter_tone) = Ok 32)
      by (unfold hz_to_midi; rewrite H2; vm_compute; reflexivity).
    split; [exact A|]. split; [exact B|].
    intros L.
    destruct (L Examples.quarter_tone eq_refl eq_refl) as [n [E1 E2]].
    rewrite A in E1. rewrite B in E2.
    injection E1 as <-. discriminate E2.
  - intros log2 H.
    assert (A : hz_to_midi log2 (octave_up Examples.largest)
                = Raise "cannot convert float infinity to integer").
    { unfold hz_to_midi.
      replace (B64.div (octave_up Examples.largest) (B64.of_Z 440))
        with (S754_infinity false) by (vm_compute; reflexivity).
      rewrite H. vm_compute. reflexivity. }
    split; [exact A|]. intros L.
    destruct (L Examples.largest eq_refl eq_refl) as [n [_ E2]].
    rewrite A in E2. discriminate E2.
  - intros log2 H.
    assert (A : hz_to_midi log2 Examples.smallest
                = Raise "cannot convert float infinity to integer").
    { unfold hz_to_midi.
      replace (B64.div Examples.smallest (B64.of_Z 440))
        with (S754_zero false) by (vm_compute; reflexivity).
      rewrite H. vm_compute. reflexivity. }
    split; [exact A|]. intros L.
    destruct (L Examples.smallest eq_refl eq_refl) as [n [E1 _]].
    rewrite A in E1. discriminate E1.
Qed.

(** C4, amended. [hz_to_midi] rounds the binary64 value of
    69 + 12 * log2(hz / 440) to an integer nearest to it, the even one
    when the value lies halfway between two integers, and raises when
    the value is infinite or undefined.  With a [log2] that is exact at
    1, 2 and 1/2 it sends 440, 880 and 220 to 69, 81 and 57. *)
Theorem hz_to_midi_rounds (log2 : B64.float -> B64.float) :
  (log2 (B64.of_Z 1) = B64.of_Z 0 ->
   log2 (B64.of_Z 2) = B64.of_Z 1 ->
   log2 (B64.div (B64.of_Z 1) (B64.of_Z 2)) = B64.of_Z (-1) ->
   hz_to_midi log2 (B64.of_Z 440) = Ok 69
   /\ hz_to_midi log2 (B64.of_Z 880) = Ok 81
   /\ hz_to_midi log2 (B64.of_Z 220) = Ok 57)
  /\ (forall hz n,
        hz_to_midi log2 hz = Ok n ->
        exists v,
          B64.value (semitone_value log2 hz) = Some v
          /\ (v - (1 # 2) <= inject_Z n <= v + (1 # 2))%Q
          /\ ((inject_Z n - v == 1 # 2 \/ v - inject_Z n == 1 # 2)%Q ->
              Z.even n = true))
  /\ (forall hz,
        B64.is_finite (semitone_value log2 hz) = false ->
        exists e, hz_to_midi log2 hz = Raise e).
Proof.
  split; [|split].
  - intros H1 H2 H3. unfold hz_to_midi.
    replace (B64.div (B64.of_Z 440) (B64.of_Z 440)) with (B64.of_Z 1)
      by (vm_compute; reflexivity).
    replace (B64.div (B64.of_Z 880) (B64.of_Z 440)) with (B64.of_Z 2)
      by (vm_compute; reflexivity).
    replace (B64.div (B64.of_Z 220) (B64.of_Z 440))
      with (B64.div (B64.of_Z 1) (B64.of_Z 2))
      by (vm_compute; reflexivity).
    rewrite H1, H2, H3. repeat split; vm_compute; reflexivity.
  - intros hz n H. apply round_int_nearest. exact H.
  - intros hz H. unfold hz_to_midi. fold (semitone_value log2 hz).
    destruct (semitone_value log2 hz); try discriminate H;
      eexists; reflexivity.
Qed.

Lemma hz_to_midi_rounds_witness :
  Examples.exponent_log2 (B64.of_Z 1) = B64.of_Z 0
  /\ Examples.exponent_log2 (B64.of_Z 2) = B64.of_Z 1
  /\ Examples.exponent_log2 (B64.div (B64.of_Z 1) (B64.of_Z 2))
     = B64.of_Z (-1)
  /\ hz_to_midi Examples.exponent_log2 (B64.of_Z 440) = Ok 69
  /\ hz_to_midi Examples.exponent_log2 (B64.of_Z 880) = Ok 81
  /\ hz_to_midi Examples.exponent_log2 (B64.of_Z 220) = Ok 57.
Proof.
  assert (H1 : Examples.exponent_log2 (B64.of_Z 1) = B64.of_Z 0)
    by (vm_compute; reflexivity).
  assert (H2 : Examples.exponent_log2 (B64.of_Z 2) = B64.of_Z 1)
    by (vm_compute; reflexivity).
  assert (H3 : Examples.exponent_log2 (B64.div (B64.of_Z 1) (B64.of_Z 2))
               = B64.of_Z (-1))
    by (vm_compute; reflexivity).
  split; [exact H1|]. split; [exact H2|]. split; [exact H3|].
  exact (proj1 (hz_to_midi_rounds Examples.exponent_log2) H1 H2 H3).
Defined.

End PitchFacts.
(** * Further properties *)

(** ** The stream of progress updates *)

Section StreamFacts.

Local Open Scope string_scope.
Local Open Scope Z_scope.

Import Stream.

(** One line of the loop, case by case. *)
Lemma translate_line_eq job_id last line :
  translate_line job_id last line
  = match line_pct line with
    | Ok None => ([], Ok last)
    | Ok (Some pct) =>
        let p := clamp pct 0 100 in
        let s := 5 + (80 * p) / 100 in
        if s =? last then ([], Ok last)
        else ([set_progress job_id s (Some (separating p))], Ok s)
    | Raise e => ([], Raise e)
    end.
Proof.
  unfold translate_line.
  destruct (line_pct line) as [[pct|]|e]; try reflexivity.
  unfold Task.lift at 1. unfold Task.bind at 1. cbn [app].
  rewrite scaled_of_pct_exact.
  unfold Task.lift, Task.bind at 1. cbn [app]. cbv zeta.
  destruct (_ =? last); reflexivity.
Qed.

Lemma translate_lines_cons job_id last line rest :
  translate_lines job_id last (line :: rest)
  = match translate_line job_id last line with
    | (l1, Ok s) =>
        let '(l2, r) := translate_lines job_id s rest in ((l1 ++ l2)%list, r)
    | (l1, Raise e) => (l1, Raise e)
    end.
Proof. reflexivity. Qed.

Lemma last_cons (l : list Z) x d : List.last (x :: l) d = List.last l x.
Proof.
  revert x d. induction l as [|y l IH]; intros x d; [reflexivity|].
  change (List.last (y :: l) d = List.last (y :: l) x).
  now rewrite !IH.
Qed.

(** X1. The loop over the tool's lines never writes the same progress
    value twice in a row, nor the value it starts from, and the value
    it ends with is the last one written. *)
Theorem translate_lines_no_repeat (job_id : string) (last : Z)
    (lines : list string) :
  let t := translate_lines job_id last lines in
  changes last (progresses (Task.writes t))
  /\ (forall s, Task.result t = Ok s ->
                s = List.last (progresses (Task.writes t)) last).
Proof.
  cbv zeta. revert last. induction lines as [|line rest IH]; intros last.
  - split; [exact I|]. intros s [= <-]. reflexivity.
  - rewrite translate_lines_cons, translate_line_eq.
    destruct (line_pct line) as [[pct|]|e].
    + cbv zeta. set (s0 := 5 + 80 * clamp pct 0 100 / 100).
      destruct (s0 =? last) eqn:E.
      * specialize (IH last).
        destruct (translate_lines job_id last rest) as [l2 r]. exact IH.
      * apply Z.eqb_neq in E. specialize (IH s0).
        destruct (translate_lines job_id s0 rest) as [l2 r].
        unfold Task.writes, Task.result in *. cbn [fst snd app] in *.
        destruct IH as [IH1 IH2].
        split; [split; assumption|].
        intros s Hs. rewrite (IH2 s Hs).
        unfold progresses. cbn [map]. now rewrite last_cons.
    + specialize (IH last).
      destruct (translate_lines job_id last rest) as [l2 r]. exact IH.
    + split; [exact I|]. discriminate.
Qed.

Lemma scaled_monotone p q :
  p <= q -> 5 + (80 * clamp p 0 100) / 100 <= 5 + (80 * clamp q 0 100) / 100.
Proof.
  intros H. apply Z.add_le_mono_l. apply Z.div_le_mono; [lia|].
  unfold clamp. lia.
Qed.

Lemma translate_lines_increasing job_id lines :
  forall last,
    StronglySorted Z.le (percentages lines) ->
    (forall p, In p (percentages lines) ->
               last <= 5 + (80 * clamp p 0 100) / 100) ->
    increasing last
      (progresses (Task.writes (translate_lines job_id last lines))).
Proof.
  induction lines as [|line rest IH]; intros last Hs Hl; [exact I|].
  rewrite translate_lines_cons, translate_line_eq.
  cbn [percentages] in Hs, Hl.
  destruct (line_pct line) as [[pct|]|e].
  - cbv zeta. set (s0 := 5 + 80 * clamp pct 0 100 / 100) in *.
    inversion Hs as [|? ? Hs' Hall]; subst.
    rewrite Forall_forall in Hall.
    destruct (s0 =? last) eqn:E.
    + specialize (IH last Hs' (fun p Hp => Hl p (or_intror Hp))).
      destruct (translate_lines job_id last rest) as [l2 r]. exact IH.
    + apply Z.eqb_neq in E.
      assert (I0 : forall p, In p (percentages rest) ->
                             s0 <= 5 + 80 * clamp p 0 100 / 100)
        by (intros p Hp; apply scaled_monotone, Hall, Hp).
      specialize (IH s0 Hs' I0).
      destruct (translate_lines job_id s0 rest) as [l2 r].
      unfold Task.writes in *. cbn [fst app] in *.
      split; [|exact IH].
      pose proof (Hl pct (or_introl eq_refl)) as H. fold s0 in H.
      cbn [progress fields set_progress]. lia.
  - specialize (IH last Hs Hl).
    destruct (translate_lines job_id last rest) as [l2 r]. exact IH.
  - exact I.
Qed.

Lemma translate_lines_increasing_start job_id lines :
  Sorted Z.le (percentages lines) ->
  increasing (-1)
    (progresses (Task.writes (translate_lines job_id (-1) lines))).
Proof.
  intros H. apply translate_lines_increasing.
  - apply Sorted_StronglySorted; [|exact H].
    intros x y z. apply Z.le_trans.
  - intros p _.
    pose proof (clamp_range p 0 100 ltac:(lia)) as C.
    pose proof (Z.div_pos (80 * clamp p 0 100) 100 ltac:(lia) ltac:(lia)).
    lia.
Qed.

(** X2. The scaled value does not decrease when the percentage grows,
    stays at 5 up to 0 percent and at 85 from 100 percent on; so when
    the percentages read from the tool do not decrease, the progress
    values written by the loop, which starts from -1, strictly
    increase. *)
Theorem progress_follows_percentages :
  (forall p q, p <= q ->
      exists sp sq,
        scaled_of_pct p = Ok (clamp p 0 100, sp)
        /\ scaled_of_pct q = Ok (clamp q 0 100, sq) /\ sp <= sq)
  /\ (forall p, p <= 0 -> scaled_of_pct p = Ok (0, 5))
  /\ (forall p, 100 <= p -> scaled_of_pct p = Ok (100, 85))
  /\ (forall job_id lines,
        Sorted Z.le (percentages lines) ->
        increasing (-1)
          (progresses (Task.writes (translate_lines job_id (-1) lines)))).
Proof.
  split.
  { intros p q H. eexists _, _.
    split; [apply scaled_of_pct_exact|].
    split; [apply scaled_of_pct_exact|]. now apply scaled_monotone. }
  split.
  { intros p H. rewrite scaled_of_pct_exact.
    replace (clamp p 0 100) with 0 by (unfold clamp; lia). reflexivity. }
  split.
  { intros p H. rewrite scaled_of_pct_exact.
    replace (clamp p 0 100) with 100 by (unfold clamp; lia). reflexivity. }
  intros job_id lines H. now apply translate_lines_increasing_start.
Qed.

Lemma progress_follows_percentages_witness :
  Sorted Z.le (percentages [" 10%|#"; "152.1/234.0"; "nothing"; "100%|##"])
  /\ increasing (-1)
       (progresses
          (Task.writes
             (translate_lines "job-1" (-1)
                [" 10%|#"; "152.1/234.0"; "nothing"; "100%|##"]))).
Proof.
  assert (S : Sorted Z.le
                (percentages [" 10%|#"; "152.1/234.0"; "nothing"; "100%|##"])).
  { vm_compute. repeat constructor; discriminate. }
  split; [exact S|].
  apply (proj2 (proj2 (proj2 progress_follows_percentages)) "job-1"
           [" 10%|#"; "152.1/234.0"; "nothing"; "100%|##"] S).
Defined.

Lemma translate_lines_no_repeat_witness :
  Task.result (translate_lines "job-1" (-1) [" 10%|#"; "10%|##"; "100%|##"])
  = Ok 85
  /\ 85 = List.last
            (progresses
               (Task.writes
                  (translate_lines "job-1" (-1)
                     [" 10%|#"; "10%|##"; "100%|##"]))) (-1).
Proof.
  split; [reflexivity|].
  apply (proj2 (translate_lines_no_repeat "job-1" (-1)
                  [" 10%|#"; "10%|##"; "100%|##"]) 85).
  reflexivity.
Defined.

Lemma skip_spaces_keeps p s :
  all_chars p s = true -> all_chars p (skip_spaces s) = true.
Proof.
  induction s as [|c s IH]; [trivial|]. intros H.
  cbn [skip_spaces]. destruct (is_space c); [|exact H].
  rewrite all_chars_cons in H. apply andb_true_iff in H. apply IH. tauto.
Qed.

Lemma no_digit_head s :
  all_chars no_digit s = true ->
  match s with
  | String c _ => is_digit c = false
  | EmptyString => True
  end.
Proof.
  destruct s as [|c s]; [trivial|]. rewrite all_chars_cons.
  intros H. apply andb_true_iff in H. destruct H as [H _].
  now apply negb_true_iff in H.
Qed.

Lemma no_digit_no_frac s :
  all_chars no_digit s = true -> RE_TQDM_FRAC_search s = None.
Proof.
  induction s as [|c s IH]; intros H.
  - reflexivity.
  - pose proof (no_digit_head _ H) as Hc. cbn beta iota in Hc.
    cbn [RE_TQDM_FRAC_search]. unfold frac_at, number_prefix.
    cbn [span_digits]. rewrite Hc.
    rewrite all_chars_cons in H. apply andb_true_iff in H. apply IH. tauto.
Qed.

Lemma no_digit_no_pct s :
  all_chars no_digit s = true -> RE_TQDM_PCT_match s = None.
Proof.
  intros H. apply (skip_spaces_keeps no_digit) in H.
  unfold RE_TQDM_PCT_match.
  pose proof (no_digit_head _ H) as Hc.
  destruct (skip_spaces s) as [|c r]; [reflexivity|].
  cbn [take_digits]. now rewrite Hc.
Qed.

(** X8. A line of ASCII text without any digit gives no percentage:
    the loop writes nothing for it, keeps the last value and does not
    raise.  A fraction whose denominator is zero, however it is
    written, gives no percentage either: no division by zero takes
    place. *)
Theorem lines_without_progress :
  (forall job_id last line,
      all_chars is_ascii line = true ->
      all_chars no_digit line = true ->
      line_pct line = Ok None
      /\ translate_line job_id last line = ([], Ok last))
  /\ (forall numerator ip fp,
        int_of_digits (ip ++ fp) = 0 ->
        frac_pct (float_of_numeral numerator) (float_of_numeral (ip, fp))
        = Ok None).
Proof.
  split.
  - intros job_id last line _ H.
    assert (E : line_pct line = Ok None).
    { unfold line_pct. now rewrite no_digit_no_pct, no_digit_no_frac. }
    split; [exact E|]. now rewrite translate_line_eq, E.
  - intros numerator ip fp H. unfold float_of_numeral at 2. rewrite H.
    reflexivity.
Qed.

Lemma lines_without_progress_witness :
  all_chars is_ascii "Selected model is a bag of models." = true
  /\ all_chars no_digit "Selected model is a bag of models." = true
  /\ line_pct "Selected model is a bag of models." = Ok None
  /\ translate_line "job-1" 57 "Selected model is a bag of models."
     = ([], Ok 57).
Proof.
  split; [reflexivity|]. split; [reflexivity|].
  apply (proj1 lines_without_progress "job-1" 57
           "Selected model is a bag of models."); reflexivity.
Defined.

End StreamFacts.

(** ** The runs of the two tasks *)

Section RunFacts.

Local Open Scope string_scope.
Local Open Scope Z_scope.

Import Runs Stream.

Ltac task_simpl :=
  cbn [Task.bind Task.write Task.lift Task.ret Task.raise Task.try_except
       app fst snd].

(** The separation task, outcome by outcome of what it meets. *)
Lemma separate_with_demucs_eq (w : Separation.world) job_id :
  let p1 := set_progress job_id 1 (Some "Preparing Demucs...") in
  let p5 := set_progress job_id 5
              (Some ("Running Demucs (" ++ Separation.demucs_model w ++ ")...")) in
  let p90 := set_progress job_id 90 (Some "Collecting stems...") in
  let tl := translate_lines job_id (-1) (Separation.lines w) in
  Separation.separate_with_demucs w job_id
  = match Separation.originals w with
    | [] => ([p1; Separation.fail job_id "No uploaded audio"], Ok tt)
    | _ :: _ =>
        match Separation.popen w with
        | Raise e =>
            ([p1; p5; Separation.fail job_id ("Demucs exception: " ++ e)],
             Ok tt)
        | Ok _ =>
            match Task.result tl, Separation.wait w with
            | Raise e, _ | Ok _, Raise e =>
                (p1 :: p5 :: Task.writes tl
                 ++ [Separation.fail job_id ("Demucs exception: " ++ e)],
                 Ok tt)%list
            | Ok _, Ok rc =>
                if negb (rc =? 0) then
                  (p1 :: p5 :: Task.writes tl
                   ++ [Separation.fail job_id
                         "Demucs failed. Check worker logs."],
                   Ok tt)%list
                else
                  match find_stem_folder (Separation.tmp_tree w) with
                  | None =>
                      (p1 :: p5 :: Task.writes tl
                       ++ [p90;
                           Separation.fail job_id "No demucs output found"],
                       Ok tt)%list
                  | Some d =>
                      match copy_stems d with
                      | Raise e =>
                          (p1 :: p5 :: Task.writes tl ++ [p90], Raise e)%list
                      | Ok k =>
                          (p1 :: p5 :: Task.writes tl
                           ++ [p90;
                               if (k =? 0)%nat
                               then Separation.fail job_id "No stems copied"
                               else Separation.succeed job_id
                                      "Stems ready (Demucs)."],
                           Ok tt)%list
                      end
                  end
            end
        end
    end.
Proof.
  cbv zeta. unfold Separation.separate_with_demucs, Separation.run_tool,
    Separation.collect.
  destruct (Separation.originals w) as [|src rest]; [reflexivity|].
  destruct (Separation.popen w) as [[]|e]; [|reflexivity].
  destruct (translate_lines job_id (-1) (Separation.lines w)) as [l [s|e]];
    unfold Task.writes, Task.result; cbn [fst snd];
    [|task_simpl; rewrite ?app_nil_r; reflexivity].
  destruct (Separation.wait w) as [rc|e];
    [|task_simpl; rewrite ?app_nil_r; reflexivity].
  task_simpl.
  destruct (negb (rc =? 0)).
  { task_simpl. rewrite ?app_nil_r. reflexivity. }
  task_simpl.
  destruct (find_stem_folder (Separation.tmp_tree w)) as [d|].
  - destruct (copy_stems d) as [k|e]; task_simpl.
    + destruct (k =? 0)%nat; task_simpl; rewrite ?app_nil_r; reflexivity.
    + rewrite ?app_nil_r. reflexivity.
  - task_simpl. rewrite ?app_nil_r. reflexivity.
Qed.

(** The transcription task, outcome by outcome of what it meets. *)
Lemma transcribe_monophonic_eq (w : Transcriber.world) job_id stem_name :
  let p n m := set_progress job_id n (Some m) in
  let p1 := p 1 "Preparing transcription..." in
  let p5 := p 5 "Loading audio..." in
  let p15 := p 15 "Detecting pitch (pyin)..." in
  let p35 := p 35 "Building notes..." in
  let p55 := p 55 "Writing MIDI..." in
  let p75 := p 75 "Converting to MusicXML..." in
  let exc e := Transcriber.fail job_id ("Transcription exception: " ++ e) in
  Transcriber.transcribe_monophonic w job_id stem_name
  = match Transcriber.stem_exists w with
    | Raise e => ([p1; exc e], Raise e)
    | Ok false =>
        ([p1; Transcriber.fail job_id ("Stem not found: " ++ stem_name)],
         Ok tt)
    | Ok true =>
        match Transcriber.mkdir w, Transcriber.load w, Transcriber.frames w with
        | Raise e, _, _ => ([p1; exc e], Raise e)
        | Ok _, Raise e, _ => ([p1; p5; exc e], Raise e)
        | Ok _, Ok _, Raise e => ([p1; p5; p15; exc e], Raise e)
        | Ok _, Ok _, Ok midi_frame =>
            match Transcriber.build_notes (Transcriber.smooth midi_frame) with
            | [] =>
                ([p1; p5; p15; p35;
                  Transcriber.fail job_id
                    "No notes detected (try bass stem, or cleaner audio)."],
                 Ok tt)
            | _ :: _ =>
                match Transcriber.write_midi w, Transcriber.write_musicxml w with
                | Raise e, _ => ([p1; p5; p15; p35; p55; exc e], Raise e)
                | Ok _, Raise e =>
                    ([p1; p5; p15; p35; p55; p75; exc e], Raise e)
                | Ok _, Ok _ =>
                    ([p1; p5; p15; p35; p55; p75;
                      Transcriber.succeed job_id
                        "Transcription ready (MIDI + MusicXML)."],
                     Ok tt)
                end
            end
        end
    end.
Proof.
  cbv zeta. unfold Transcriber.transcribe_monophonic, Transcriber.body.
  destruct (Transcriber.stem_exists w) as [[|]|e]; try reflexivity.
  destruct (Transcriber.mkdir w) as [[]|e]; [|reflexivity].
  destruct (Transcriber.load w) as [[]|e]; [|reflexivity].
  destruct (Transcriber.frames w) as [fr|e]; [|reflexivity].
  task_simpl. cbn [negb].
  destruct (Transcriber.build_notes (Transcriber.smooth fr)); [reflexivity|].
  destruct (Transcriber.write_midi w) as [[]|e]; [|reflexivity].
  destruct (Transcriber.write_musicxml w) as [[]|e]; reflexivity.
Qed.

Lemma final_last l c : final (l ++ [c]) = Some (fields c).
Proof. unfold final. now rewrite rev_unit. Qed.

Lemma translator_writes_running job_id last lines :
  Forall (fun c => is_running c = true)
    (Task.writes (translate_lines job_id last lines)).
Proof.
  eapply Forall_impl; [|apply translate_lines_writes].
  intros c [s [m [-> _]]]. reflexivity.
Qed.

Ltac split_last L d :=
  exists (removelast L), (List.last L d).

(** X3. Every run of the transcription ends with exactly one write of a
    terminal state, its last; the writes before it are running, with
    the progress values 1, 5, 15, 35, 55, 75 in this order, as far as
    the run gets.  A run of the separation that returns ends in the
    same way; one that raises has only written running states. *)
Theorem runs_end_with_terminal_write :
  (forall (w : Transcriber.world) job_id stem_name,
      exists l c,
        Task.writes (Transcriber.transcribe_monophonic w job_id stem_name)
        = (l ++ [c])%list
        /\ Forall (fun c => is_running c = true) l
        /\ is_terminal c = true
        /\ exists k, Stream.progresses l = firstn k transcription_steps)
  /\ (forall (w : Separation.world) job_id,
        match Task.result (Separation.separate_with_demucs w job_id) with
        | Ok _ =>
            exists l c,
              Task.writes (Separation.separate_with_demucs w job_id)
              = (l ++ [c])%list
              /\ Forall (fun c => is_running c = true) l
              /\ is_terminal c = true
        | Raise _ =>
            Forall (fun c => is_running c = true)
              (Task.writes (Separation.separate_with_demucs w job_id))
        end).
Proof.
  split.
  - intros w job_id stem_name. rewrite transcribe_monophonic_eq. cbv zeta.
    destruct (Transcriber.stem_exists w) as [[|]|e];
      [destruct (Transcriber.mkdir w) as [[]|e];
       [destruct (Transcriber.load w) as [[]|e];
        [destruct (Transcriber.frames w) as [fr|e];
         [destruct (Transcriber.build_notes (Transcriber.smooth fr));
          [|destruct (Transcriber.write_midi w) as [[]|e];
            [destruct (Transcriber.write_musicxml w) as [[]|e]|]]|]|]|]|
      |];
      unfold Task.writes; cbn [fst];
      match goal with
      | |- exists l c, ?L = _ /\ _ =>
          split_last L (set_progress job_id 0 None)
      end;
      (split; [reflexivity|]);
      (split; [repeat constructor|]);
      (split; [reflexivity|]);
      first [ exists 1%nat; reflexivity | exists 2%nat; reflexivity
            | exists 3%nat; reflexivity | exists 4%nat; reflexivity
            | exists 5%nat; reflexivity | exists 6%nat; reflexivity ].
  - intros w job_id. rewrite separate_with_demucs_eq. cbv zeta.
    pose proof (translator_writes_running job_id (-1) (Separation.lines w))
      as R.
    set (tl := translate_lines job_id (-1) (Separation.lines w)) in *.
    set (p1 := set_progress job_id 1 _).
    set (p5 := set_progress job_id 5 _).
    set (p90 := set_progress job_id 90 _).
    assert (T : forall c,
               is_terminal c = true ->
               exists l c0,
                 (p1 :: p5 :: Task.writes tl ++ [c] = l ++ [c0])%list
                 /\ Forall (fun c => is_running c = true) l
                 /\ is_terminal c0 = true).
    { intros c Hc. exists (p1 :: p5 :: Task.writes tl), c.
      split; [reflexivity|]. split; [|exact Hc].
      repeat constructor. exact R. }
    assert (R90 : Forall (fun c => is_running c = true)
                    (p1 :: p5 :: Task.writes tl ++ [p90])%list).
    { constructor; [reflexivity|]. constructor; [reflexivity|].
      apply Forall_app. split; [exact R|]. repeat constructor. }
    assert (T90 : forall c,
               is_terminal c = true ->
               exists l c0,
                 (p1 :: p5 :: Task.writes tl ++ [p90; c] = l ++ [c0])%list
                 /\ Forall (fun c => is_running c = true) l
                 /\ is_terminal c0 = true).
    { intros c Hc. exists (p1 :: p5 :: Task.writes tl ++ [p90])%list, c.
      split; [cbn [app]; now rewrite <- app_assoc|]. now split. }
    destruct (Separation.originals w) as [|src rest].
    { unfold Task.result, Task.writes. cbn [fst snd].
      eexists [_], _. repeat split. repeat constructor. }
    destruct (Separation.popen w) as [[]|e].
    2:{ unfold Task.result, Task.writes. cbn [fst snd].
        eexists [_; _], _. repeat split. repeat constructor. }
    destruct (Task.result tl) as [s|e]; [|apply T; reflexivity].
    destruct (Separation.wait w) as [rc|e]; [|apply T; reflexivity].
    destruct (negb (rc =? 0)); [apply T; reflexivity|].
    destruct (find_stem_folder (Separation.tmp_tree w)) as [d|];
      [|apply T90; reflexivity].
    destruct (copy_stems d) as [k|e].
    + unfold Task.result, Task.writes. cbn [fst snd].
      apply T90. destruct (k =? 0)%nat; reflexivity.
    + exact R90.
Qed.

Lemma final_after2 a b l c :
  final (a :: b :: l ++ [c])%list = Some (fields c).
Proof. change (final ((a :: b :: l) ++ [c])%list = Some (fields c)). apply final_last. Qed.

Lemma final_after2_two a b l p c :
  final (a :: b :: l ++ [p; c])%list = Some (fields c).
Proof.
  change (final ((a :: b :: l) ++ [p; c])%list = Some (fields c)).
  change [p; c] with ([p] ++ [c])%list. rewrite app_assoc. apply final_last.
Qed.

(** X4. An exception raised while the separation tool is started, read
    or waited for never leaves [separate_with_demucs]: the task records
    the job as failed, progress 0, with the message "Demucs exception:"
    and the text, and returns.  An exception raised while a stem is
    copied is not caught: it leaves the task, and the record stays
    running at 90. *)
Theorem separation_absorbs_tool_exceptions (w : Separation.world)
    (job_id : string) :
  let t := Separation.separate_with_demucs w job_id in
  (forall e,
      Separation.originals w <> [] ->
      tool_exception w job_id = Some e ->
      Task.result t = Ok tt
      /\ final (Task.writes t)
         = Some (Mapping failed 0 (Some ("Demucs exception: " ++ e))))
  /\ (forall d e,
        Separation.originals w <> [] ->
        tool_exception w job_id = None ->
        Separation.wait w = Ok 0 ->
        find_stem_folder (Separation.tmp_tree w) = Some d ->
        copy_stems d = Raise e ->
        Task.result t = Raise e
        /\ final (Task.writes t)
           = Some (Mapping running 90 (Some "Collecting stems..."))).
Proof.
  cbv zeta. rewrite separate_with_demucs_eq. cbv zeta.
  unfold tool_exception.
  set (tl := translate_lines job_id (-1) (Separation.lines w)).
  destruct (Separation.originals w) as [|src rest].
  { split; [intros e H|intros d e H]; now contradiction H. }
  destruct (Separation.popen w) as [[]|e0].
  2:{ split; [|discriminate]. intros e _ [= ->]. split; reflexivity. }
  destruct (Task.result tl) as [s|e0].
  2:{ split; [|discriminate]. intros e _ [= ->].
      unfold Task.result, Task.writes. cbn [fst snd].
      split; [reflexivity|apply final_after2]. }
  destruct (Separation.wait w) as [rc|e0].
  2:{ split; [|discriminate]. intros e _ [= ->].
      unfold Task.result, Task.writes. cbn [fst snd].
      split; [reflexivity|apply final_after2]. }
  split; [discriminate|].
  intros d e _ _ [= ->] -> ->. cbn [Z.eqb negb].
  unfold Task.result, Task.writes. cbn [fst snd].
  split; [reflexivity|apply final_after2].
Qed.

Lemma separation_absorbs_tool_exceptions_witness :
  Separation.originals
    (Separation.World "htdemucs" ["original.mp3"] (Raise "demucs not found")
       [] (Ok 0) Examples.scratch) <> []
  /\ tool_exception
       (Separation.World "htdemucs" ["original.mp3"]
          (Raise "demucs not found") [] (Ok 0) Examples.scratch) "job-1"
     = Some "demucs not found"
  /\ Task.result
       (Separation.separate_with_demucs
          (Separation.World "htdemucs" ["original.mp3"]
             (Raise "demucs not found") [] (Ok 0) Examples.scratch) "job-1")
     = Ok tt
  /\ final
       (Task.writes
          (Separation.separate_with_demucs
             (Separation.World "htdemucs" ["original.mp3"]
                (Raise "demucs not found") [] (Ok 0) Examples.scratch)
             "job-1"))
     = Some (Mapping failed 0 (Some "Demucs exception: demucs not found")).
Proof.
  split; [discriminate|]. split; [reflexivity|].
  apply (proj1 (separation_absorbs_tool_exceptions
                  (Separation.World "htdemucs" ["original.mp3"]
                     (Raise "demucs not found") [] (Ok 0) Examples.scratch)
                  "job-1") "demucs not found");
    [discriminate|reflexivity].
Defined.

(** X5. The separation ends with the state succeeded exactly when it
    has an upload, the tool runs without exception to the exit code 0,
    a stem folder is found and its stems are copied.  Without an
    upload it writes the failure "No uploaded audio" and nothing after
    it; after another exit code it fails with "Demucs failed. Check
    worker logs."; without a stem folder it fails with "No demucs
    output found". *)
Theorem separation_outcomes (w : Separation.world) (job_id : string) :
  let t := Separation.separate_with_demucs w job_id in
  (option_map state (final (Task.writes t)) = Some succeeded
   <-> separation_can_succeed w job_id)
  /\ (Separation.originals w = [] ->
      t = ([set_progress job_id 1 (Some "Preparing Demucs...");
            Separation.fail job_id "No uploaded audio"], Ok tt))
  /\ (forall rc,
        Separation.originals w <> [] ->
        tool_exception w job_id = None ->
        Separation.wait w = Ok rc -> rc <> 0 ->
        Task.result t = Ok tt
        /\ final (Task.writes t)
           = Some (Mapping failed 0 (Some "Demucs failed. Check worker logs.")))
  /\ (Separation.originals w <> [] ->
      tool_exception w job_id = None ->
      Separation.wait w = Ok 0 ->
      find_stem_folder (Separation.tmp_tree w) = None ->
      Task.result t = Ok tt
      /\ final (Task.writes t)
         = Some (Mapping failed 0 (Some "No demucs output found"))).
Proof.
  cbv zeta. rewrite separate_with_demucs_eq. cbv zeta.
  unfold separation_can_succeed, tool_exception.
  set (tl := translate_lines job_id (-1) (Separation.lines w)).
  destruct (Separation.originals w) as [|src rest].
  { split; [|split; [reflexivity|split; [intros rc H|intros H];
                                  now contradiction H]].
    split; [discriminate|]. intros [H _]. now contradiction H. }
  destruct (Separation.popen w) as [[]|e0].
  2:{ split; [|split; [discriminate|split; [intros rc _|intros _];
                                    discriminate]].
      split; [discriminate|]. intros [_ [H _]]. discriminate. }
  destruct (Task.result tl) as [s|e0].
  2:{ unfold Task.writes. cbn [fst]. rewrite final_after2.
      split; [|split; [discriminate|split; [intros rc _|intros _];
                                    discriminate]].
      split; [discriminate|]. intros [_ [H _]]. discriminate. }
  destruct (Separation.wait w) as [rc|e0].
  2:{ unfold Task.writes. cbn [fst]. rewrite final_after2.
      split; [|split; [discriminate|split; [intros rc _|intros _];
                                    discriminate]].
      split; [discriminate|]. intros [_ [H _]]. discriminate. }
  destruct (negb (rc =? 0)) eqn:Hrc.
  { apply negb_true_iff, Z.eqb_neq in Hrc.
    unfold Task.writes, Task.result. cbn [fst snd]. rewrite final_after2.
    split; [|split; [discriminate|split]].
    - split; [discriminate|]. intros [_ [_ [H _]]]. congruence.
    - intros rc' _ _ _ _. split; reflexivity.
    - intros _ _ H. congruence. }
  apply negb_false_iff, Z.eqb_eq in Hrc. subst rc.
  destruct (find_stem_folder (Separation.tmp_tree w)) as [d|] eqn:F.
  - destruct (copy_stems d) as [k|e0] eqn:C.
    + unfold Task.writes, Task.result. cbn [fst snd].
      rewrite final_after2_two.
      pose proof (copy_stems_positive d k
                    (rglob_parents_named _ _ _ _ (find_stem_folder_In _ _ F))
                    C) as K.
      destruct k as [|k]; [lia|]. cbn [Nat.eqb].
      split; [|split; [discriminate|split;
                                    [intros rc _ _ [= <-] H; now contradiction H
                                    |intros _ _ _; discriminate]]].
      split; [intros _|reflexivity].
      split; [discriminate|]. split; [reflexivity|]. split; [reflexivity|].
      now exists d, (S k).
    + unfold Task.writes, Task.result. cbn [fst snd]. rewrite final_after2.
      split; [|split; [discriminate|split;
                                    [intros rc _ _ [= <-] H; now contradiction H
                                    |intros _ _ _; discriminate]]].
      split; [discriminate|].
      intros [_ [_ [_ [d' [k [[= <-] H]]]]]]. congruence.
  - unfold Task.writes, Task.result. cbn [fst snd]. rewrite final_after2_two.
    split; [|split; [discriminate|split;
                                  [intros rc _ _ [= <-] H; now contradiction H
                                  |intros _ _ _ _; split; reflexivity]]].
    split; [discriminate|].
    intros [_ [_ [_ [d' [k [H _]]]]]]. discriminate.
Qed.

Lemma separation_outcomes_witness :
  Separation.originals
    (Separation.World "htdemucs" [] (Ok tt) [] (Ok 0) Examples.scratch) = []
  /\ Separation.separate_with_demucs
       (Separation.World "htdemucs" [] (Ok tt) [] (Ok 0) Examples.scratch)
       "job-1"
     = ([set_progress "job-1" 1 (Some "Preparing Demucs...");
         Separation.fail "job-1" "No uploaded audio"], Ok tt).
Proof.
  split; [reflexivity|].
  apply (proj1 (proj2 (separation_outcomes
                         (Separation.World "htdemucs" [] (Ok tt) [] (Ok 0)
                            Examples.scratch) "job-1"))).
  reflexivity.
Defined.

(** X6. The transcription ends with the state succeeded exactly when
    the stem exists, every step returns and at least one note is built.
    When the stem is missing it writes the failure "Stem not found:"
    with the stem name, nothing after it, and returns; when no note is
    built it fails with "No notes detected" and returns. *)
Theorem transcription_outcomes (w : Transcriber.world)
    (job_id stem_name : string) :
  let t := Transcriber.transcribe_monophonic w job_id stem_name in
  (option_map state (final (Task.writes t)) = Some succeeded
   <-> transcription_can_succeed w)
  /\ (Transcriber.stem_exists w = Ok false ->
      t = ([set_progress job_id 1 (Some "Preparing transcription...");
            Transcriber.fail job_id ("Stem not found: " ++ stem_name)],
           Ok tt))
  /\ (forall midi_frame,
        Transcriber.stem_exists w = Ok true ->
        Transcriber.mkdir w = Ok tt ->
        Transcriber.load w = Ok tt ->
        Transcriber.frames w = Ok midi_frame ->
        Transcriber.build_notes (Transcriber.smooth midi_frame) = [] ->
        Task.result t = Ok tt
        /\ final (Task.writes t)
           = Some (Mapping failed 0
                     (Some "No notes detected (try bass stem, or cleaner audio)."))).
Proof.
  cbv zeta. rewrite transcribe_monophonic_eq. cbv zeta.
  unfold transcription_can_succeed.
  destruct (Transcriber.stem_exists w) as [[|]|e].
  2:{ split; [|split; [reflexivity|discriminate]].
      split; [discriminate|]. intros [H _]. discriminate. }
  2:{ split; [|split; discriminate].
      split; [discriminate|]. intros [H _]. discriminate. }
  destruct (Transcriber.mkdir w) as [[]|e].
  2:{ split; [|split; [discriminate|intros fr _ H; discriminate]].
      split; [discriminate|]. intros [_ [H _]]. discriminate. }
  destruct (Transcriber.load w) as [[]|e].
  2:{ split; [|split; [discriminate|intros fr _ _ H; discriminate]].
      split; [discriminate|]. intros [_ [_ [H _]]]. discriminate. }
  destruct (Transcriber.frames w) as [fr|e].
  2:{ split; [|split; [discriminate|intros fr _ _ _ H; discriminate]].
      split; [discriminate|]. intros [_ [_ [_ [[fr [H _]] _]]]].
      discriminate. }
  destruct (Transcriber.build_notes (Transcriber.smooth fr)) as [|n ns] eqn:B.
  { split; [|split; [discriminate|]].
    - split; [discriminate|].
      intros [_ [_ [_ [[fr' [[= <-] H]] _]]]]. now contradiction H.
    - intros fr' _ _ _ [= <-] _. split; reflexivity. }
  destruct (Transcriber.write_midi w) as [[]|e].
  2:{ split; [|split; [discriminate|]].
      - split; [discriminate|]. intros [_ [_ [_ [_ [H _]]]]]. discriminate.
      - intros fr' _ _ _ [= <-] H. congruence. }
  destruct (Transcriber.write_musicxml w) as [[]|e].
  2:{ split; [|split; [discriminate|]].
      - split; [discriminate|]. intros [_ [_ [_ [_ [_ H]]]]]. discriminate.
      - intros fr' _ _ _ [= <-] H. congruence. }
  split; [|split; [discriminate|]].
  - split; [intros _|reflexivity].
    repeat split. exists fr. split; [reflexivity|]. rewrite B. discriminate.
  - intros fr' _ _ _ [= <-] H. congruence.
Qed.

Lemma transcription_outcomes_witness :
  Transcriber.stem_exists
    (Transcriber.World (Ok false) (Ok tt) (Ok tt) (Ok []) (Ok tt) (Ok tt))
  = Ok false
  /\ Transcriber.transcribe_monophonic
       (Transcriber.World (Ok false) (Ok tt) (Ok tt) (Ok []) (Ok tt) (Ok tt))
       "job-2" "bass.wav"
     = ([set_progress "job-2" 1 (Some "Preparing transcription...");
         Transcriber.fail "job-2" ("Stem not found: " ++ "bass.wav")], Ok tt).
Proof.
  split; [reflexivity|].
  apply (proj1 (proj2 (transcription_outcomes
                         (Transcriber.World (Ok false) (Ok tt) (Ok tt) (Ok [])
                            (Ok tt) (Ok tt)) "job-2" "bass.wav"))).
  reflexivity.
Defined.

Lemma filter_all {A} (f : A -> bool) l :
  Forall (fun x => f x = true) l -> filter f l = l.
Proof.
  induction 1 as [|x l Hx Hl IH]; cbn; [reflexivity|].
  now rewrite Hx, IH.
Qed.

Lemma increasing_sorted l :
  forall last, increasing last l -> Sorted Z.le l.
Proof.
  induction l as [|x l IH]; intros last H; [constructor|].
  destruct H as [_ H]. constructor; [exact (IH x H)|].
  destruct l as [|y l]; constructor. destruct H as [H _]. lia.
Qed.

Lemma sorted_snoc_bound l b :
  Sorted Z.le l -> Forall (fun x => x <= b) l -> Sorted Z.le (l ++ [b]).
Proof.
  induction 1 as [|x l Hl IH Hx]; intros Hb; cbn.
  - repeat constructor.
  - inversion Hb as [|? ? Hxb Hlb]; subst.
    constructor; [apply IH, Hlb|].
    destruct l as [|y l]; cbn; constructor; [exact Hxb|].
    now inversion Hx.
Qed.

(** X7. While the separation runs, the progress it reports does not
    decrease, provided the percentages read from the tool do not: the
    running writes carry 1, 5, the scaled values and 90 in this
    order. *)
Theorem separation_progress_monotone (w : Separation.world)
    (job_id : string) :
  Sorted Z.le (percentages (Separation.lines w)) ->
  Sorted Z.le
    (Stream.progresses
       (filter is_running
          (Task.writes (Separation.separate_with_demucs w job_id)))).
Proof.
  intros Hs. rewrite separate_with_demucs_eq. cbv zeta.
  set (tl := translate_lines job_id (-1) (Separation.lines w)).
  set (p1 := set_progress job_id 1 _).
  set (p5 := set_progress job_id 5 _).
  set (p90 := set_progress job_id 90 _).
  pose proof (translator_writes_running job_id (-1) (Separation.lines w))
    as R. fold tl in R.
  pose proof (translate_lines_increasing_start job_id
                (Separation.lines w) Hs) as Inc. fold tl in Inc.
  pose proof (translate_lines_writes job_id (-1) (Separation.lines w))
    as B. fold tl in B.
  set (L := Stream.progresses (Task.writes tl)) in *.
  assert (BL : Forall (fun x => 5 <= x <= 85) L).
  { unfold L, Stream.progresses. rewrite Forall_map.
    eapply Forall_impl; [|exact B].
    intros c [s [m [-> H]]]. exact H. }
  assert (SL : Sorted Z.le (1 :: 5 :: L)).
  { constructor; [|constructor; lia].
    constructor; [exact (increasing_sorted L _ Inc)|].
    destruct L as [|x L']; constructor.
    inversion BL; subst. lia. }
  assert (SL90 : Sorted Z.le (1 :: 5 :: L ++ [90])).
  { change (Sorted Z.le ((1 :: 5 :: L) ++ [90])).
    apply sorted_snoc_bound; [exact SL|].
    constructor; [lia|]. constructor; [lia|].
    eapply Forall_impl; [|exact BL]. cbn beta. intros; lia. }
  assert (F : forall post,
             Stream.progresses
               (filter is_running (p1 :: p5 :: Task.writes tl ++ post)%list)
             = (1 :: 5 :: L
                ++ Stream.progresses (filter is_running post))%list).
  { intros post. cbn [filter is_running p1 p5 set_progress fields state].
    rewrite filter_app, (filter_all _ _ R).
    unfold Stream.progresses at 1. cbn [map]. rewrite map_app. reflexivity. }
  destruct (Separation.originals w) as [|src rest].
  { unfold Task.writes. cbn. repeat constructor. }
  destruct (Separation.popen w) as [[]|e0].
  2:{ unfold Task.writes. cbn. repeat constructor. lia. }
  destruct (Task.result tl) as [s|e0].
  2:{ unfold Task.writes. cbn [fst]. rewrite F. cbn. now rewrite app_nil_r. }
  destruct (Separation.wait w) as [rc|e0].
  2:{ unfold Task.writes. cbn [fst]. rewrite F. cbn. now rewrite app_nil_r. }
  destruct (negb (rc =? 0)).
  { unfold Task.writes. cbn [fst]. rewrite F. cbn. now rewrite app_nil_r. }
  destruct (find_stem_folder (Separation.tmp_tree w)) as [d|].
  - destruct (copy_stems d) as [k|e0];
      unfold Task.writes; cbn [fst]; rewrite F.
    + destruct (k =? 0)%nat; cbn; exact SL90.
    + cbn. exact SL90.
  - unfold Task.writes. cbn [fst]. rewrite F. cbn. exact SL90.
Qed.

Lemma separation_progress_monotone_witness :
  Sorted Z.le (percentages (Separation.lines Examples.separation_run))
  /\ Sorted Z.le
       (Stream.progresses
          (filter is_running
             (Task.writes
                (Separation.separate_with_demucs Examples.separation_run
                   "job-1")))).
Proof.
  assert (S : Sorted Z.le
                (percentages (Separation.lines Examples.separation_run))).
  { vm_compute. repeat constructor; discriminate. }
  split; [exact S|].
  apply (separation_progress_monotone Examples.separation_run "job-1" S).
Defined.

End RunFacts.

(** ** The search for the stem folder *)

Section StemSearchFacts.

Local Open Scope string_scope.

Import StemSearch.

Lemma rglob_parents_none name n :
  forall path, has_named name n = false -> rglob_parents name path n = [].
Proof.
  induction n as [|es IH] using node_tree_ind; intros path H;
    [reflexivity|].
  cbn [has_named] in H. apply orb_false_iff in H. destruct H as [H1 H2].
  cbn [rglob_parents].
  assert (F : filter (named name) es = []).
  { clear IH H2. induction es as [|e es IHes]; [reflexivity|].
    cbn in *. apply orb_false_iff in H1. destruct H1 as [-> H1]. auto. }
  rewrite F. cbn [map app]. clear F H1.
  revert path. induction es as [|[nm child] es IHes]; intros path;
    [reflexivity|].
  apply orb_false_iff in H2. destruct H2 as [Hc H2].
  inversion IH as [|? ? Pc Pes]; subst. cbn [enode] in Pc.
  rewrite (Pc _ Hc). cbn [app]. now apply IHes.
Qed.

Lemma rglob_parents_some name n :
  forall path, has_named name n = true -> rglob_parents name path n <> [].
Proof.
  induction n as [|es IH] using node_tree_ind; intros path H;
    [discriminate|].
  cbn [has_named] in H. cbn [rglob_parents].
  destruct (existsb (named name) es) eqn:E.
  - apply existsb_exists in E. destruct E as [e [He Hn]].
    assert (I : In e (filter (named name) es)) by (apply filter_In; tauto).
    destruct (filter (named name) es); [destruct I|]. discriminate.
  - cbn [orb] in H. intros N. apply app_eq_nil in N. destruct N as [_ N].
    clear E. revert path N.
    induction es as [|[nm child] es IHes]; intros path N; [discriminate|].
    inversion IH as [|? ? Pc Pes]; subst. cbn [enode] in Pc.
    apply app_eq_nil in N. destruct N as [N1 N2].
    apply orb_true_iff in H. destruct H as [H|H].
    + exact (Pc _ H N1).
    + exact (IHes Pes H _ N2).
Qed.

Lemma insert_desc_nonempty c l : insert_desc c l <> [].
Proof. destruct l as [|c' l]; cbn; [|destruct (_ <=? _)%nat]; discriminate. Qed.

Lemma sort_desc_nil l : sort_desc l = [] -> l = [].
Proof.
  destruct l as [|c l]; [reflexivity|]. cbn.
  intros H. now apply insert_desc_nonempty in H.
Qed.

(** X9. [find_stem_folder] returns nothing exactly when no path below
    the scratch directory, at any depth, is named bass.wav; a folder
    that holds the other three stems only is not found. *)
Theorem find_stem_folder_none (tmp_out : node) :
  find_stem_folder tmp_out = None <-> has_named "bass.wav" tmp_out = false.
Proof.
  unfold find_stem_folder. split.
  - destruct (sort_desc _) as [|c l] eqn:E; [|discriminate]. intros _.
    apply sort_desc_nil, map_eq_nil in E.
    destruct (has_named "bass.wav" tmp_out) eqn:H; [|reflexivity].
    now apply (rglob_parents_some _ _ []) in H.
  - intros H. now rewrite (rglob_parents_none _ _ [] H).
Qed.

Lemma find_stem_folder_none_witness :
  has_named "bass.wav"
    (Dir [Entry "htdemucs"
            (Dir [Entry "original"
                    (Dir [Entry "drums.wav" File; Entry "other.wav" File;
                          Entry "vocals.wav" File])])])
  = false
  /\ find_stem_folder
       (Dir [Entry "htdemucs"
               (Dir [Entry "original"
                       (Dir [Entry "drums.wav" File; Entry "other.wav" File;
                             Entry "vocals.wav" File])])])
     = None.
Proof.
  split; [reflexivity|].
  apply (proj2 (find_stem_folder_none _)). reflexivity.
Defined.

Lemma sort_desc_head l h t :
  sort_desc l = h :: t ->
  exists l1 l2,
    l = (l1 ++ h :: l2)%list
    /\ Forall (fun c => (fst c < fst h)%nat) l1
    /\ Forall (fun c => (fst c <= fst h)%nat) l2.
Proof.
  revert h t. induction l as [|c l IH]; intros h t; [discriminate|].
  cbn [sort_desc fold_right]. fold (sort_desc l).
  destruct (sort_desc l) as [|h' t'] eqn:E.
  - apply sort_desc_nil in E. subst l. cbn. intros [= <- <-].
    exists [], []. repeat split; constructor.
  - destruct (IH h' t' eq_refl) as [l1 [l2 [-> [H1 H2]]]].
    cbn [insert_desc]. destruct (fst h' <=? fst c)%nat eqn:L.
    + apply Nat.leb_le in L. intros [= <- <-].
      exists [], (l1 ++ h' :: l2)%list.
      split; [reflexivity|]. split; [constructor|].
      apply Forall_app. split.
      * eapply Forall_impl; [|exact H1]. cbn beta. intros; lia.
      * constructor; [exact L|].
        eapply Forall_impl; [|exact H2]. cbn beta. intros; lia.
    + apply Nat.leb_gt in L. intros [= <- <-].
      exists (c :: l1), l2. split; [reflexivity|].
      split; [constructor; assumption|exact H2].
Qed.

Lemma present_expected d name :
  ends_with ".wav" name = true ->
  existsb (String.eqb name) (present d) = exists_in d name.
Proof.
  intros Hn. unfold present, exists_in. destruct d as [path es]. cbn [snd].
  induction es as [|[nm n] es IH]; [reflexivity|].
  cbn [filter existsb named ename]. unfold named at 1. cbn [ename].
  destruct (String.eqb nm name) eqn:E.
  - apply String.eqb_eq in E. subst nm. rewrite Hn.
    cbn [map existsb ename]. now rewrite String.eqb_refl.
  - destruct (ends_with ".wav" nm); [|exact IH].
    cbn [map existsb ename]. rewrite String.eqb_sym, E. exact IH.
Qed.

Lemma score_counts d :
  score d = List.length (filter (exists_in d) expected).
Proof.
  unfold score. f_equal. apply filter_ext_in.
  intros name H. apply present_expected.
  cbn in H. destruct H as [<-|[<-|[<-|[<-|[]]]]]; reflexivity.
Qed.

(** X10. The folder that [find_stem_folder] returns is, in the order the
    scratch tree is walked, the first of the folders holding bass.wav
    that has the highest number of the four stems; its score is at
    least 1 and at most 4, so a folder with all four stems beats one
    with fewer. *)
Theorem find_stem_folder_best (tmp_out : node) (d : folder) :
  find_stem_folder tmp_out = Some d ->
  first_best (rglob_parents "bass.wav" [] tmp_out) d
  /\ (1 <= score d <= 4)%nat.
Proof.
  intros F. split.
  - unfold find_stem_folder in F.
    destruct (sort_desc _) as [|h t] eqn:E; [discriminate|].
    injection F as <-.
    destruct (sort_desc_head _ _ _ E) as [c1 [c2 [M [H1 H2]]]].
    apply map_eq_app in M. destruct M as [r1 [r' [-> [<- M]]]].
    apply map_eq_cons in M. destruct M as [x [r2 [-> [<- <-]]]].
    cbn [fst snd] in *. exists r1, r2. split; [reflexivity|].
    rewrite Forall_map in H1, H2. now split.
  - pose proof (rglob_parents_named _ _ _ _
                  (find_stem_folder_In _ _ F)) as B.
    rewrite score_counts. split.
    + unfold expected. cbn [filter]. rewrite B. cbn. lia.
    + etransitivity; [apply filter_length_le|]. reflexivity.
Qed.

Lemma find_stem_folder_best_witness :
  find_stem_folder Examples.scratch = Some Examples.stem_dir
  /\ first_best (rglob_parents "bass.wav" [] Examples.scratch)
       Examples.stem_dir
  /\ (1 <= score Examples.stem_dir <= 4)%nat.
Proof.
  split; [reflexivity|].
  apply (find_stem_folder_best Examples.scratch Examples.stem_dir).
  reflexivity.
Defined.

Lemma exists_in_lookup_none d name :
  exists_in d name = false -> lookup d name = None.
Proof.
  unfold exists_in, lookup. intros H.
  destruct (find (named name) (snd d)) as [e|] eqn:E; [|reflexivity].
  apply find_some in E. destruct E as [He Hn].
  assert (X : existsb (named name) (snd d) = true)
    by (apply existsb_exists; eauto).
  congruence.
Qed.

Lemma copy_loop_counts d names copied :
  (forall name n, In name names -> lookup d name = Some n -> n = File) ->
  copy_loop d names copied
  = Ok (copied + List.length (filter (exists_in d) names))%nat.
Proof.
  revert copied. induction names as [|name rest IH]; intros copied Hf.
  - cbn. now rewrite Nat.add_0_r.
  - rewrite copy_loop_cons. cbn [filter].
    assert (Hr : forall name n, In name rest ->
                                lookup d name = Some n -> n = File)
      by (intros; eapply Hf; eauto; now right).
    destruct (exists_in d name) eqn:E.
    + destruct (exists_in_lookup _ _ E) as [n Hn]. rewrite Hn.
      rewrite (Hf name n (or_introl eq_refl) Hn). cbn [copyfile Outcome.bind].
      rewrite IH by exact Hr. cbn [List.length]. f_equal. lia.
    + rewrite (exists_in_lookup_none _ _ E). now apply IH.
Qed.

(** X11. When the stems of a folder are regular files, the copy loop
    copies as many files as the folder scored in the search: every one
    of the four stems it holds, and nothing else. *)
Theorem copy_stems_copies_score (d : folder) :
  regular_stems d -> copy_stems d = Ok (score d).
Proof.
  intros H. unfold copy_stems. rewrite copy_loop_counts by exact H.
  now rewrite score_counts.
Qed.

Lemma copy_stems_copies_score_witness :
  regular_stems Examples.stem_dir
  /\ copy_stems Examples.stem_dir = Ok (score Examples.stem_dir).
Proof.
  assert (R : regular_stems Examples.stem_dir).
  { intros name n H. cbn in H.
    destruct H as [<-|[<-|[<-|[<-|[]]]]]; cbn; congruence. }
  split; [exact R|]. apply (copy_stems_copies_score Examples.stem_dir R).
Defined.

End StemSearchFacts.

(** ** What the smoothing keeps *)

Section SmoothKeeps.

Local Open Scope Z_scope.

Import Transcriber Frames.

Lemma insert_sorted_Forall (P : Z -> Prop) x l :
  P x -> Forall P l -> Forall P (insert_sorted x l).
Proof.
  intros Hx. induction 1 as [|y l Hy Hl IH]; cbn.
  - repeat constructor. exact Hx.
  - destruct (x <=? y); repeat constructor; assumption.
Qed.

Lemma sort_Forall (P : Z -> Prop) l : Forall P l -> Forall P (sort l).
Proof.
  induction 1 as [|x l Hx Hl IH]; [constructor|].
  change (sort (x :: l)) with (insert_sorted x (sort l)).
  now apply insert_sorted_Forall.
Qed.

Lemma length_insert_sorted x l :
  List.length (insert_sorted x l) = S (List.length l).
Proof.
  induction l as [|y l IH]; cbn; [reflexivity|].
  destruct (x <=? y); cbn; [reflexivity|now rewrite IH].
Qed.

Lemma length_sort l : List.length (sort l) = List.length l.
Proof.
  induction l as [|x l IH]; [reflexivity|].
  change (sort (x :: l)) with (insert_sorted x (sort l)).
  rewrite length_insert_sorted, IH. reflexivity.
Qed.

Lemma Forall_nth_in (P : Z -> Prop) l i :
  Forall P l -> (i < List.length l)%nat -> P (nth i l 0).
Proof.
  intros H Hi. rewrite Forall_forall in H. apply H. now apply nth_In.
Qed.

(** The value that replaces a frame lies between the voiced values it
    is taken from. *)
Lemma median_within lo hi vals :
  0 <= lo -> vals <> [] ->
  Forall (fun v => lo <= v <= hi) vals -> lo <= median vals <= hi.
Proof.
  intros Hlo Hne H. unfold median.
  pose proof (sort_Forall _ _ H) as S.
  assert (L : (0 < List.length (sort vals))%nat).
  { rewrite length_sort. destruct vals; [congruence|cbn; lia]. }
  set (s := sort vals) in *. set (n := List.length s) in *.
  assert (D : (n / 2 < n)%nat) by (apply Nat.div_lt; lia).
  destruct (Nat.even n).
  - pose proof (Forall_nth_in _ s (n / 2 - 1) S ltac:(lia)) as A.
    pose proof (Forall_nth_in _ s (n / 2) S D) as B. cbn beta in A, B.
    set (a := nth (n / 2 - 1) s 0) in *. set (b := nth (n / 2) s 0) in *.
    rewrite Z.quot_div_nonneg by lia.
    split.
    + apply Z.div_le_lower_bound; lia.
    + apply Z.div_le_upper_bound; lia.
  - exact (Forall_nth_in _ s (n / 2) S D).
Qed.

Lemma set_nth_Forall (P : Z -> Prop) i v a :
  P v -> Forall P a -> Forall P (set_nth i v a).
Proof.
  intros Hv H. revert i. induction H as [|x a Hx Ha IH]; intros [|i]; cbn;
    constructor; auto.
Qed.

Lemma slice_Forall (P : Z -> Prop) a lo hi :
  Forall P a -> Forall P (slice a lo hi).
Proof.
  intros H. unfold slice. apply Forall_firstn.
  rewrite <- (firstn_skipn lo a) in H. apply Forall_app in H. tauto.
Qed.

Lemma filter_Forall_both (P : Z -> Prop) f l :
  Forall (fun v => f v = true -> P v) l -> Forall P (filter f l).
Proof.
  induction 1 as [|x l Hx Hl IH]; cbn; [constructor|].
  destruct (f x) eqn:E; [constructor; auto|exact IH].
Qed.

(** One step keeps every frame unvoiced or within the bounds, and
    keeps a voiced frame voiced. *)
Lemma smooth_step_within lo hi a k :
  0 <= lo ->
  Forall (within lo hi) a -> Forall (within lo hi) (smooth_step a k).
Proof.
  intros Hlo H. unfold smooth_step.
  set (vals := filter (fun v => 0 <=? v) (slice a (k - 2) (k + 3))).
  destruct (3 <=? List.length vals)%nat eqn:E; [|exact H].
  apply Nat.leb_le in E. apply set_nth_Forall; [|exact H].
  right. apply median_within; [exact Hlo| |].
  - destruct vals; [cbn in E; lia|discriminate].
  - apply filter_Forall_both.
    eapply Forall_impl; [|apply slice_Forall, H].
    cbn beta. intros v [Hv|Hv] Hp; [apply Z.leb_le in Hp; lia|exact Hv].
Qed.

Lemma nth_set_nth_same_or i k v a :
  nth i (set_nth k v a) 0 = nth i a 0 \/ nth i (set_nth k v a) 0 = v.
Proof.
  destruct (Nat.eq_dec k i) as [->|N].
  - destruct (Nat.lt_ge_cases i (List.length a)) as [L|G].
    + right. now apply nth_set_nth_eq.
    + left. rewrite !nth_overflow; [reflexivity|lia|].
      rewrite length_set_nth. lia.
  - left. now apply nth_set_nth_neq.
Qed.

Lemma smooth_step_voiced lo hi a k i :
  0 <= lo ->
  Forall (within lo hi) a ->
  0 <= nth i a 0 -> (i < List.length a)%nat ->
  0 <= nth i (smooth_step a k) 0.
Proof.
  intros Hlo H Hi Hlen. unfold smooth_step.
  set (vals := filter (fun v => 0 <=? v) (slice a (k - 2) (k + 3))).
  destruct (3 <=? List.length vals)%nat eqn:E; [|exact Hi].
  apply Nat.leb_le in E.
  destruct (nth_set_nth_same_or i k (median vals) a) as [-> | ->];
    [exact Hi|].
  assert (lo <= median vals <= hi); [|lia].
  apply median_within; [exact Hlo| |].
  - destruct vals; [cbn in E; lia|discriminate].
  - apply filter_Forall_both.
    eapply Forall_impl; [|apply slice_Forall, H].
    cbn beta. intros v [Hv|Hv] Hp; [apply Z.leb_le in Hp; lia|exact Hv].
Qed.


Lemma smooth_fold_within lo hi ks :
  0 <= lo ->
  forall a i,
    Forall (within lo hi) a ->
    Forall (within lo hi) (fold_left smooth_step ks a)
    /\ List.length (fold_left smooth_step ks a) = List.length a
    /\ (0 <= nth i a 0 -> (i < List.length a)%nat ->
        0 <= nth i (fold_left smooth_step ks a) 0).
Proof.
  intros Hlo. induction ks as [|k ks IH]; intros a i H.
  - cbn. repeat split; auto.
  - cbn [fold_left].
    destruct (IH (smooth_step a k) i (smooth_step_within lo hi a k Hlo H))
      as [I1 [I2 I3]].
    split; [exact I1|]. split; [now rewrite I2, length_smooth_step|].
    intros Hi Hlen. apply I3.
    + now apply (smooth_step_voiced lo hi).
    + now rewrite length_smooth_step.
Qed.

(** X14. Smoothing keeps the number of frames and brings in no pitch
    from outside: when every voiced frame of the sequence lies between
    two bounds, so does every voiced frame of the smoothed sequence;
    and a frame that was voiced is still voiced afterwards, so
    smoothing can fill a gap but never opens one. *)
Theorem smooth_keeps_range (lo hi : Z) (midi_frame : list Z) :
  0 <= lo ->
  Forall (within lo hi) midi_frame ->
  List.length (smooth midi_frame) = List.length midi_frame
  /\ Forall (within lo hi) (smooth midi_frame)
  /\ (forall i, (i < List.length midi_frame)%nat ->
                0 <= nth i midi_frame 0 ->
                lo <= nth i (smooth midi_frame) 0 <= hi).
Proof.
  intros Hlo H. unfold smooth.
  split; [apply (smooth_fold_within lo hi _ Hlo midi_frame 0%nat H)|].
  split; [apply (smooth_fold_within lo hi _ Hlo midi_frame 0%nat H)|].
  intros i L Hi.
  destruct (smooth_fold_within lo hi
              (seq 2 (List.length midi_frame - 4)) Hlo midi_frame i H)
    as [I1 [I2 I3]].
  specialize (I3 Hi L).
  assert (W : within lo hi
                (nth i (fold_left smooth_step
                          (seq 2 (List.length midi_frame - 4))
                          midi_frame) 0)).
  { apply Forall_nth_in; [exact I1|]. now rewrite I2. }
  destruct W as [W|W]; [lia|exact W].
Qed.

Lemma smooth_keeps_range_witness :
  0 <= 60
  /\ Forall (within 60 72) Examples.jitter_frames
  /\ List.length (smooth Examples.jitter_frames)
     = List.length Examples.jitter_frames
  /\ Forall (within 60 72) (smooth Examples.jitter_frames)
  /\ (forall i, (i < List.length Examples.jitter_frames)%nat ->
                0 <= nth i Examples.jitter_frames 0 ->
                60 <= nth i (smooth Examples.jitter_frames) 0 <= 72).
Proof.
  assert (F : Forall (within 60 72) Examples.jitter_frames)
    by (unfold Examples.jitter_frames;
        repeat (apply Forall_cons; [right; lia|]); apply Forall_nil).
  split; [lia|]. split; [exact F|].
  apply (smooth_keeps_range 60 72 Examples.jitter_frames); [lia|exact F].
Defined.

Ltac sort_steps Hyv Hvy :=
  unfold median, sort; cbn [fold_right insert_sorted];
  repeat (rewrite ?Z.leb_refl, ?Hyv, ?Hvy; cbn [insert_sorted]);
  cbn; rewrite ?Z.quot_div_nonneg by lia;
  try reflexivity.

(** Five frames of which four hold the same voiced note give that
    note, wherever the fifth stands among the last three. *)
Lemma window_value_steady v y old :
  0 <= v ->
  window_value [v; v; y; v; v] old = v
  /\ window_value [v; v; v; y; v] old = v
  /\ window_value [v; v; v; v; y] old = v.
Proof.
  intros Hv. unfold window_value. cbn [filter].
  replace (0 <=? v) with true by (symmetry; now apply Z.leb_le).
  assert (Q : Z.quot (v + v) 2 = v).
  { rewrite Z.quot_div_nonneg by lia. replace (v + v) with (v * 2) by lia.
    apply Z.div_mul. lia. }
  destruct (0 <=? y) eqn:Hy; cbn [List.length Nat.leb].
  - destruct (y <=? v) eqn:Hyv; destruct (v <=? y) eqn:Hvy.
    + assert (y = v) by (apply Z.leb_le in Hyv, Hvy; lia). subst y.
      repeat split; sort_steps Hyv Hvy.
    + repeat split; sort_steps Hyv Hvy.
    + repeat split; sort_steps Hyv Hvy.
    + apply Z.leb_gt in Hyv, Hvy. lia.
  - repeat split; unfold median, sort; cbn [fold_right insert_sorted];
      repeat (rewrite ?Z.leb_refl; cbn [insert_sorted]); cbn; exact Q.
Qed.

Lemma length_spike v x a b : List.length (spike v x a b) = (a + 1 + b)%nat.
Proof. unfold spike. rewrite length_app, repeat_length. cbn. rewrite repeat_length. lia. Qed.

Lemma nth_repeat_lt (v : Z) n j : (j < n)%nat -> nth j (repeat v n) 0 = v.
Proof.
  intros H. apply nth_repeat_app with (v := v) (rest := []) in H.
  now rewrite app_nil_r in H.
Qed.

Lemma nth_spike v x a b j :
  (j < a + 1 + b)%nat ->
  nth j (spike v x a b) 0 = if Nat.eqb j a then x else v.
Proof.
  intros Hj. unfold spike.
  destruct (Nat.eqb j a) eqn:E.
  - apply Nat.eqb_eq in E. subst j.
    rewrite app_nth2 by (rewrite repeat_length; lia).
    rewrite repeat_length, Nat.sub_diag. reflexivity.
  - apply Nat.eqb_neq in E.
    destruct (Nat.lt_ge_cases j a) as [L|G].
    + rewrite app_nth1 by (rewrite repeat_length; lia).
      now apply nth_repeat_lt.
    + rewrite app_nth2 by (rewrite repeat_length; lia).
      rewrite repeat_length.
      destruct (j - a)%nat as [|k] eqn:K; [lia|]. cbn [nth].
      apply nth_repeat_lt. lia.
Qed.

(** X15. Smoothing removes a one-frame spike, and fills a one-frame
    gap, inside a steady voiced note: when all frames hold the note [v]
    except one that has two frames of the note before it and two after
    it, every frame of the result holds [v]. *)
Theorem smooth_removes_spike (v x : Z) (a b : nat) :
  0 <= v -> (2 <= a)%nat -> (2 <= b)%nat ->
  smooth (spike v x a b) = repeat v (a + 1 + b).
Proof.
  intros Hv Ha Hb.
  pose proof (length_spike v x a b) as Hlen.
  pose proof (smooth_prefix (spike v x a b)
                (List.length (spike v x a b) - 4) (Nat.le_refl _))
    as [Olen [Oout Oin]].
  fold (smooth (spike v x a b)) in Olen, Oout, Oin.
  set (out := smooth (spike v x a b)) in *.
  rewrite Hlen in *.
  assert (A : forall j, (j < a + 1 + b)%nat -> nth j out 0 = v).
  { intros j. induction j as [j IH] using lt_wf_ind. intros Hj.
    destruct (Nat.lt_ge_cases j 2) as [L|G].
    { rewrite Oout by lia. rewrite nth_spike by lia.
      replace (Nat.eqb j a) with false by (symmetry; apply Nat.eqb_neq; lia).
      reflexivity. }
    destruct (Nat.lt_ge_cases j (a + 1 + b - 2)) as [L2|G2].
    2:{ rewrite Oout by lia. rewrite nth_spike by lia.
        replace (Nat.eqb j a) with false
          by (symmetry; apply Nat.eqb_neq; lia).
        reflexivity. }
    rewrite Oin by lia.
    rewrite (IH (j - 2)%nat) by lia. rewrite (IH (j - 1)%nat) by lia.
    rewrite !nth_spike by lia.
    destruct (window_value_steady v x
                (if Nat.eqb j a then x else v) Hv) as [W1 [W2 W3]].
    destruct (window_value_steady v v
                (if Nat.eqb j a then x else v) Hv) as [W0 _].
    destruct (Nat.eqb j a) eqn:E0.
    - apply Nat.eqb_eq in E0.
      replace (Nat.eqb (j + 1) a) with false
        by (symmetry; apply Nat.eqb_neq; lia).
      replace (Nat.eqb (j + 2) a) with false
        by (symmetry; apply Nat.eqb_neq; lia).
      exact W1.
    - destruct (Nat.eqb (j + 1) a) eqn:E1.
      + apply Nat.eqb_eq in E1.
        replace (Nat.eqb (j + 2) a) with false
          by (symmetry; apply Nat.eqb_neq; lia).
        exact W2.
      + destruct (Nat.eqb (j + 2) a); [exact W3|exact W0]. }
  apply (nth_ext _ _ 0 0).
  - now rewrite Olen, repeat_length.
  - intros j Hj. rewrite Olen in Hj.
    rewrite A by exact Hj. now rewrite nth_repeat_lt.
Qed.

Lemma smooth_removes_spike_witness :
  0 <= 60 /\ (2 <= 3)%nat /\ (2 <= 2)%nat
  /\ smooth (spike 60 72 3 2) = repeat 60 (3 + 1 + 2).
Proof.
  split; [lia|]. split; [lia|]. split; [lia|].
  apply (smooth_removes_spike 60 72 3 2); lia.
Defined.

Lemma smooth_step_unvoiced a k :
  Forall (fun v => v < 0) a -> smooth_step a k = a.
Proof.
  intros H. unfold smooth_step.
  assert (E : filter (fun v => 0 <=? v) (slice a (k - 2) (k + 3)) = []).
  { pose proof (slice_Forall _ a (k - 2) (k + 3) H) as S.
    induction S as [|x l Hx Hl IH]; [reflexivity|]. cbn.
    replace (0 <=? x) with false by (symmetry; apply Z.leb_gt; lia).
    exact IH. }
  rewrite E. reflexivity.
Qed.

Lemma smooth_short midi_frame :
  (List.length midi_frame < 5)%nat -> smooth midi_frame = midi_frame.
Proof.
  intros H. unfold smooth.
  replace (List.length midi_frame - 4)%nat with 0%nat by lia. reflexivity.
Qed.

Lemma smooth_unvoiced midi_frame :
  Forall (fun v => v < 0) midi_frame -> smooth midi_frame = midi_frame.
Proof.
  intros H. unfold smooth.
  generalize (seq 2 (List.length midi_frame - 4)). intros ks.
  induction ks as [|k ks IH]; [reflexivity|].
  cbn [fold_left]. now rewrite smooth_step_unvoiced.
Qed.

(** X16. Smoothing leaves as it is a sequence of fewer than five
    frames, which has no interior frame, and a sequence without any
    voiced frame. *)
Theorem smooth_unchanged (midi_frame : list Z) :
  (List.length midi_frame < 5)%nat \/ Forall (fun v => v < 0) midi_frame ->
  smooth midi_frame = midi_frame.
Proof.
  intros [H|H]; [now apply smooth_short|now apply smooth_unvoiced].
Qed.

Lemma smooth_unchanged_witness :
  ((List.length [60; 62; 64; 65] < 5)%nat
   \/ Forall (fun v => v < 0) [60; 62; 64; 65])
  /\ smooth [60; 62; 64; 65] = [60; 62; 64; 65].
Proof.
  assert (H : (List.length [60; 62; 64; 65] < 5)%nat
              \/ Forall (fun v => v < 0) [60; 62; 64; 65])
    by (left; cbn; lia).
  split; [exact H|]. apply (smooth_unchanged [60; 62; 64; 65] H).
Defined.

End SmoothKeeps.

(** ** What the notes are made of *)

Section NoteFacts.

Local Open Scope Z_scope.

Import Transcriber Frames.

(** Every span of the maximal runs is a stretch of frames that hold
    its value. *)
Lemma run_spans_hold rs :
  forall start v a b,
    maximal_runs rs = true ->
    In (v, a, b) (run_spans start rs) ->
    (start <= a <= b)%nat
    /\ (b < start + List.length (expand rs))%nat
    /\ (forall k, (a <= k <= b)%nat -> nth (k - start) (expand rs) 0 = v).
Proof.
  induction rs as [|[v0 n] rs IH]; intros start v a b Hmax Hin;
    [destruct Hin|].
  destruct (positive_runs v0 n rs Hmax) as [Hn Hrs].
  cbn [run_spans expand] in *. rewrite length_app, repeat_length.
  destruct Hin as [E|Hin].
  - injection E as <- <- <-. split; [lia|]. split; [lia|].
    intros k Hk. apply nth_repeat_app. lia.
  - destruct (IH _ _ _ _ Hrs Hin) as [H1 [H2 H3]].
    split; [lia|]. split; [lia|].
    intros k Hk. rewrite app_nth2 by (rewrite repeat_length; lia).
    rewrite repeat_length.
    replace (k - start - n)%nat with (k - (start + n))%nat by lia.
    now apply H3.
Qed.



Lemma filter_map_swap {A B} (f : B -> bool) (g : A -> B) l :
  filter f (map g l) = map g (filter (fun x => f (g x)) l).
Proof.
  induction l as [|x l IH]; cbn; [reflexivity|].
  destruct (f (g x)); cbn; now rewrite IH.
Qed.

Lemma filter_filter {A} (f g : A -> bool) l :
  filter f (filter g l) = filter (fun x => g x && f x) l.
Proof.
  induction l as [|x l IH]; cbn; [reflexivity|].
  destruct (g x); cbn; [destruct (f x); now rewrite IH|exact IH].
Qed.

(** On the frame grid a candidate lasts 0.06 s or more exactly when its
    run has six frames or more. *)
Lemma long_enough_grid n v a b :
  (a <= b < n)%nat ->
  long_enough min_note_len_s (candidate (times_like n) (v, a, b))
  = (6 <=? b - a + 1)%nat.
Proof.
  intros H. unfold long_enough, candidate, start_time, end_time,
    min_note_len_s. cbn [fst snd].
  rewrite !time_at_times_like by lia.
  destruct (Nat.lt_ge_cases 1 n) as [L|G].
  - rewrite hop_times_like by exact L.
    destruct (6 <=? b - a + 1)%nat eqn:E.
    + apply Nat.leb_le in E. apply Qle_bool_iff.
      unfold Qle, Qminus, Qplus, Qopp. cbn [Qnum Qden]. lia.
    + apply Nat.leb_gt in E.
      destruct (Qle_bool _ _) eqn:Q; [|reflexivity].
      apply Qle_bool_iff in Q.
      unfold Qle, Qminus, Qplus, Qopp in Q. cbn [Qnum Qden] in Q. lia.
  - assert (a = 0%nat) by lia. assert (b = 0%nat) by lia.
    assert (n = 1%nat) by lia. subst. reflexivity.
Qed.

(** X18. On the frame grid of the transcriber (a frame every 256
    samples at 22050 Hz) the minimum duration of 0.06 s means six
    frames: the notes built are exactly the candidates of the maximal
    voiced runs of six frames or more, in order, so a run of five
    frames or fewer never becomes a note. *)
Theorem build_notes_six_frames (midi_frame : list Z) :
  build_notes midi_frame
  = map (candidate (times_like (List.length midi_frame)))
      (filter makes_note (run_spans 0 (runs_of midi_frame))).
Proof.
  unfold build_notes. rewrite segment_candidates. unfold candidates.
  rewrite filter_map_swap, filter_filter. f_equal.
  apply filter_ext_in. intros [[v a] b] Hin.
  destruct (run_spans_hold _ 0%nat v a b (maximal_runs_of midi_frame) Hin)
    as [H1 [H2 _]].
  rewrite expand_runs_of in H2.
  unfold makes_note, frames_of, first_frame, last_frame. cbn [fst snd].
  f_equal. apply long_enough_grid. lia.
Qed.

Lemma filter_none {A} (f : A -> bool) l :
  (forall x, In x l -> f x = false) -> filter f l = [].
Proof.
  induction l as [|x l IH]; intros H; cbn; [reflexivity|].
  rewrite (H x (or_introl eq_refl)). apply IH.
  intros y Hy. apply H. now right.
Qed.

Lemma no_notes_short midi_frame :
  (List.length midi_frame < 6)%nat -> build_notes midi_frame = [].
Proof.
  intros H. unfold build_notes. rewrite segment_candidates.
  unfold candidates. rewrite filter_map_swap, filter_none; [reflexivity|].
  intros [[v a] b] Hin. apply filter_In in Hin. destruct Hin as [Hin _].
  destruct (run_spans_hold _ 0%nat v a b (maximal_runs_of midi_frame) Hin)
    as [H1 [H2 _]].
  rewrite expand_runs_of in H2.
  rewrite long_enough_grid by lia. apply Nat.leb_gt. lia.
Qed.

Lemma no_notes_unvoiced midi_frame :
  Forall (fun v => v < 0) midi_frame -> build_notes midi_frame = [].
Proof.
  intros H. unfold build_notes. rewrite segment_candidates.
  unfold candidates.
  rewrite (filter_none voiced); [reflexivity|].
  intros [[v a] b] Hin.
  destruct (run_spans_hold _ 0%nat v a b (maximal_runs_of midi_frame) Hin)
    as [H1 [H2 H3]].
  rewrite expand_runs_of in H2, H3.
  specialize (H3 a ltac:(lia)). rewrite Nat.sub_0_r in H3.
  rewrite Forall_forall in H.
  assert (v < 0) by (rewrite <- H3; apply H, nth_In; lia).
  unfold voiced. cbn [fst].
  apply negb_false_iff, Z.ltb_lt. assumption.
Qed.


Local Open Scope string_scope.

(** X19. Audio that gives fewer than six frames, or no voiced frame at
    all, gives no note: the transcription then stops after the step
    "Building notes...", records the failure "No notes detected" and
    returns. *)
Theorem too_short_or_silent_fails (w : world) (job_id stem_name : string)
    (midi_frame : list Z) :
  stem_exists w = Ok true ->
  mkdir w = Ok tt ->
  load w = Ok tt ->
  frames w = Ok midi_frame ->
  (List.length midi_frame < 6)%nat \/ Forall (fun v => v < 0) midi_frame ->
  notes_of_frames midi_frame = []
  /\ transcribe_monophonic w job_id stem_name
     = ([set_progress job_id 1 (Some "Preparing transcription...");
         set_progress job_id 5 (Some "Loading audio...");
         set_progress job_id 15 (Some "Detecting pitch (pyin)...");
         set_progress job_id 35 (Some "Building notes...");
         fail job_id "No notes detected (try bass stem, or cleaner audio)."],
        Ok tt).
Proof.
  intros He Hm Hl Hf H.
  assert (N : build_notes (smooth midi_frame) = []).
  { destruct H as [H|H].
    - apply no_notes_short. now rewrite length_smooth.
    - rewrite smooth_unvoiced by exact H. now apply no_notes_unvoiced. }
  split; [exact N|].
  rewrite transcribe_monophonic_eq. cbv zeta.
  now rewrite He, Hm, Hl, Hf, N.
Qed.

Lemma too_short_or_silent_fails_witness :
  notes_of_frames [45; 45; 45; 45; 45] = []
  /\ Task.result
       (transcribe_monophonic
          (World (Ok true) (Ok tt) (Ok tt) (Ok [45; 45; 45; 45; 45])
             (Ok tt) (Ok tt)) "job-3" "bass.wav")
     = Ok tt.
Proof.
  assert (S : (List.length [45; 45; 45; 45; 45] < 6)%nat) by (cbn; lia).
  destruct (too_short_or_silent_fails
              (World (Ok true) (Ok tt) (Ok tt) (Ok [45; 45; 45; 45; 45])
                 (Ok tt) (Ok tt)) "job-3" "bass.wav" [45; 45; 45; 45; 45]
              eq_refl eq_refl eq_refl eq_refl (or_introl S)) as [N T].
  split; [exact N|]. now rewrite T.
Defined.

End NoteFacts.

(** ** The record of a job, seen through the API *)

Section StatusFacts.

Local Open Scope string_scope.
Local Open Scope Z_scope.

Import Runs.

Lemma job_key_injective a b : job_key a = job_key b -> a = b.
Proof. unfold job_key. cbn. intros H. congruence. Qed.

Lemma translate_lines_complete job_id lines :
  forall last,
    Forall (complete_write job_id)
      (Task.writes (translate_lines job_id last lines)).
Proof.
  induction lines as [|line rest IH]; intros last; [constructor|].
  rewrite translate_lines_cons, translate_line_eq.
  destruct (line_pct line) as [[pct|]|e]; [| |constructor].
  - cbv zeta. destruct (_ =? last).
    + specialize (IH last).
      destruct (translate_lines job_id last rest) as [l2 r]. exact IH.
    + specialize (IH (5 + 80 * clamp pct 0 100 / 100)).
      destruct (translate_lines job_id _ rest) as [l2 r].
      cbn [Task.writes fst app] in *. constructor; [|exact IH].
      unfold complete_write. cbn [key fields progress message set_progress].
      split; [reflexivity|]. split; [|discriminate].
      assert (0 <= 80 * clamp pct 0 100 / 100 <= 80); [|lia].
      unfold clamp.
      split; [apply Z.div_pos; lia|apply Z.div_le_upper_bound; lia].
  - specialize (IH last).
    destruct (translate_lines job_id last rest) as [l2 r]. exact IH.
Qed.

Lemma set_progress_complete job_id p m :
  0 <= p <= 100 -> complete_write job_id (set_progress job_id p (Some m)).
Proof. intros H. repeat split; try apply H. discriminate. Qed.

Lemma separation_end_complete job_id m :
  complete_write job_id (Separation.fail job_id m)
  /\ complete_write job_id (Separation.succeed job_id m).
Proof. split; (repeat split; cbn; try lia; discriminate). Qed.

Lemma transcription_end_complete job_id m :
  complete_write job_id (Transcriber.fail job_id m)
  /\ complete_write job_id (Transcriber.succeed job_id m).
Proof. split; (repeat split; cbn; try lia; discriminate). Qed.

Ltac complete_step :=
  first
    [ apply Forall_nil
    | apply Forall_cons
    | apply Forall_app; split
    | apply set_progress_complete; lia
    | apply separation_end_complete
    | apply transcription_end_complete
    | apply translate_lines_complete ].

Lemma separation_writes_complete (w : Separation.world) job_id :
  Forall (complete_write job_id)
    (Task.writes (Separation.separate_with_demucs w job_id)).
Proof.
  rewrite separate_with_demucs_eq. cbv zeta.
  destruct (Separation.originals w); [repeat complete_step|].
  destruct (Separation.popen w); [|repeat complete_step].
  destruct (Task.result _); [|repeat complete_step].
  destruct (Separation.wait w); [|repeat complete_step].
  destruct (negb _); [repeat complete_step|].
  destruct (find_stem_folder _); [|repeat complete_step].
  destruct (copy_stems _) as [k|]; [|repeat complete_step].
  destruct (k =? 0)%nat; repeat complete_step.
Qed.

Lemma transcription_writes_complete (w : Transcriber.world) job_id stem_name :
  Forall (complete_write job_id)
    (Task.writes (Transcriber.transcribe_monophonic w job_id stem_name)).
Proof.
  rewrite transcribe_monophonic_eq. cbv zeta.
  destruct (Transcriber.stem_exists w) as [[|]|]; try (repeat complete_step).
  destruct (Transcriber.mkdir w); [|repeat complete_step].
  destruct (Transcriber.load w); [|repeat complete_step].
  destruct (Transcriber.frames w); [|repeat complete_step].
  destruct (Transcriber.build_notes _); [repeat complete_step|].
  destruct (Transcriber.write_midi w); [|repeat complete_step].
  destruct (Transcriber.write_musicxml w); repeat complete_step.
Qed.

Lemma run_writes_other log k :
  forall st,
    Forall (fun c => key c <> k) log -> run_writes log st k = st k.
Proof.
  unfold run_writes.
  induction log as [|c log IH]; intros st H; [reflexivity|].
  inversion H as [|c' l' Hc Hl]; subst. cbn [fold_left].
  rewrite IH by exact Hl. unfold hset.
  destruct (String.eqb k (key c)) eqn:E; [|reflexivity].
  apply String.eqb_eq in E. congruence.
Qed.

Lemma complete_other_key job_id other log :
  other <> job_id ->
  Forall (complete_write job_id) log ->
  Forall (fun c => key c <> job_key other) log.
Proof.
  intros N H. eapply Forall_impl; [|exact H].
  intros c [K _] E. rewrite K in E. apply N. symmetry.
  now apply job_key_injective.
Qed.

(** X20. A task writes to the record of its own job only.  The keys of
    two jobs differ when their ids do, so the record of any other job
    is after a run of the separation or of the transcription what it
    was before. *)
Theorem tasks_write_own_record :
  (forall a b, job_key a = job_key b -> a = b)
  /\ (forall (w : Separation.world) job_id other st,
        other <> job_id ->
        run_writes (Task.writes (Separation.separate_with_demucs w job_id)) st
          (job_key other)
        = st (job_key other))
  /\ (forall (w : Transcriber.world) job_id stem_name other st,
        other <> job_id ->
        run_writes
          (Task.writes (Transcriber.transcribe_monophonic w job_id stem_name))
          st (job_key other)
        = st (job_key other)).
Proof.
  split; [exact job_key_injective|]. split.
  - intros w job_id other st N. apply run_writes_other.
    apply (complete_other_key job_id); [exact N|].
    apply separation_writes_complete.
  - intros w job_id stem_name other st N. apply run_writes_other.
    apply (complete_other_key job_id); [exact N|].
    apply transcription_writes_complete.
Qed.

Lemma tasks_write_own_record_witness :
  "job-2" <> "job-1"
  /\ run_writes
       (Task.writes
          (Transcriber.transcribe_monophonic Examples.transcription_run
             "job-1" "bass.wav"))
       empty_store (job_key "job-2")
     = None.
Proof.
  assert (N : "job-2" <> "job-1") by discriminate.
  split; [exact N|].
  exact (proj2 (proj2 tasks_write_own_record) Examples.transcription_run
           "job-1" "bass.wav" "job-2" empty_store N).
Defined.

(** *** The status endpoint *)

Lemma hget_hset_field_eq f v h : Api.hget f (Api.hset_field f v h) = Some v.
Proof.
  induction h as [|[f' v'] h IH]; cbn.
  - now rewrite String.eqb_refl.
  - destruct (String.eqb f f') eqn:E; cbn.
    + now rewrite String.eqb_refl.
    + now rewrite E.
Qed.

Lemma hget_hset_field_neq f g v h :
  f <> g -> Api.hget f (Api.hset_field g v h) = Api.hget f h.
Proof.
  intros N. apply String.eqb_neq in N.
  induction h as [|[f' v'] h IH]; cbn.
  - now rewrite N.
  - destruct (String.eqb g f') eqn:E; cbn.
    + apply String.eqb_eq in E. subst f'. now rewrite N.
    + destruct (String.eqb f f'); [reflexivity|exact IH].
Qed.

Lemma hset_field_not_empty f v h : Api.hset_field f v h <> [].
Proof.
  destruct h as [|[f' v'] h]; cbn; [discriminate|].
  destruct (String.eqb f f'); discriminate.
Qed.

(** [int(str(n))] is [n] for the progress values. *)
Lemma int_of_str_progress max_str_digits n :
  0 <= n <= 100 -> Api.int_of_string max_str_digits (str n) = Some n.
Proof.
  intros H. rewrite <- (Z2Nat.id n) by lia.
  assert (L : (Z.to_nat n <= 100)%nat) by lia.
  generalize dependent (Z.to_nat n). clear H n. intros k L.
  do 101 (destruct k as [|k]; [vm_compute; reflexivity|]). lia.
Qed.

(** The status right after a write of the worker. *)
Lemma status_after_write max_str_digits db job_id c :
  complete_write job_id c ->
  Api.get_job_status max_str_digits (Api.send c db) job_id
  = Some (Api.report job_id (fields c)).
Proof.
  intros [K [P M]].
  unfold Api.get_job_status, Api.hgetall, Api.send, Api.hset.
  rewrite K, String.eqb_refl.
  destruct c as [k [s p m]]. cbn [key fields state progress message] in *.
  destruct m as [m|]; [|congruence].
  unfold Api.mapping_dict. cbn [state progress message app fold_left fst snd].
  set (h := Api.hset_field "message" m _).
  assert (Hs : Api.hget "state" h = Some (Api.state_name s)).
  { unfold h. rewrite !hget_hset_field_neq by discriminate.
    apply hget_hset_field_eq. }
  assert (Hp : Api.hget "progress" h = Some (str p)).
  { unfold h. rewrite hget_hset_field_neq by discriminate.
    apply hget_hset_field_eq. }
  assert (Hm : Api.hget "message" h = Some m)
    by (unfold h; apply hget_hset_field_eq).
  assert (Hn : h <> []) by apply hset_field_not_empty.
  destruct h as [|e h']; [congruence|].
  unfold Api.get_default. rewrite Hs, Hp, Hm.
  now rewrite int_of_str_progress.
Qed.

Lemma send_all_last log c db :
  Api.send_all (log ++ [c]) db = Api.send c (Api.send_all log db).
Proof. unfold Api.send_all. now rewrite fold_left_app. Qed.

(** The status after the writes of a job, from the record [first] that
    the store holds before them. *)
Lemma status_after_writes max_str_digits db job_id log first :
  Forall (complete_write job_id) log ->
  Api.get_job_status max_str_digits db job_id = Some first ->
  Api.get_job_status max_str_digits (Api.send_all log db) job_id
  = Some match final log with
         | Some m => Api.report job_id m
         | None => first
         end.
Proof.
  intros H F. destruct log as [|c log] using rev_ind; [exact F|].
  rewrite final_last, send_all_last. apply status_after_write.
  apply Forall_app in H. destruct H as [_ H]. now inversion H.
Qed.

(** X21. From the moment the API has queued a job, the status endpoint
    answers for it without an error; it reports the state queued with
    progress 0 until the worker writes, and from then on, at every
    point of the task's run, the state, the progress and the message of
    the task's latest write. *)
Theorem status_follows_job (max_str_digits : Z) (db : Api.redis)
    (uuid project_id : string) (k : nat) :
  (forall originals (w : Separation.world),
      originals <> [] ->
      let '(response, db1, _) :=
        Api.separate true originals uuid project_id db in
      let log :=
        firstn k (Task.writes (Separation.separate_with_demucs w uuid)) in
      response = Api.Served uuid
      /\ Api.get_job_status max_str_digits (Api.send_all log db1) uuid
         = Some match final log with
                | Some m => Api.report uuid m
                | None =>
                    Api.JobStatus uuid "queued" 0 (Some "Separation queued")
                end)
  /\ (forall stem_name instrument (w : Transcriber.world),
        let '(response, db1, _) :=
          Api.transcribe true true uuid project_id stem_name instrument db in
        let log :=
          firstn k
            (Task.writes (Transcriber.transcribe_monophonic w uuid stem_name))
        in
        response = Api.Served uuid
        /\ Api.get_job_status max_str_digits (Api.send_all log db1) uuid
           = Some match final log with
                  | Some m => Api.report uuid m
                  | None =>
                      Api.JobStatus uuid "queued" 0
                        (Some ("Transcription queued (" ++ stem_name ++ ")"))
                  end).
Proof.
  assert (Q : forall msg,
             Api.get_job_status max_str_digits
               (Api.hset (job_key uuid)
                  [("state", "queued"); ("progress", "0"); ("message", msg);
                   ("project_id", project_id)] db) uuid
             = Some (Api.JobStatus uuid "queued" 0 (Some msg))).
  { intros msg. unfold Api.get_job_status, Api.hgetall, Api.hset.
    rewrite String.eqb_refl. cbn [fold_left fst snd].
    set (h := Api.hset_field "project_id" project_id _).
    assert (Hs : Api.hget "state" h = Some "queued").
    { unfold h. rewrite !hget_hset_field_neq by discriminate.
      apply hget_hset_field_eq. }
    assert (Hp : Api.hget "progress" h = Some "0").
    { unfold h. rewrite !hget_hset_field_neq by discriminate.
      apply hget_hset_field_eq. }
    assert (Hm : Api.hget "message" h = Some msg).
    { unfold h. rewrite hget_hset_field_neq by discriminate.
      apply hget_hset_field_eq. }
    assert (Hn : h <> []) by apply hset_field_not_empty.
    destruct h as [|e h']; [congruence|].
    unfold Api.get_default. rewrite Hs, Hp, Hm. reflexivity. }
  split.
  - intros originals w N. unfold Api.separate. cbn [negb].
    destruct originals as [|o rest]; [congruence|].
    cbv zeta. split; [reflexivity|].
    apply status_after_writes; [|apply Q].
    apply Forall_firstn, separation_writes_complete.
  - intros stem_name instrument w. unfold Api.transcribe. cbn [negb].
    cbv zeta. split; [reflexivity|].
    apply status_after_writes; [|apply Q].
    apply Forall_firstn, transcription_writes_complete.
Qed.

Lemma status_follows_job_witness :
  ["original.wav"] <> []
  /\ Api.get_job_status 4300
       (Api.send_all
          (firstn 1
             (Task.writes
                (Separation.separate_with_demucs Examples.separation_run
                   "job-1")))
          (snd (fst (Api.separate true ["original.wav"] "job-1" "project-1"
                       Api.no_keys))))
       "job-1"
     = Some (Api.JobStatus "job-1" "running" 1 (Some "Preparing Demucs...")).
Proof.
  assert (N : ["original.wav"] <> []) by discriminate.
  split; [exact N|].
  pose proof (proj1 (status_follows_job 4300 Api.no_keys "job-1" "project-1" 1)
                ["original.wav"] Examples.separation_run N) as H.
  cbv beta iota zeta delta [Api.separate negb] in H.
  destruct H as [_ H]. exact H.
Defined.

End StatusFacts.

(** ** Range requests for a stem *)

Section RangeFacts.

Local Open Scope string_scope.
Local Open Scope Z_scope.

Lemma uint_digits d :
  all_chars is_digit (NilEmpty.string_of_uint d) = true.
Proof.
  induction d; cbn [NilEmpty.string_of_uint]; [reflexivity|..];
    rewrite all_chars_cons, IHd; reflexivity.
Qed.

Lemma uint_value_from d :
  forall p,
    fold_left (fun acc c => 10 * acc + digit_value c)
      (list_ascii_of_string (NilEmpty.string_of_uint d)) (Z.pos p)
    = Z.pos (Pos.of_uint_acc d p).
Proof.
  induction d; intros p;
    cbn [NilEmpty.string_of_uint list_ascii_of_string fold_left
         Pos.of_uint_acc]; [reflexivity|..];
    rewrite <- IHd; f_equal;
    match goal with
    | |- context [digit_value ?c] =>
        let v := eval vm_compute in (digit_value c) in
        change (digit_value c) with v
    end; lia.
Qed.

Lemma uint_value d :
  int_of_digits (NilEmpty.string_of_uint d) = Z.of_N (Pos.of_uint d).
Proof.
  unfold int_of_digits.
  induction d;
    cbn [NilEmpty.string_of_uint list_ascii_of_string fold_left Pos.of_uint];
    [reflexivity|exact IHd|..];
    (etransitivity; [|apply uint_value_from]); reflexivity.
Qed.

Lemma str_pos p : str (Z.pos p) = NilEmpty.string_of_uint (Pos.to_uint p).
Proof.
  unfold str. cbn [Z.to_int NilZero.string_of_int].
  pose proof (DecimalPos.Unsigned.to_uint_nonnil p) as N.
  destruct (Pos.to_uint p); [congruence|reflexivity..].
Qed.

(** [int(str(n))] is [n]. *)
Lemma int_of_digits_str n : 0 <= n -> int_of_digits (str n) = n.
Proof.
  intros H. destruct n as [|p|p]; [reflexivity| |lia].
  rewrite str_pos, uint_value, DecimalPos.Unsigned.of_to. reflexivity.
Qed.

Lemma str_digits n : 0 <= n -> all_chars is_digit (str n) = true.
Proof.
  intros H. destruct n as [|p|p]; [reflexivity| |lia].
  rewrite str_pos. apply uint_digits.
Qed.

Lemma str_not_empty n : 0 <= n -> str n <> "".
Proof.
  intros H. destruct n as [|p|p]; [discriminate| |lia].
  rewrite str_pos.
  pose proof (DecimalPos.Unsigned.to_uint_nonnil p) as N.
  destruct (Pos.to_uint p); [congruence|discriminate..].
Qed.

Lemma scan_all_digits s :
  forall acc digits,
    all_chars is_digit s = true ->
    Api.scan_digits s false acc digits
    = Some (fold_left (fun acc c => 10 * acc + digit_value c)
              (list_ascii_of_string s) acc,
            digits + Z.of_nat (String.length s), "").
Proof.
  induction s as [|c s IH]; intros acc digits H.
  - cbn. now rewrite Z.add_0_r.
  - rewrite all_chars_cons in H. apply andb_true_iff in H.
    destruct H as [Hc Hs].
    cbn [Api.scan_digits list_ascii_of_string fold_left String.length].
    rewrite Hc, IH by exact Hs.
    replace (digits + 1 + Z.of_nat (String.length s))
      with (digits + Z.of_nat (S (String.length s))) by lia.
    reflexivity.
Qed.

Lemma digit_first c s :
  is_digit c = true ->
  Api.skip_int_spaces (String c s) = String c s
  /\ match String c s with
     | String "+" s' => (false, s')
     | String "-" s' => (true, s')
     | _ => (false, String c s)
     end = (false, String c s)
  /\ c <> "_"%char.
Proof.
  intros H.
  destruct c as [[] [] [] [] [] [] [] []]; try discriminate H;
    repeat split; discriminate.
Qed.

(** [int] of a text of digits. *)
Lemma int_of_string_digits max_str_digits s :
  s <> "" ->
  all_chars is_digit s = true ->
  (String.length s <= 640)%nat ->
  Api.int_of_string max_str_digits s = Some (int_of_digits s).
Proof.
  intros N D L. destruct s as [|c s]; [congruence|].
  pose proof D as D'. rewrite all_chars_cons in D'.
  apply andb_true_iff in D'. destruct D' as [Hc _].
  destruct (digit_first c s Hc) as [E1 _].
  unfold Api.int_of_string. rewrite E1.
  assert (Z0 : (0 + Z.of_nat (String.length (String c s)) =? 0) = false)
    by (apply Z.eqb_neq; cbn [String.length]; lia).
  assert (Z1 : (640 <? 0 + Z.of_nat (String.length (String c s))) = false)
    by (apply Z.ltb_ge; lia).
  pose proof (scan_all_digits _ 0 0 D) as S.
  destruct c as [[] [] [] [] [] [] [] []]; try discriminate Hc;
    cbv beta iota; rewrite S, Z0, Z1; reflexivity.
Qed.

Lemma int_of_string_str max_str_digits n :
  0 <= n -> (String.length (str n) <= 640)%nat ->
  Api.int_of_string max_str_digits (str n) = Some n.
Proof.
  intros H L. rewrite int_of_string_digits.
  - now rewrite int_of_digits_str.
  - now apply str_not_empty.
  - now apply str_digits.
  - exact L.
Qed.

(** X22. A partial response of [get_stem_file] describes what it
    sends: for a file that is not empty the range announced lies
    within the file, the body is exactly the bytes of that range and
    [Content-Length] is its length.  For an empty file the response
    announces the one byte 0-0 and sends none. *)
Theorem partial_content_within_file (max_str_digits : Z)
    (content : list Byte.byte) (range_header : option string)
    (start stop file_size content_length : Z) (data : list Byte.byte) :
  Api.get_stem_file max_str_digits (Some content) range_header
  = Some (Api.Served
            (Api.PartialContent start stop file_size content_length data)) ->
  file_size = Z.of_nat (List.length content)
  /\ content_length = stop - start + 1
  /\ 0 <= start <= stop
  /\ data = firstn (Z.to_nat content_length) (skipn (Z.to_nat start) content)
  /\ (content <> [] ->
      stop < file_size /\ Z.of_nat (List.length data) = content_length)
  /\ (content = [] ->
      start = 0 /\ stop = 0 /\ content_length = 1 /\ data = []).
Proof.
  unfold Api.get_stem_file.
  destruct range_header as [[|c h]|]; try discriminate.
  destruct (Api.range_groups _) as [[start_s end_s]|]; try discriminate.
  destruct (if String.eqb start_s "" then _ else _) as [start0|];
    try discriminate.
  destruct (if String.eqb end_s "" then _ else _) as [stop0|];
    try discriminate.
  cbv zeta. intros E. injection E as <- <- <- <- <-.
  split; [reflexivity|]. split; [reflexivity|]. split; [lia|].
  split; [reflexivity|]. split.
  - intros N. assert (0 < List.length content)%nat
      by (destruct content; [congruence|cbn; lia]).
    split; [lia|]. rewrite length_firstn, length_skipn. lia.
  - intros ->. cbn [List.length Z.of_nat].
    repeat split; try lia. now rewrite skipn_nil, firstn_nil.
Qed.

Lemma partial_content_within_file_witness :
  Api.get_stem_file 4300 (Some [Byte.x52; Byte.x49; Byte.x46; Byte.x46])
    (Some "bytes=1-9")
  = Some (Api.Served
            (Api.PartialContent 1 3 4 3 [Byte.x49; Byte.x46; Byte.x46]))
  /\ 3 = 3 - 1 + 1.
Proof.
  assert (E : Api.get_stem_file 4300
                (Some [Byte.x52; Byte.x49; Byte.x46; Byte.x46])
                (Some "bytes=1-9")
              = Some (Api.Served
                        (Api.PartialContent 1 3 4 3
                           [Byte.x49; Byte.x46; Byte.x46])))
    by reflexivity.
  split; [exact E|].
  exact (proj1 (proj2 (partial_content_within_file _ _ _ _ _ _ _ _ E))).
Defined.

Lemma span_digits_all s :
  all_chars is_digit s = true -> span_digits s = (s, "").
Proof.
  induction s as [|c s IH]; intros H; [reflexivity|].
  rewrite all_chars_cons in H. apply andb_true_iff in H. destruct H as [Hc Hs].
  cbn [span_digits]. now rewrite Hc, IH.
Qed.

Lemma span_digits_dash s r :
  all_chars is_digit s = true ->
  span_digits (s ++ String "-" r) = (s, String "-" r).
Proof.
  induction s as [|c s IH]; intros H; [reflexivity|].
  rewrite all_chars_cons in H. apply andb_true_iff in H. destruct H as [Hc Hs].
  cbn [append span_digits]. now rewrite Hc, IH.
Qed.

Lemma range_groups_numbers start_s end_s :
  all_chars is_digit start_s = true ->
  all_chars is_digit end_s = true ->
  Api.range_groups ("bytes=" ++ start_s ++ "-" ++ end_s)
  = Some (start_s, end_s).
Proof.
  intros Hs He. unfold Api.range_groups.
  change (Api.strip_prefix "bytes=" ("bytes=" ++ start_s ++ "-" ++ end_s))
    with (Some (start_s ++ String "-" end_s)).
  cbv beta iota. rewrite span_digits_dash by exact Hs.
  now rewrite span_digits_all.
Qed.

Lemma bound_text_digits o :
  Api.bound_ok o -> all_chars is_digit (Api.bound_text o) = true.
Proof. destruct o as [n|]; [intros [H _]; now apply str_digits|reflexivity]. Qed.

Lemma bound_value max_str_digits o default :
  Api.bound_ok o ->
  (if String.eqb (Api.bound_text o) "" then Some default
   else Api.int_of_string max_str_digits (Api.bound_text o))
  = Some match o with Some n => n | None => default end.
Proof.
  destruct o as [n|]; [|reflexivity]. intros [H L]. cbn [Api.bound_text].
  replace (String.eqb (str n) "") with false
    by (symmetry; apply String.eqb_neq; now apply str_not_empty).
  now apply int_of_string_str.
Qed.

(** The answer to a request for a range with the given bounds. *)
Lemma get_stem_file_bounds max_str_digits content o1 o2 :
  Api.bound_ok o1 -> Api.bound_ok o2 ->
  let file_size := Z.of_nat (List.length content) in
  let start0 := match o1 with Some a => a | None => 0 end in
  let stop0 :=
    match o2 with
    | Some b => b
    | None => Z.min (start0 + 1024 * 1024 - 1) (file_size - 1)
    end in
  let start := Z.max 0 (Z.min start0 (file_size - 1)) in
  let stop := Z.max start (Z.min stop0 (file_size - 1)) in
  Api.get_stem_file max_str_digits (Some content)
    (Some ("bytes=" ++ Api.bound_text o1 ++ "-" ++ Api.bound_text o2))
  = Some (Api.Served (Api.part content start stop)).
Proof.
  intros H1 H2. cbv zeta.
  set (header := "bytes=" ++ Api.bound_text o1 ++ "-" ++ Api.bound_text o2).
  assert (Hh : exists c h, header = String c h)
    by (eexists _, _; reflexivity).
  destruct Hh as [c [h Hh]].
  unfold Api.get_stem_file. rewrite Hh. cbv beta iota. rewrite <- Hh.
  unfold header.
  rewrite range_groups_numbers by now apply bound_text_digits.
  rewrite (bound_value _ o1 0 H1).
  rewrite (bound_value _ o2 _ H2).
  reflexivity.
Qed.

(** X23. How [get_stem_file] reads a range for a file that is not
    empty.  A range [a-b] inside the file is answered with exactly the
    bytes a to b.  An open range [a-] is answered from a up to one
    mebibyte, or to the end of the file if that comes first.  A range
    [-b] is answered with the first bytes of the file, 0 to b, not
    with its last b bytes.  A range that starts at or after the end of
    the file is answered with the last byte of the file, and a range
    whose end is before its start with the one byte at its start. *)
Theorem range_request_forms (max_str_digits : Z) (content : list Byte.byte)
    (a b : Z) :
  let file_size := Z.of_nat (List.length content) in
  let get header :=
    Api.get_stem_file max_str_digits (Some content) (Some header) in
  0 < file_size ->
  0 <= a -> (String.length (str a) <= 640)%nat ->
  0 <= b -> (String.length (str b) <= 640)%nat ->
  (a <= b < file_size ->
   get ("bytes=" ++ str a ++ "-" ++ str b)
   = Some (Api.Served (Api.part content a b)))
  /\ (a < file_size ->
      get ("bytes=" ++ str a ++ "-")
      = Some (Api.Served
                (Api.part content a
                   (Z.min (a + 1048575) (file_size - 1)))))
  /\ get ("bytes=-" ++ str b)
     = Some (Api.Served (Api.part content 0 (Z.min b (file_size - 1))))
  /\ (file_size <= a ->
      get ("bytes=" ++ str a ++ "-" ++ str b)
      = Some (Api.Served (Api.part content (file_size - 1) (file_size - 1)))
      /\ get ("bytes=" ++ str a ++ "-")
         = Some (Api.Served
                   (Api.part content (file_size - 1) (file_size - 1))))
  /\ (b < a < file_size ->
      get ("bytes=" ++ str a ++ "-" ++ str b)
      = Some (Api.Served (Api.part content a a))).
Proof.
  cbv zeta. intros Hs Ha La Hb Lb.
  pose proof (get_stem_file_bounds max_str_digits content (Some a) (Some b)
                (conj Ha La) (conj Hb Lb)) as Hab.
  pose proof (get_stem_file_bounds max_str_digits content (Some a) None
                (conj Ha La) I) as Ha_.
  pose proof (get_stem_file_bounds max_str_digits content None (Some b)
                I (conj Hb Lb)) as H_b.
  cbv zeta in Hab, Ha_, H_b. cbn [Api.bound_text] in Hab, Ha_, H_b.
  change ("bytes=" ++ str a ++ "-" ++ "") with ("bytes=" ++ str a ++ "-")
    in Ha_.
  change ("bytes=" ++ "" ++ "-" ++ str b) with ("bytes=-" ++ str b) in H_b.
  repeat split; intros;
    first [rewrite Hab | rewrite Ha_ | rewrite H_b];
    do 3 f_equal; lia.
Qed.

Lemma range_request_forms_witness :
  0 < Z.of_nat (List.length [Byte.x52; Byte.x49; Byte.x46; Byte.x46])
  /\ (String.length (str 1) <= 640)%nat
  /\ (String.length (str 2) <= 640)%nat
  /\ Api.get_stem_file 4300 (Some [Byte.x52; Byte.x49; Byte.x46; Byte.x46])
       (Some "bytes=1-2")
     = Some (Api.Served
               (Api.part [Byte.x52; Byte.x49; Byte.x46; Byte.x46] 1 2)).
Proof.
  assert (S : 0 < Z.of_nat
                    (List.length [Byte.x52; Byte.x49; Byte.x46; Byte.x46]))
    by (cbn; lia).
  assert (L1 : (String.length (str 1) <= 640)%nat) by (vm_compute; lia).
  assert (L2 : (String.length (str 2) <= 640)%nat) by (vm_compute; lia).
  assert (A : 0 <= 1) by lia.
  assert (B : 0 <= 2) by lia.
  assert (R : 1 <= 2 < Z.of_nat
                (List.length [Byte.x52; Byte.x49; Byte.x46; Byte.x46]))
    by (cbn; lia).
  split; [exact S|]. split; [exact L1|]. split; [exact L2|].
  exact (proj1 (range_request_forms 4300
                  [Byte.x52; Byte.x49; Byte.x46; Byte.x46] 1 2 S A L1 B L2) R).
Defined.

End RangeFacts.
